(** * yacoinjs-lib: transactions and blocks

    A shallow embedding of [ts_src/transaction.ts] and [ts_src/block.ts]
    together with the collaborators they call (byte cursor, CompactSize
    codec, merkle routine), and the properties of the codec, the
    signature hash, the merkle root and the proof-of-work check. *)

From Stdlib Require Import ZArith Lia Bool List.
From Stdlib Require Import Strings.Byte Strings.String Strings.Ascii.
From stdpp Require Import base option list gmap.

Open Scope Z_scope.

(** ** Bytes and integers *)

Abbreviation bytes := (list byte).

Definition byte_of_Z (z : Z) : byte :=
  default x00 (Byte.of_N (Z.to_N (z mod 256))).

Definition Z_of_byte (b : byte) : Z := Z.of_N (Byte.to_N b).

(** Little-endian encoding of the low [8 * n] bits of [z] (two's complement
    for a negative [z]), and the unsigned value of a byte string. *)
Fixpoint le_bytes (n : nat) (z : Z) : bytes :=
  match n with
  | O => []
  | S n' => byte_of_Z z :: le_bytes n' (z / 256)
  end.

Fixpoint le_value (bs : bytes) : Z :=
  match bs with
  | [] => 0
  | b :: bs' => Z_of_byte b + 256 * le_value bs'
  end.

(** Big-endian views, as [writeUIntBE] and [Buffer.compare] see a buffer. *)
Definition be_bytes (n : nat) (z : Z) : bytes := rev (le_bytes n z).
Definition be_value (bs : bytes) : Z := le_value (rev bs).

(** [buffer.slice(a, b)] for [a <= b]. *)
Definition slice (buffer : bytes) (a b : nat) : bytes :=
  take (b - a) (drop a buffer).

(** [target.set(src, at)]: overwrite [length src] bytes from [at] on. *)
Definition splice (buffer : bytes) (at_ : nat) (src : bytes) : bytes :=
  take at_ buffer ++ src ++ drop (at_ + length src) buffer.

(** JavaScript's [ToInt32], the operand conversion of [&] and [>>]. *)
Definition toInt32 (z : Z) : Z := (z + 2 ^ 31) mod 2 ^ 32 - 2 ^ 31.

Definition MAX_SAFE_INTEGER : Z := 2 ^ 53 - 1.

(** ** Failures and the cursor monad *)

Inductive error : Type :=
| OutOfBounds          (* a read or write past the end of a buffer *)
| OutOfRange           (* a number that does not fit its field *)
| UnexpectedData       (* 'Transaction has unexpected data' *)
| BufferTooSmall       (* 'Buffer too small (< 80 bytes)' *)
| MerkleNoTxes         (* 'Cannot compute merkle root for zero transactions' *)
| TypeError.           (* typeforce rejection, or a member of null/undefined *)

Inductive result (A : Type) : Type :=
| Ok (a : A)
| Err (e : error).
Arguments Ok {A} a.
Arguments Err {A} e.

Definition is_ok {A} (r : result A) : bool :=
  match r with Ok _ => true | Err _ => false end.

Definition result_map {A B} (f : A -> B) (r : result A) : result B :=
  match r with Ok a => Ok (f a) | Err e => Err e end.

Definition result_bind {A B} (r : result A) (f : A -> result B) : result B :=
  match r with Ok a => f a | Err e => Err e end.

(** A computation over a cursor of type [S] that may throw. *)
Definition M (S A : Type) : Type := S -> result (A * S).

Definition ret {S A} (a : A) : M S A := fun s => Ok (a, s).

Definition bind {S A B} (m : M S A) (k : A -> M S B) : M S B :=
  fun s => match m s with
           | Ok (a, s') => k a s'
           | Err e => Err e
           end.

Definition throw {S A} (e : error) : M S A := fun _ => Err e.

Notation "'let*' x ':=' m 'in' k" := (bind m (fun x => k))
  (at level 10, x name, m at level 100, k at level 200).
Notation "m ';;' k" := (bind m (fun _ => k))
  (at level 100, k at level 200, right associativity).

(** [arr.forEach(f)] for an effectful [f]. *)
Fixpoint forEach {S A} (f : A -> M S unit) (l : list A) : M S unit :=
  match l with
  | [] => ret tt
  | x :: l' => f x ;; forEach f l'
  end.

(** [for (i = 0; i < n; ++i) acc.push(body())]. *)
Fixpoint repeatM {S A} (n : nat) (body : M S A) : M S (list A) :=
  match n with
  | O => ret []
  | S n' => let* x := body in let* xs := repeatM n' body in ret (x :: xs)
  end.

(** ** CompactSize (the varuint-bitcoin package) *)

Module varuint.

Definition encodingLength (n : nat) : nat :=
  if Z.of_nat n <? 253 then 1%nat
  else if Z.of_nat n <=? 65535 then 3%nat
  else if (Z.of_nat n <=? 4294967295) then 5%nat
  else 9%nat.

(** Minimal encoding; [n] is always the length of an array or buffer. *)
Definition encode (n : nat) : bytes :=
  if Z.of_nat n <? 253 then le_bytes 1 (Z.of_nat n)
  else if Z.of_nat n <=? 65535 then xfd :: le_bytes 2 (Z.of_nat n)
  else if (Z.of_nat n <=? 4294967295) then xfe :: le_bytes 4 (Z.of_nat n)
  else xff :: le_bytes 8 (Z.of_nat n).

End varuint.

(** ** The byte cursor *)

(** Modelled from the spec: the byte cursor ([BufferReader], [BufferWriter]
    and [reverseBuffer] of bufferutils) is not among the sources. It is a
    buffer with a mutable offset; integers are little-endian, a read or
    write past the end fails, a CompactSize read accepts every encoding and
    a CompactSize write emits the minimal one. *)
Module BufferReader.

Record t : Type := mk { buffer : bytes; offset : nat }.

Definition new (buffer : bytes) : t := mk buffer 0.

Definition readSlice (n : nat) : M t bytes := fun r =>
  if (length (buffer r) <? offset r + n)%nat then Err OutOfBounds
  else Ok (slice (buffer r) (offset r) (offset r + n),
           mk (buffer r) (offset r + n)).

Definition readUInt (n : nat) : M t Z :=
  let* s := readSlice n in ret (le_value s).

Definition readUInt32 : M t Z := readUInt 4.

Definition readUInt64 : M t Z := readUInt 8.

Definition readInt32 : M t Z :=
  let* u := readUInt 4 in
  ret (if u <? 2 ^ 31 then u else u - 2 ^ 32).

Definition readVarInt : M t Z :=
  let* first := readUInt 1 in
  if first <? 253 then ret first
  else if first =? 253 then readUInt 2
  else if first =? 254 then readUInt 4
  else
    let* number := readUInt 8 in
    if number <=? MAX_SAFE_INTEGER then ret number else throw OutOfRange.

Definition readVarSlice : M t bytes :=
  let* n := readVarInt in readSlice (Z.to_nat n).

End BufferReader.

Module BufferWriter.

Record t : Type := mk { buffer : bytes; offset : nat }.

Definition writeSlice (s : bytes) : M t unit := fun w =>
  if (length (buffer w) <? offset w + length s)%nat then Err OutOfBounds
  else Ok (tt, mk (splice (buffer w) (offset w) s) (offset w + length s)).

Definition writeInt32 (i : Z) : M t unit :=
  if (- 2 ^ 31 <=? i) && (i <? 2 ^ 31) then writeSlice (le_bytes 4 i)
  else throw OutOfRange.

Definition writeUInt32 (i : Z) : M t unit :=
  if (0 <=? i) && (i <? 2 ^ 32) then writeSlice (le_bytes 4 i)
  else throw OutOfRange.

Definition writeUInt64 (i : Z) : M t unit :=
  if (0 <=? i) && (i <? 2 ^ 64) then writeSlice (le_bytes 8 i)
  else throw OutOfRange.

Definition writeVarInt (n : nat) : M t unit :=
  writeSlice (varuint.encode n).

Definition writeVarSlice (s : bytes) : M t unit :=
  writeVarInt (length s) ;; writeSlice s.

End BufferWriter.

Definition reverseBuffer (b : bytes) : bytes := rev b.

(** [buf.toString('hex')]. *)
Definition hex_digit (n : Z) : ascii :=
  ascii_of_nat (Z.to_nat (if n <? 10 then 48 + n else 87 + n)).

Fixpoint toHexString (b : bytes) : string :=
  match b with
  | [] => EmptyString
  | x :: b' =>
      String (hex_digit (Z_of_byte x / 16))
        (String (hex_digit (Z_of_byte x mod 16)) (toHexString b'))
  end.

(** [Buffer.from(s, 'hex')] on a string of hex digit pairs. *)
Definition hex_value (c : ascii) : option Z :=
  let n := Z.of_nat (nat_of_ascii c) in
  if (48 <=? n) && (n <=? 57) then Some (n - 48)
  else if (97 <=? n) && (n <=? 102) then Some (n - 87)
  else if (65 <=? n) && (n <=? 70) then Some (n - 55)
  else None.

Fixpoint fromHexString (s : string) : bytes :=
  match s with
  | String hi (String lo s') =>
      match hex_value hi, hex_value lo with
      | Some h, Some l => byte_of_Z (16 * h + l) :: fromHexString s'
      | _, _ => []
      end
  | _ => []
  end.

(** [a.compare(b)]: lexicographic on bytes, a proper prefix sorts first. *)
Fixpoint compare (a b : bytes) : Z :=
  match a, b with
  | [], [] => 0
  | [], _ :: _ => -1
  | _ :: _, [] => 1
  | x :: a', y :: b' =>
      if Z_of_byte x <? Z_of_byte y then -1
      else if Z_of_byte y <? Z_of_byte x then 1
      else compare a' b'
  end.

(** ** Buffers and the digest *)

(** [Buffer.allocUnsafe(n)]: [n] bytes of whatever the memory held, which
    [junk] stands for. *)
Definition allocUnsafe (junk : nat -> byte) (n : nat) : bytes :=
  map junk (seq 0 n).

(** [Buffer.alloc(n, 0)]. *)
Definition alloc (n : nat) : bytes := replicate n x00.

(** Modelled from the spec: the [crypto] module is not among the sources.
    The double-hash applies one digest twice; the digest itself is a
    parameter of the development. *)
Module bcrypto.

Definition hash256 (sha256 : bytes -> bytes) (buffer : bytes) : bytes :=
  sha256 (sha256 buffer).

End bcrypto.

(** ** Argument checks (typeforce) *)

(** Modelled from the spec: the [types] module is not among the sources.
    A hash is exactly 32 bytes, an index or sequence is an unsigned 32-bit
    integer. The amount check [types.Satoshi] is not modelled: it is a
    parameter of [addOutput]. *)
Module types.

Definition Hash256bit (b : bytes) : bool := (length b =? 32)%nat.

Definition UInt32 (n : Z) : bool := (0 <=? n) && (n <? 2 ^ 32).

End types.

(** ** Scripts *)

(** A decompiled script is a list of opcodes and data pushes. *)
Inductive chunk : Type :=
| Op (code : Z)
| Data (data : bytes).

Definition OP_CODESEPARATOR : Z := 171.

Definition is_OP_CODESEPARATOR (x : chunk) : bool :=
  match x with
  | Op code => code =? OP_CODESEPARATOR
  | Data _ => false
  end.

(** The witness script-hash output template, [OP_0 {scriptHash}].
    [bscript.compile] turns a script, given as a buffer or as chunks, into
    its bytes. *)
Module witnessScriptHash.

Definition OP_0 : Z := 0.

Definition check {script : Type} (compile : script -> bytes) (s : script)
    : bool :=
  let buffer := compile s in
  (length buffer =? 34)%nat
  && match buffer !! 0%nat with
     | Some b => Z_of_byte b =? OP_0
     | None => false
     end
  && match buffer !! 1%nat with
     | Some b => Z_of_byte b =? 32
     | None => false
     end.

End witnessScriptHash.

(** ** Transaction *)

Module Transaction.

Record Input : Type := mkInput {
  hash : bytes;
  index : Z;
  script : bytes;
  sequence : Z
}.

(** An output is [{script, value}]; the signature hash also stores the
    placeholder [{script, valueBuffer}], whose [value] is undefined. *)
Record Output : Type := mkOutput {
  out_script : bytes;
  value : option Z;
  valueBuffer : option bytes
}.

Definition isOutput (out : Output) : bool :=
  match value out with
  | Some _ => true
  | None => false
  end.

Record t : Type := mk {
  version : Z;
  time : Z;
  locktime : Z;
  ins : list Input;
  outs : list Output
}.

Definition DEFAULT_SEQUENCE : Z := 4294967295.
Definition SIGHASH_ALL : Z := 1.
Definition SIGHASH_NONE : Z := 2.
Definition SIGHASH_SINGLE : Z := 3.
Definition SIGHASH_ANYONECANPAY : Z := 128.

Definition EMPTY_SCRIPT : bytes := [].
Definition ZERO : bytes := replicate 32 x00.
Definition ONE : bytes := replicate 31 x00 ++ [x01].
Definition VALUE_UINT64_MAX : bytes := replicate 8 xff.
Definition BLANK_OUTPUT : Output :=
  mkOutput EMPTY_SCRIPT None (Some VALUE_UINT64_MAX).

Definition varSliceSize (someScript : bytes) : nat :=
  (varuint.encodingLength (length someScript) + length someScript)%nat.

(** *** Parsing *)

Definition readInput : M BufferReader.t Input :=
  let* hash := BufferReader.readSlice 32 in
  let* index := BufferReader.readUInt32 in
  let* script := BufferReader.readVarSlice in
  let* sequence := BufferReader.readUInt32 in
  ret (mkInput hash index script sequence).

Definition readOutput : M BufferReader.t Output :=
  let* value := BufferReader.readUInt64 in
  let* script := BufferReader.readVarSlice in
  ret (mkOutput script (Some value) None).

(** The body of [fromBuffer] up to and including the locktime. *)
Definition readTransaction : M BufferReader.t t :=
  let* version := BufferReader.readInt32 in
  let* time :=
    (if 2 <=? version then BufferReader.readUInt64
     else BufferReader.readUInt32) in
  let* vinLen := BufferReader.readVarInt in
  let* ins := repeatM (Z.to_nat vinLen) readInput in
  let* voutLen := BufferReader.readVarInt in
  let* outs := repeatM (Z.to_nat voutLen) readOutput in
  let* locktime := BufferReader.readUInt32 in
  ret (mk version time locktime ins outs).

Definition fromBuffer (buffer : bytes) (NO_STRICT : bool) : result t :=
  match readTransaction (BufferReader.new buffer) with
  | Err e => Err e
  | Ok (tx, bufferReader) =>
      if NO_STRICT then Ok tx
      else if (BufferReader.offset bufferReader =? length buffer)%nat then Ok tx
      else Err UnexpectedData
  end.

Definition fromHex (hex : string) : result t :=
  fromBuffer (fromHexString hex) false.

Definition isCoinbaseHash (buffer : bytes) : result bool :=
  if types.Hash256bit buffer
  then Ok (forallb (fun b => Z_of_byte b =? 0) buffer)
  else Err TypeError.

Definition isCoinbase (tx : t) : result bool :=
  match ins tx with
  | [input] => isCoinbaseHash (hash input)
  | _ => Ok false
  end.

(** *** Building *)

Definition addInput (tx : t) (hash : bytes) (index : Z)
    (sequence : option Z) (scriptSig : option bytes) : result (Z * t) :=
  if types.Hash256bit hash && types.UInt32 index
     && from_option types.UInt32 true sequence
  then
    let sequence := default DEFAULT_SEQUENCE sequence in
    let input := mkInput hash index (default EMPTY_SCRIPT scriptSig) sequence in
    let tx' := mk (version tx) (time tx) (locktime tx)
                  (ins tx ++ [input]) (outs tx) in
    Ok (Z.of_nat (length (ins tx')) - 1, tx')
  else Err TypeError.

(** [Satoshi] stands for [types.Satoshi], the amount check of the [types]
    module. *)
Definition addOutput (Satoshi : Z -> bool) (tx : t) (scriptPubKey : bytes)
    (value : Z) : result (Z * t) :=
  if Satoshi value then
    let tx' := mk (version tx) (time tx) (locktime tx)
                  (ins tx) (outs tx ++ [mkOutput scriptPubKey (Some value) None]) in
    Ok (Z.of_nat (length (outs tx')) - 1, tx')
  else Err TypeError.

(** *** Size and serialization *)

Definition byteLength (tx : t) : nat :=
  ((if (2 <=? version tx)%Z then 16 else 12) +
   varuint.encodingLength (length (ins tx)) +
   varuint.encodingLength (length (outs tx)) +
   fold_left (fun sum input => sum + 40 + varSliceSize (script input))
     (ins tx) 0 +
   fold_left (fun sum output => sum + 8 + varSliceSize (out_script output))
     (outs tx) 0)%nat.

Definition writeInput (txIn : Input) : M BufferWriter.t unit :=
  BufferWriter.writeSlice (hash txIn) ;;
  BufferWriter.writeUInt32 (index txIn) ;;
  BufferWriter.writeVarSlice (script txIn) ;;
  BufferWriter.writeUInt32 (sequence txIn).

Definition writeOutput (txOut : Output) : M BufferWriter.t unit :=
  (if isOutput txOut
   then match value txOut with
        | Some v => BufferWriter.writeUInt64 v
        | None => throw TypeError
        end
   else match valueBuffer txOut with
        | Some b => BufferWriter.writeSlice b
        | None => throw TypeError
        end) ;;
  BufferWriter.writeVarSlice (out_script txOut).

(** The writes of [__toBuffer], in order, through one cursor. *)
Definition writeTransaction (tx : t) : M BufferWriter.t unit :=
  BufferWriter.writeInt32 (version tx) ;;
  (if 2 <=? version tx then BufferWriter.writeUInt64 (time tx)
   else BufferWriter.writeUInt32 (time tx)) ;;
  BufferWriter.writeVarInt (length (ins tx)) ;;
  forEach writeInput (ins tx) ;;
  BufferWriter.writeVarInt (length (outs tx)) ;;
  forEach writeOutput (outs tx) ;;
  BufferWriter.writeUInt32 (locktime tx).

(** [__toBuffer(buffer, initialOffset)] on a caller's buffer: the buffer as
    the call leaves it, and the cursor position after the last write. *)
Definition toBufferAt (tx : t) (buffer : bytes) (initialOffset : nat)
    : result BufferWriter.t :=
  match writeTransaction tx (BufferWriter.mk buffer initialOffset) with
  | Ok (_, bufferWriter) => Ok bufferWriter
  | Err e => Err e
  end.

Definition clone (tx : t) : t :=
  mk (version tx) (time tx) (locktime tx)
     (map (fun txIn => mkInput (hash txIn) (index txIn) (script txIn)
                               (sequence txIn)) (ins tx))
     (map (fun txOut => mkOutput (out_script txOut) (value txOut) None)
        (outs tx)).

(** *** Hashing *)

Section Hashing.

Context (junk : nat -> byte).
Context (sha256 : bytes -> bytes).
(** [bscript.decompile] answers [null] on a script it cannot split, and
    [bscript.compile] assembles chunks again. *)
Context (decompile : bytes -> option (list chunk)).
Context (compile : list chunk -> bytes).

(** [toBuffer()] and [__toBuffer(undefined, undefined)]: a fresh buffer of
    [byteLength()] bytes, returned whole. *)
Definition toBuffer (tx : t) : result bytes :=
  match toBufferAt tx (allocUnsafe junk (byteLength tx)) 0 with
  | Ok bufferWriter => Ok (BufferWriter.buffer bufferWriter)
  | Err e => Err e
  end.

Definition toHex (tx : t) : result string :=
  result_map toHexString (toBuffer tx).

Definition getHash (tx : t) : result bytes :=
  match isCoinbase tx with
  | Err e => Err e
  | Ok true => Ok (alloc 32)
  | Ok false => result_map (bcrypto.hash256 sha256) (toBuffer tx)
  end.

Definition getId (tx : t) : result string :=
  result_map (fun h => toHexString (reverseBuffer h)) (getHash tx).

Definition setSequence (sequence : Z) (input : Input) : Input :=
  mkInput (hash input) (index input) (script input) sequence.

Definition setScript (script : bytes) (input : Input) : Input :=
  mkInput (hash input) (index input) script (sequence input).

(** [ins.forEach((input, i) => { if (i === inIndex) return;
    input.sequence = 0 })]. *)
Definition ignoreSequences (inIndex : nat) (ins : list Input) : list Input :=
  imap (fun i input => if (i =? inIndex)%nat then input
                       else setSequence 0 input) ins.

(** [for (i = 0; i < inIndex; i++) outs[i] = BLANK_OUTPUT]. *)
Definition blankOutputs (inIndex : nat) (outs : list Output) : list Output :=
  foldl (fun outs i => <[i := BLANK_OUTPUT]> outs) outs (seq 0 inIndex).

(** The clone after the [hashType & 0x1f] step; [None] is the early
    [return ONE] of SIGHASH_SINGLE. *)
Definition signedOutputs (tx txTmp : t) (inIndex : Z) (hashType : Z)
    : option t :=
  if Z.land (toInt32 hashType) 31 =? SIGHASH_NONE then
    Some (mk (version txTmp) (time txTmp) (locktime txTmp)
             (ignoreSequences (Z.to_nat inIndex) (ins txTmp)) [])
  else if Z.land (toInt32 hashType) 31 =? SIGHASH_SINGLE then
    if Z.of_nat (length (outs tx)) <=? inIndex then None
    else
      Some (mk (version txTmp) (time txTmp) (locktime txTmp)
               (ignoreSequences (Z.to_nat inIndex) (ins txTmp))
               (blankOutputs (Z.to_nat inIndex)
                  (take (Z.to_nat (inIndex + 1)) (outs txTmp))))
  else Some txTmp.

(** The clone after the SIGHASH_ANYONECANPAY step. *)
Definition signedInputs (txTmp : t) (inIndex : Z) (hashType : Z)
    (ourScript : bytes) : result t :=
  if negb (Z.land (toInt32 hashType) SIGHASH_ANYONECANPAY =? 0) then
    match ins txTmp !! Z.to_nat inIndex with
    | Some input =>
        Ok (mk (version txTmp) (time txTmp) (locktime txTmp)
               [setScript ourScript input] (outs txTmp))
    | None => Err TypeError
    end
  else
    match ins txTmp !! Z.to_nat inIndex with
    | Some _ =>
        Ok (mk (version txTmp) (time txTmp) (locktime txTmp)
               (alter (setScript ourScript) (Z.to_nat inIndex)
                  (map (setScript EMPTY_SCRIPT) (ins txTmp)))
               (outs txTmp))
    | None => Err TypeError
    end.

(** The last three statements: the buffer, the trailer, the hash. *)
Definition serializeAndHash (txTmp : t) (hashType : Z) : result bytes :=
  let buffer := allocUnsafe junk (byteLength txTmp + 4) in
  match BufferWriter.writeInt32 hashType
          (BufferWriter.mk buffer (length buffer - 4)) with
  | Err e => Err e
  | Ok (_, trailer) =>
      match toBufferAt txTmp (BufferWriter.buffer trailer) 0 with
      | Err e => Err e
      | Ok bufferWriter =>
          Ok (bcrypto.hash256 sha256 (BufferWriter.buffer bufferWriter))
      end
  end.

Definition hashForSignature (tx : t) (inIndex : Z) (prevOutScript : bytes)
    (hashType : Z) : result bytes :=
  if negb (types.UInt32 inIndex) then Err TypeError
  else if Z.of_nat (length (ins tx)) <=? inIndex then Ok ONE
  else
    match decompile prevOutScript with
    | None => Err TypeError
    | Some chunks =>
        let ourScript :=
          compile (List.filter (fun x => negb (is_OP_CODESEPARATOR x)) chunks) in
        let txTmp := clone tx in
        match signedOutputs tx txTmp inIndex hashType with
        | None => Ok ONE
        | Some txTmp =>
            match signedInputs txTmp inIndex hashType ourScript with
            | Err e => Err e
            | Ok txTmp => serializeAndHash txTmp hashType
            end
        end
    end.

End Hashing.

(** *** Size in weight units, and the unlock script of one input *)

Definition weight (tx : t) : nat :=
  let base := byteLength tx in
  let total := byteLength tx in
  (base * 3 + total)%nat.

(** [Math.ceil(this.weight() / 4)]. *)
Definition virtualSize (tx : t) : nat := ((weight tx + 3) / 4)%nat.

(** [this.ins[index].script = scriptSig]; an index without an input makes
    the assignment a member access on [undefined]. *)
Definition setInputScript (tx : t) (index : Z) (scriptSig : bytes)
    : result t :=
  if 0 <=? index then
    match ins tx !! Z.to_nat index with
    | Some _ =>
        Ok (mk (version tx) (time tx) (locktime tx)
               (alter (setScript scriptSig) (Z.to_nat index) (ins tx))
               (outs tx))
    | None => Err TypeError
    end
  else Err TypeError.

(** [toBuffer(buffer, initialOffset)] on a caller's buffer: the slice it
    returns, and the caller's buffer after the call. *)
Definition toBufferInto (tx : t) (buffer : bytes) (initialOffset : nat)
    : result (bytes * bytes) :=
  match toBufferAt tx buffer initialOffset with
  | Ok bufferWriter =>
      Ok (slice (BufferWriter.buffer bufferWriter) initialOffset
            (BufferWriter.offset bufferWriter),
          BufferWriter.buffer bufferWriter)
  | Err e => Err e
  end.

End Transaction.

(** ** The merkle routine (the merkle-lib package) *)

(** Modelled from the spec: [fastMerkleRoot] comes from a package that is
    not among the sources. It folds the array of leaves in place, level by
    level: adjacent nodes are paired left to right, a last node without a
    partner is paired with itself, and each pair is replaced by the digest
    of its concatenation until one node is left. *)
Module merkle.

Section FastRoot.

Context (digestFn : bytes -> bytes).

(** [for (i = 0; i < length; i += 2, ++j) results[j] = digestFn(...)],
    from the given [i] and [j] on; at most [fuel] rounds. *)
Fixpoint level (fuel : nat) (length i j : nat) (results : list bytes)
    : list bytes * nat :=
  match fuel with
  | O => (results, j)
  | S fuel' =>
      if (i <? length)%nat then
        let left := default [] (results !! i) in
        let right :=
          if (i + 1 =? length)%nat then left
          else default [] (results !! (i + 1)%nat) in
        let data := left ++ right in
        level fuel' length (i + 2) (j + 1) (<[j := digestFn data]> results)
      else (results, j)
  end.

(** [while (length > 1) { ...; length = j }]. *)
Fixpoint levels (fuel : nat) (length : nat) (results : list bytes)
    : list bytes :=
  match fuel with
  | O => results
  | S fuel' =>
      if (1 <? length)%nat then
        let '(results', j) := level length length 0 0 results in
        levels fuel' j results'
      else results
  end.

Definition fastRoot (values : list bytes) : option bytes :=
  levels (length values) (length values) values !! 0%nat.

End FastRoot.

End merkle.

(** ** Block *)

Module Block.

Record t : Type := mk {
  version : Z;
  prevHash : option bytes;
  merkleRoot : option bytes;
  timestamp : Z;
  witnessCommit : option bytes;
  bits : Z;
  nonce : Z;
  transactions : option (list Transaction.t)
}.

(** [buf.writeUIntBE(value, offset, byteLength)]. *)
Definition writeUIntBE (buf : bytes) (value offset : Z) (byteLength : nat)
    : result bytes :=
  if negb ((0 <=? value) && (value <? 256 ^ Z.of_nat byteLength))
  then Err OutOfRange
  else if negb ((0 <=? offset)
                && (offset + Z.of_nat byteLength <=? Z.of_nat (length buf)))
  then Err OutOfBounds
  else Ok (splice buf (Z.to_nat offset) (be_bytes byteLength value)).

Definition calculateTarget (bits : Z) : result bytes :=
  let exponent := Z.shiftr (Z.land (toInt32 bits) (toInt32 4278190080)) 24 - 3 in
  let mantissa := Z.land (toInt32 bits) 8388607 in
  let target := alloc 32 in
  writeUIntBE target mantissa (29 - exponent) 3.

(** The closure [readTransaction] of [fromBuffer]. *)
Definition readTransaction : M BufferReader.t Transaction.t := fun r =>
  match Transaction.fromBuffer
          (drop (BufferReader.offset r) (BufferReader.buffer r)) true with
  | Err e => Err e
  | Ok tx =>
      Ok (tx, BufferReader.mk (BufferReader.buffer r)
                (BufferReader.offset r + Transaction.byteLength tx))
  end.

Definition readHeader : M BufferReader.t t :=
  let* version := BufferReader.readInt32 in
  let* prevHash := BufferReader.readSlice 32 in
  let* merkleRoot := BufferReader.readSlice 32 in
  let* timestamp := BufferReader.readUInt32 in
  let* bits := BufferReader.readUInt32 in
  let* nonce := BufferReader.readUInt32 in
  ret (mk version (Some prevHash) (Some merkleRoot) timestamp None bits nonce
          None).

Definition readTransactions (block : t) : M BufferReader.t t :=
  let* nTransactions := BufferReader.readVarInt in
  let* txs := repeatM (Z.to_nat nTransactions) readTransaction in
  ret (mk (version block) (prevHash block) (merkleRoot block)
          (timestamp block) (witnessCommit block) (bits block) (nonce block)
          (Some txs)).

Definition fromBuffer (buffer : bytes) : result t :=
  if (length buffer <? 80)%nat then Err BufferTooSmall
  else
    match readHeader (BufferReader.new buffer) with
    | Err e => Err e
    | Ok (block, bufferReader) =>
        if (length buffer =? 80)%nat then Ok block
        else
          match readTransactions block bufferReader with
          | Err e => Err e
          | Ok (block, _) => Ok block
          end
    end.

Definition fromHex (hex : string) : result t :=
  fromBuffer (fromHexString hex).

Definition byteLength (block : t) (headersOnly : bool) : nat :=
  match transactions block with
  | Some txs =>
      if headersOnly then 80%nat
      else (80 + varuint.encodingLength (length txs) +
            fold_left (fun a x => a + Transaction.byteLength x) txs 0)%nat
  | None => 80%nat
  end.

Definition weight (block : t) : nat :=
  let base := byteLength block false in
  let total := byteLength block false in
  (base * 3 + total)%nat.

(** [tx.toBuffer(buffer, bufferWriter.offset)] followed by
    [bufferWriter.offset += txSize]. *)
Definition writeTransaction (tx : Transaction.t) : M BufferWriter.t unit :=
  fun w =>
    let txSize := Transaction.byteLength tx in
    match Transaction.toBufferAt tx (BufferWriter.buffer w)
            (BufferWriter.offset w) with
    | Err e => Err e
    | Ok w' =>
        Ok (tt, BufferWriter.mk (BufferWriter.buffer w')
                  (BufferWriter.offset w + txSize))
    end.

Definition writeOptSlice (s : option bytes) : M BufferWriter.t unit :=
  match s with
  | Some b => BufferWriter.writeSlice b
  | None => throw TypeError
  end.

Definition writeHeader (block : t) : M BufferWriter.t unit :=
  BufferWriter.writeInt32 (version block) ;;
  writeOptSlice (prevHash block) ;;
  writeOptSlice (merkleRoot block) ;;
  BufferWriter.writeUInt32 (timestamp block) ;;
  BufferWriter.writeUInt32 (bits block) ;;
  BufferWriter.writeUInt32 (nonce block).

Section Hashing.

Context (junk : nat -> byte).
Context (sha256 : bytes -> bytes).

Definition toBuffer (block : t) (headersOnly : bool) : result bytes :=
  let buffer := allocUnsafe junk (byteLength block headersOnly) in
  let body :=
    writeHeader block ;;
    match transactions block with
    | Some txs =>
        if headersOnly then ret tt
        else BufferWriter.writeVarInt (length txs) ;;
             forEach writeTransaction txs
    | None => ret tt
    end in
  match body (BufferWriter.mk buffer 0) with
  | Err e => Err e
  | Ok (_, bufferWriter) => Ok (BufferWriter.buffer bufferWriter)
  end.

Definition toHex (block : t) (headersOnly : bool) : result string :=
  result_map toHexString (toBuffer block headersOnly).

Definition getHash (block : t) : result bytes :=
  result_map (bcrypto.hash256 sha256) (toBuffer block true).

Definition getId (block : t) : result string :=
  result_map (fun h => toHexString (reverseBuffer h)) (getHash block).

(** [transactions.map(transaction => transaction.getHash())]. *)
Fixpoint getHashes (transactions : list Transaction.t) : result (list bytes) :=
  match transactions with
  | [] => Ok []
  | transaction :: rest =>
      match Transaction.getHash junk sha256 transaction with
      | Err e => Err e
      | Ok h => result_map (cons h) (getHashes rest)
      end
  end.

Definition calculateMerkleRoot (transactions : list Transaction.t)
    : result bytes :=
  if (length transactions =? 0)%nat then Err MerkleNoTxes
  else
    match getHashes transactions with
    | Err e => Err e
    | Ok hashes =>
        match merkle.fastRoot (bcrypto.hash256 sha256) hashes with
        | Some rootHash => Ok rootHash
        | None => Err TypeError
        end
    end.

Definition checkMerkleRoot (block : t) : result bool :=
  match transactions block with
  | None => Err MerkleNoTxes
  | Some txs =>
      match calculateMerkleRoot txs with
      | Err e => Err e
      | Ok actualMerkleRoot =>
          match merkleRoot block with
          | Some root => Ok (compare root actualMerkleRoot =? 0)
          | None => Err TypeError
          end
      end
  end.

Definition checkTxRoots (block : t) : result bool := checkMerkleRoot block.

Definition checkProofOfWork (block : t) : result bool :=
  match getHash block with
  | Err e => Err e
  | Ok h =>
      let hash := reverseBuffer h in
      match calculateTarget (bits block) with
      | Err e => Err e
      | Ok target => Ok (compare hash target <=? 0)
      end
  end.

End Hashing.

End Block.

(** ** The object graph behind [clone] and [hashForSignature]

    Buffers, arrays, inputs, outputs and transactions are JavaScript
    objects: a field holds a reference, and two references may name the same
    object. The store below keeps that sharing, so that what [clone] copies
    and what it shares can be told apart. *)
Module Heap.

Abbreviation loc := positive.

Inductive object : Type :=
| OBuffer (data : bytes)
| OArray (elems : list loc)
| OInput (hash : loc) (index : Z) (script : loc) (sequence : Z)
| OOutput (script : loc) (value : option Z) (valueBuffer : option loc)
| OTransaction (version time locktime : Z) (ins outs : loc).

Abbreviation heap := (gmap positive object).

(** A statement sequence over the store; a throw keeps the store as the
    statements before it left it. *)
Definition H (A : Type) : Type := heap -> result A * heap.

Definition hret {A} (a : A) : H A := fun h => (Ok a, h).

Definition hbind {A B} (m : H A) (k : A -> H B) : H B :=
  fun h => match m h with
           | (Ok a, h') => k a h'
           | (Err e, h') => (Err e, h')
           end.

Definition hthrow {A} (e : error) : H A := fun h => (Err e, h).

Notation "'do*' x ':=' m 'in' k" := (hbind m (fun x => k))
  (at level 10, x name, m at level 100, k at level 200).
Notation "m ';;;' k" := (hbind m (fun _ => k))
  (at level 100, k at level 200, right associativity).

(** [new ...] and object or array literals. *)
Definition alloc (o : object) : H loc := fun h =>
  let l := fresh (dom h) in (Ok l, <[l := o]> h).

Definition put (l : loc) (o : object) : H unit := fun h =>
  (Ok tt, <[l := o]> h).

Definition getBuffer (l : loc) : H bytes := fun h =>
  match h !! l with
  | Some (OBuffer data) => (Ok data, h)
  | _ => (Err TypeError, h)
  end.

Definition getArray (l : loc) : H (list loc) := fun h =>
  match h !! l with
  | Some (OArray elems) => (Ok elems, h)
  | _ => (Err TypeError, h)
  end.

Definition withInput {A} (l : loc) (k : loc -> Z -> loc -> Z -> H A) : H A :=
  fun h =>
    match h !! l with
    | Some (OInput hash index script sequence) =>
        k hash index script sequence h
    | _ => (Err TypeError, h)
    end.

Definition withOutput {A} (l : loc)
    (k : loc -> option Z -> option loc -> H A) : H A :=
  fun h =>
    match h !! l with
    | Some (OOutput script value valueBuffer) => k script value valueBuffer h
    | _ => (Err TypeError, h)
    end.

Definition withTransaction {A} (l : loc)
    (k : Z -> Z -> Z -> loc -> loc -> H A) : H A :=
  fun h =>
    match h !! l with
    | Some (OTransaction version time locktime ins outs) =>
        k version time locktime ins outs h
    | _ => (Err TypeError, h)
    end.

(** [arr.map(f)] for an allocating [f]. *)
Fixpoint mapH {A B} (f : A -> H B) (l : list A) : H (list B) :=
  match l with
  | [] => hret []
  | x :: l' => do* y := f x in do* ys := mapH f l' in hret (y :: ys)
  end.

(** [arr.forEach((x, i) => ...)], counting from [i]. *)
Fixpoint forEachH {A} (f : nat -> A -> H unit) (i : nat) (l : list A)
    : H unit :=
  match l with
  | [] => hret tt
  | x :: l' => f i x ;;; forEachH f (S i) l'
  end.

(** Reading a whole value out of the store. *)
Definition loadBuffer (h : heap) (l : loc) : option bytes :=
  match h !! l with
  | Some (OBuffer data) => Some data
  | _ => None
  end.

Definition loadArray (h : heap) (l : loc) : option (list loc) :=
  match h !! l with
  | Some (OArray elems) => Some elems
  | _ => None
  end.

Definition loadInput (h : heap) (l : loc) : option Transaction.Input :=
  match h !! l with
  | Some (OInput hash index script sequence) =>
      match loadBuffer h hash, loadBuffer h script with
      | Some hb, Some sb => Some (Transaction.mkInput hb index sb sequence)
      | _, _ => None
      end
  | _ => None
  end.

Definition loadOutput (h : heap) (l : loc) : option Transaction.Output :=
  match h !! l with
  | Some (OOutput script value valueBuffer) =>
      match loadBuffer h script, valueBuffer with
      | Some sb, None => Some (Transaction.mkOutput sb value None)
      | Some sb, Some vl =>
          match loadBuffer h vl with
          | Some vb => Some (Transaction.mkOutput sb value (Some vb))
          | None => None
          end
      | None, _ => None
      end
  | _ => None
  end.

Fixpoint loadAll {A} (f : loc -> option A) (ls : list loc)
    : option (list A) :=
  match ls with
  | [] => Some []
  | l :: ls' =>
      match f l, loadAll f ls' with
      | Some x, Some xs => Some (x :: xs)
      | _, _ => None
      end
  end.

Definition loadTransaction (h : heap) (l : loc) : option Transaction.t :=
  match h !! l with
  | Some (OTransaction version time locktime ins outs) =>
      match loadArray h ins, loadArray h outs with
      | Some il, Some ol =>
          match loadAll (loadInput h) il, loadAll (loadOutput h) ol with
          | Some is_, Some os =>
              Some (Transaction.mk version time locktime is_ os)
          | _, _ => None
          end
      | _, _ => None
      end
  | _ => None
  end.

(** The module-level constants [EMPTY_SCRIPT], [ONE] and [BLANK_OUTPUT]
    are objects of the store as well. *)
Record globals : Type := mkGlobals {
  EMPTY_SCRIPT : loc;
  ONE : loc;
  VALUE_UINT64_MAX : loc;
  BLANK_OUTPUT : loc
}.

Section Methods.

Context (junk : nat -> byte).
Context (sha256 : bytes -> bytes).
Context (decompile : bytes -> option (list chunk)).
Context (compile : list chunk -> bytes).
Context (g : globals).

(** [clone()]: a new transaction, new arrays, a new object per input and
    per output; the buffers the fields refer to are not copied. The defaults
    the constructor stores first are overwritten before anything reads
    them. *)
Definition clone (this : loc) : H loc :=
  withTransaction this (fun version time locktime ins outs =>
    do* txIns := getArray ins in
    do* newIns :=
      mapH (fun txIn =>
              withInput txIn (fun hash index script sequence =>
                alloc (OInput hash index script sequence))) txIns in
    do* insArray := alloc (OArray newIns) in
    do* txOuts := getArray outs in
    do* newOuts :=
      mapH (fun txOut =>
              withOutput txOut (fun script value _ =>
                alloc (OOutput script value None))) txOuts in
    do* outsArray := alloc (OArray newOuts) in
    alloc (OTransaction version time locktime insArray outsArray)).

(** [input.sequence = 0] and [input.script = s]. *)
Definition setSequence (input : loc) (sequence : Z) : H unit :=
  withInput input (fun hash index script _ =>
    put input (OInput hash index script sequence)).

Definition setScript (input : loc) (script : loc) : H unit :=
  withInput input (fun hash index _ sequence =>
    put input (OInput hash index script sequence)).

Definition ignoreSequences (ins : loc) (inIndex : nat) : H unit :=
  do* elems := getArray ins in
  forEachH (fun i input => if (i =? inIndex)%nat then hret tt
                           else setSequence input 0) 0 elems.

(** [false] is the early [return ONE] of SIGHASH_SINGLE. *)
Definition signedOutputs (this txTmp : loc) (inIndex : Z) (hashType : Z)
    : H bool :=
  if Z.land (toInt32 hashType) 31 =? Transaction.SIGHASH_NONE then
    withTransaction txTmp (fun version time locktime ins _ =>
      do* empty := alloc (OArray []) in
      put txTmp (OTransaction version time locktime ins empty) ;;;
      ignoreSequences ins (Z.to_nat inIndex) ;;;
      hret true)
  else if Z.land (toInt32 hashType) 31 =? Transaction.SIGHASH_SINGLE then
    withTransaction this (fun _ _ _ _ thisOuts =>
      do* thisOutElems := getArray thisOuts in
      if Z.of_nat (length thisOutElems) <=? inIndex then hret false
      else
        withTransaction txTmp (fun _ _ _ ins outs =>
          do* elems := getArray outs in
          put outs
            (OArray (foldl (fun elems i => <[i := BLANK_OUTPUT g]> elems)
                       (take (Z.to_nat (inIndex + 1)) elems)
                       (seq 0 (Z.to_nat inIndex)))) ;;;
          ignoreSequences ins (Z.to_nat inIndex) ;;;
          hret true))
  else hret true.

Definition signedInputs (txTmp : loc) (inIndex : Z) (hashType : Z)
    (ourScript : loc) : H unit :=
  withTransaction txTmp (fun version time locktime ins outs =>
    do* elems := getArray ins in
    if negb (Z.land (toInt32 hashType) Transaction.SIGHASH_ANYONECANPAY =? 0)
    then
      match elems !! Z.to_nat inIndex with
      | Some input =>
          do* single := alloc (OArray [input]) in
          put txTmp (OTransaction version time locktime single outs) ;;;
          setScript input ourScript
      | None => hthrow TypeError
      end
    else
      forEachH (fun _ input => setScript input (EMPTY_SCRIPT g)) 0 elems ;;;
      match elems !! Z.to_nat inIndex with
      | Some input => setScript input ourScript
      | None => hthrow TypeError
      end).

(** The cursor reads the clone through its references and writes a buffer
    of its own; the digest is a new buffer. *)
Definition serializeAndHash (txTmp : loc) (hashType : Z) : H loc := fun h =>
  match loadTransaction h txTmp with
  | None => (Err TypeError, h)
  | Some tx =>
      match Transaction.serializeAndHash junk sha256 tx hashType with
      | Err e => (Err e, h)
      | Ok digest => alloc (OBuffer digest) h
      end
  end.

Definition hashForSignature (this : loc) (inIndex : Z) (prevOutScript : loc)
    (hashType : Z) : H loc :=
  if negb (types.UInt32 inIndex) then hthrow TypeError
  else
    withTransaction this (fun _ _ _ ins _ =>
      do* elems := getArray ins in
      if Z.of_nat (length elems) <=? inIndex then hret (ONE g)
      else
        do* prevOut := getBuffer prevOutScript in
        match decompile prevOut with
        | None => hthrow TypeError
        | Some chunks =>
            do* ourScript :=
              alloc (OBuffer (compile
                (List.filter (fun x => negb (is_OP_CODESEPARATOR x)) chunks))) in
            do* txTmp := clone this in
            do* continue := signedOutputs this txTmp inIndex hashType in
            if continue then
              signedInputs txTmp inIndex hashType ourScript ;;;
              serializeAndHash txTmp hashType
            else hret (ONE g)
        end).

End Methods.

(** Building a store: the module constants, then a transaction with a
    buffer of its own per hash and per script. *)
Definition storeGlobals : H globals :=
  do* emptyScript := alloc (OBuffer Transaction.EMPTY_SCRIPT) in
  do* one := alloc (OBuffer Transaction.ONE) in
  do* valueMax := alloc (OBuffer Transaction.VALUE_UINT64_MAX) in
  do* blank := alloc (OOutput emptyScript None (Some valueMax)) in
  hret (mkGlobals emptyScript one valueMax blank).

Definition storeInput (txIn : Transaction.Input) : H loc :=
  do* hash := alloc (OBuffer (Transaction.hash txIn)) in
  do* script := alloc (OBuffer (Transaction.script txIn)) in
  alloc (OInput hash (Transaction.index txIn) script
           (Transaction.sequence txIn)).

Definition storeOutput (txOut : Transaction.Output) : H loc :=
  do* script := alloc (OBuffer (Transaction.out_script txOut)) in
  match Transaction.valueBuffer txOut with
  | Some b =>
      do* valueBuffer := alloc (OBuffer b) in
      alloc (OOutput script (Transaction.value txOut) (Some valueBuffer))
  | None => alloc (OOutput script (Transaction.value txOut) None)
  end.

Definition storeTransaction (tx : Transaction.t) : H loc :=
  do* ins := mapH storeInput (Transaction.ins tx) in
  do* insArray := alloc (OArray ins) in
  do* outs := mapH storeOutput (Transaction.outs tx) in
  do* outsArray := alloc (OArray outs) in
  alloc (OTransaction (Transaction.version tx) (Transaction.time tx)
           (Transaction.locktime tx) insArray outsArray).

(** [h'] holds every object of [h], unchanged. *)
Definition unchanged (h h' : heap) : Prop :=
  forall (l : loc) (o : object), h !! l = Some o -> h' !! l = Some o.

(** What [clone] establishes and the steps after it maintain: the clone,
    its two arrays and its inputs are objects that the store [h0] of the
    caller does not have. *)
Definition cloneInv (h0 h : heap) (txTmp : loc) : Prop :=
  h0 ⊆ h /\
  h0 !! txTmp = None /\
  exists version time locktime ins outs elems,
    h !! txTmp = Some (OTransaction version time locktime ins outs) /\
    h !! ins = Some (OArray elems) /\
    h0 !! ins = None /\
    h0 !! outs = None /\
    ins <> outs /\
    Forall (fun input => h0 !! input = None) elems.

End Heap.

(** ** The wire format and the data model, as the specification words them *)

Module Wire.

(** [CompactSize(len) + bytes]. *)
Definition varSlice (s : bytes) : bytes := varuint.encode (length s) ++ s.

(** [prevHash(32B) | prevIndex(u32 LE) | CompactSize(len)+unlockScript |
    sequence(u32 LE)]. *)
Definition input (txIn : Transaction.Input) : bytes :=
  Transaction.hash txIn ++ le_bytes 4 (Transaction.index txIn) ++
  varSlice (Transaction.script txIn) ++
  le_bytes 4 (Transaction.sequence txIn).

(** [value(u64 LE) | CompactSize(len)+lockScript]; the placeholder of the
    signature hash carries its eight value bytes ready-made. *)
Definition output (txOut : Transaction.Output) : bytes :=
  match Transaction.value txOut with
  | Some v => le_bytes 8 v
  | None => default [] (Transaction.valueBuffer txOut)
  end ++ varSlice (Transaction.out_script txOut).

(** [version(i32 LE) | time(u32 or u64 LE per version) |
    CompactSize(inputCount) | inputs... | CompactSize(outputCount) |
    outputs... | locktime(u32 LE)]. *)
Definition transaction (tx : Transaction.t) : bytes :=
  le_bytes 4 (Transaction.version tx) ++
  le_bytes (if 2 <=? Transaction.version tx then 8 else 4)
    (Transaction.time tx) ++
  varuint.encode (length (Transaction.ins tx)) ++
  concat (map input (Transaction.ins tx)) ++
  varuint.encode (length (Transaction.outs tx)) ++
  concat (map output (Transaction.outs tx)) ++
  le_bytes 4 (Transaction.locktime tx).

(** [version(i32 LE) | prevHash(32B) | merkleRoot(32B) | timestamp(u32 LE) |
    bits(u32 LE) | nonce(u32 LE)]. *)
Definition header (block : Block.t) : bytes :=
  le_bytes 4 (Block.version block) ++
  default [] (Block.prevHash block) ++
  default [] (Block.merkleRoot block) ++
  le_bytes 4 (Block.timestamp block) ++
  le_bytes 4 (Block.bits block) ++
  le_bytes 4 (Block.nonce block).

(** A full block appends [CompactSize(txCount) | transactions...]. *)
Definition block (b : Block.t) : bytes :=
  header b ++
  match Block.transactions b with
  | Some txs => varuint.encode (length txs) ++ concat (map transaction txs)
  | None => []
  end.

End Wire.

Module WellFormed.

Definition int32 (z : Z) : bool := (- 2 ^ 31 <=? z) && (z <? 2 ^ 31).
Definition uint32 (z : Z) : bool := (0 <=? z) && (z <? 2 ^ 32).
Definition uint64 (z : Z) : bool := (0 <=? z) && (z <? 2 ^ 64).

(** A count or length that CompactSize carries and reads back. *)
Definition count (n : nat) : bool := Z.of_nat n <=? MAX_SAFE_INTEGER.

(** What the cursor can write: every number fits its field, a hash has 32
    bytes, a placeholder value has 8. *)
Definition writableInput (txIn : Transaction.Input) : bool :=
  (length (Transaction.hash txIn) =? 32)%nat
  && uint32 (Transaction.index txIn)
  && uint32 (Transaction.sequence txIn).

Definition writableOutput (txOut : Transaction.Output) : bool :=
  match Transaction.value txOut, Transaction.valueBuffer txOut with
  | Some v, _ => uint64 v
  | None, Some b => (length b =? 8)%nat
  | None, None => false
  end.

Definition writable (tx : Transaction.t) : bool :=
  int32 (Transaction.version tx)
  && (if 2 <=? Transaction.version tx then uint64 (Transaction.time tx)
      else uint32 (Transaction.time tx))
  && uint32 (Transaction.locktime tx)
  && forallb writableInput (Transaction.ins tx)
  && forallb writableOutput (Transaction.outs tx).

(** The transactions of the data model: writable, every output with a value
    and no placeholder, every count and length within CompactSize. *)
Definition input (txIn : Transaction.Input) : bool :=
  writableInput txIn && count (length (Transaction.script txIn)).

Definition output (txOut : Transaction.Output) : bool :=
  match Transaction.value txOut, Transaction.valueBuffer txOut with
  | Some v, None =>
      uint64 v && count (length (Transaction.out_script txOut))
  | _, _ => false
  end.

Definition transaction (tx : Transaction.t) : bool :=
  int32 (Transaction.version tx)
  && (if 2 <=? Transaction.version tx then uint64 (Transaction.time tx)
      else uint32 (Transaction.time tx))
  && uint32 (Transaction.locktime tx)
  && forallb input (Transaction.ins tx)
  && forallb output (Transaction.outs tx)
  && count (length (Transaction.ins tx))
  && count (length (Transaction.outs tx)).

Definition header (b : Block.t) : bool :=
  int32 (Block.version b)
  && from_option (fun h => (length h =? 32)%nat) false (Block.prevHash b)
  && from_option (fun h => (length h =? 32)%nat) false (Block.merkleRoot b)
  && uint32 (Block.timestamp b)
  && uint32 (Block.bits b)
  && uint32 (Block.nonce b).

(** A block as [fromBuffer] builds it: no witness commitment, and either no
    transaction list or a list of well-formed transactions. *)
Definition block (b : Block.t) : bool :=
  header b
  && from_option (fun _ => false) true (Block.witnessCommit b)
  && from_option
       (fun txs => forallb transaction txs && count (length txs))
       true (Block.transactions b).

End WellFormed.

Module Spec.

Section Merkle.

Context (digestFn : bytes -> bytes).

(** One level up: adjacent nodes left to right, the last one with itself
    when it has no partner. *)
Fixpoint pairs (level : list bytes) : list bytes :=
  match level with
  | [] => []
  | [x] => [digestFn (x ++ x)]
  | x :: y :: rest => digestFn (x ++ y) :: pairs rest
  end.

(** Levels until one node remains. *)
Fixpoint root (fuel : nat) (level : list bytes) : option bytes :=
  match level with
  | [] => None
  | [r] => Some r
  | _ =>
      match fuel with
      | O => None
      | S fuel' => root fuel' (pairs level)
      end
  end.

Definition merkleRoot (leaves : list bytes) : option bytes :=
  root (length leaves) leaves.

End Merkle.

(** The identifier hash of a transaction: 32 zero bytes for a coinbase, the
    double hash of the serialization otherwise. *)
Definition identifierHash (sha256 : bytes -> bytes) (tx : Transaction.t)
    : bytes :=
  match Transaction.isCoinbase tx with
  | Ok true => replicate 32 x00
  | _ => bcrypto.hash256 sha256 (Wire.transaction tx)
  end.

(** The compact target: the top byte of [bits] counts the bytes of the
    number, the low 23 bits are its three leading bytes. *)
Definition exponent (bits : Z) : Z := bits / 2 ^ 24.
Definition mantissa (bits : Z) : Z := bits mod 2 ^ 23.

Definition target (bits : Z) : bytes :=
  replicate (Z.to_nat (29 - (exponent bits - 3))) x00 ++
  be_bytes 3 (mantissa bits) ++
  replicate (Z.to_nat (exponent bits - 3)) x00.

(** Two blocks with the same six header fields. *)
Definition sameHeader (b b' : Block.t) : Prop :=
  Block.version b = Block.version b' /\
  Block.prevHash b = Block.prevHash b' /\
  Block.merkleRoot b = Block.merkleRoot b' /\
  Block.timestamp b = Block.timestamp b' /\
  Block.bits b = Block.bits b' /\
  Block.nonce b = Block.nonce b'.

(** The clone that the signature hash serializes, as the specification
    words it. Outputs: none for NONE; for SINGLE the list cut after output
    [i], with a blank placeholder (empty lock script, all-ones 64-bit value)
    for every output before [i]; untouched otherwise. Inputs: with the "any
    one can pay" bit the single input [i], otherwise all of them; input [i]
    carries the stripped previous lock script and every other input an empty
    script; for NONE and SINGLE every input except [i] has sequence 0. *)
Definition blank : Transaction.Output :=
  Transaction.mkOutput [] None (Some (replicate 8 xff)).

Definition sighashOutputs (outs : list Transaction.Output) (i : nat)
    (hashType : Z) : list Transaction.Output :=
  if Z.land hashType 31 =? 2 then []
  else if Z.land hashType 31 =? 3 then replicate i blank ++ take 1 (drop i outs)
  else outs.

Definition sighashInput (i : nat) (hashType : Z) (script : bytes) (j : nat)
    (txIn : Transaction.Input) : Transaction.Input :=
  Transaction.mkInput (Transaction.hash txIn) (Transaction.index txIn)
    (if (j =? i)%nat then script else [])
    (if (j =? i)%nat
        || negb ((Z.land hashType 31 =? 2) || (Z.land hashType 31 =? 3))
     then Transaction.sequence txIn else 0).

Definition sighashInputs (ins : list Transaction.Input) (i : nat)
    (hashType : Z) (script : bytes) : list Transaction.Input :=
  if Z.land hashType 128 =? 0 then imap (sighashInput i hashType script) ins
  else match ins !! i with
       | Some txIn => [sighashInput i hashType script i txIn]
       | None => []
       end.

Definition mutatedClone (tx : Transaction.t) (i : nat) (script : bytes)
    (hashType : Z) : Transaction.t :=
  Transaction.mk (Transaction.version tx) (Transaction.time tx)
    (Transaction.locktime tx)
    (sighashInputs (Transaction.ins tx) i hashType script)
    (sighashOutputs (Transaction.outs tx) i hashType).

End Spec.

(** ** What a cursor computation writes or reads *)

Module Cursor.

(** [m] appends exactly [data] at the cursor, and fails only for lack of
    room. *)
Definition emits (m : M BufferWriter.t unit) (data : bytes) : Prop :=
  forall w : BufferWriter.t,
    (BufferWriter.offset w <= length (BufferWriter.buffer w))%nat ->
    m w =
    if (length (BufferWriter.buffer w)
        <? BufferWriter.offset w + length data)%nat
    then Err OutOfBounds
    else Ok (tt, BufferWriter.mk
                   (splice (BufferWriter.buffer w) (BufferWriter.offset w) data)
                   (BufferWriter.offset w + length data)).

(** [m] never changes the size of the buffer it writes into. *)
Definition keepsLength {A} (m : M BufferWriter.t A) : Prop :=
  forall (w w' : BufferWriter.t) (a : A),
    m w = Ok (a, w') ->
    length (BufferWriter.buffer w') = length (BufferWriter.buffer w).

(** The cursor [r] stands in front of [data]. *)
Definition before (r : BufferReader.t) (data : bytes) : Prop :=
  (BufferReader.offset r <= length (BufferReader.buffer r))%nat /\
  drop (BufferReader.offset r) (BufferReader.buffer r) = data.

Definition advance (r : BufferReader.t) (n : nat) : BufferReader.t :=
  BufferReader.mk (BufferReader.buffer r) (BufferReader.offset r + n).

(** In front of [enc], [m] consumes [enc] and answers [v]. *)
Definition reads {A} (m : M BufferReader.t A) (enc : bytes) (v : A) : Prop :=
  forall (r : BufferReader.t) (rest : bytes),
    before r (enc ++ rest) -> m r = Ok (v, advance r (length enc)).

(** The same buffer with [extra] bytes behind it. *)
Definition extend (r : BufferReader.t) (extra : bytes) : BufferReader.t :=
  BufferReader.mk (BufferReader.buffer r ++ extra) (BufferReader.offset r).

(** A successful [m] stays within the buffer, moves forward only, and does
    the same whatever follows the buffer. *)
Definition local {A} (m : M BufferReader.t A) : Prop :=
  forall (r r' : BufferReader.t) (a : A),
    (BufferReader.offset r <= length (BufferReader.buffer r))%nat ->
    m r = Ok (a, r') ->
    BufferReader.buffer r' = BufferReader.buffer r /\
    (BufferReader.offset r <= BufferReader.offset r')%nat /\
    (BufferReader.offset r' <= length (BufferReader.buffer r))%nat /\
    forall extra, m (extend r extra) = Ok (a, extend r' extra).

(** Whatever a successful [m] answers satisfies [P]. *)
Definition yields {A} (m : M BufferReader.t A) (P : A -> Prop) : Prop :=
  forall (r r' : BufferReader.t) (a : A), m r = Ok (a, r') -> P a.

(** A successful [m] consumes at least [size a] bytes for its answer [a]. *)
Definition measures {A} (m : M BufferReader.t A) (size : A -> nat) : Prop :=
  forall (r r' : BufferReader.t) (a : A),
    m r = Ok (a, r') ->
    (BufferReader.offset r + size a <= BufferReader.offset r')%nat.

(** What [m] does on a buffer cut short, told from a successful run on the
    whole buffer: the same, when that run stayed within the part that is
    left, and an out-of-bounds failure when it went past it. *)
Definition truncates {A} (m : M BufferReader.t A) : Prop :=
  forall (r r' : BufferReader.t) (extra : bytes) (a : A),
    (BufferReader.offset r <= length (BufferReader.buffer r ++ extra))%nat ->
    m (extend r extra) = Ok (a, r') ->
    BufferReader.buffer r' = BufferReader.buffer r ++ extra /\
    (BufferReader.offset r <= BufferReader.offset r'
     <= length (BufferReader.buffer r ++ extra))%nat /\
    ((BufferReader.offset r <= length (BufferReader.buffer r))%nat ->
     m r =
     if (length (BufferReader.buffer r) <? BufferReader.offset r')%nat
     then Err OutOfBounds
     else Ok (a, BufferReader.mk (BufferReader.buffer r)
                   (BufferReader.offset r'))).

End Cursor.

(** ** SHA-256

    The digest of the ledger family (FIPS 180-4), to run the definitions on
    concrete transactions and blocks. The theorems hold for every digest
    and take it as a parameter. *)

Module SHA256.

(** The constants are the first 32 bits of the fractional parts of the cube
    roots (round constants) and square roots (initial state) of the first
    primes; they are computed here instead of tabulated. *)

Definition isPrime (n : Z) : bool :=
  (1 <? n) &&
  forallb (fun d => negb (n mod d =? 0))
          (map Z.of_nat (seq 2 (Z.to_nat (Z.sqrt n) - 1))).

Definition primes (count : nat) : list Z :=
  firstn count (filter isPrime (map Z.of_nat (seq 2 320))).

Definition cbrt (n : Z) : Z :=
  fold_left
    (fun r b => let r' := r + 2 ^ Z.of_nat b in
                if r' * r' * r' <=? n then r' else r)
    (rev (seq 0 40)) 0.

Definition K : list Z :=
  Eval vm_compute in
    map (fun p => cbrt (p * 2 ^ 96) mod 2 ^ 32) (primes 64).

Definition H0 : list Z :=
  Eval vm_compute in
    map (fun p => Z.sqrt (p * 2 ^ 64) mod 2 ^ 32) (primes 8).

Definition mask32 (x : Z) : Z := x mod 2 ^ 32.

Definition rotr (n x : Z) : Z :=
  Z.lor (Z.shiftr x n) (mask32 (Z.shiftl x (32 - n))).

Definition Ch (x y z : Z) : Z :=
  Z.lxor (Z.land x y) (Z.land (mask32 (Z.lnot x)) z).

Definition Maj (x y z : Z) : Z :=
  Z.lxor (Z.lxor (Z.land x y) (Z.land x z)) (Z.land y z).

Definition Sigma0 (x : Z) : Z :=
  Z.lxor (Z.lxor (rotr 2 x) (rotr 13 x)) (rotr 22 x).

Definition Sigma1 (x : Z) : Z :=
  Z.lxor (Z.lxor (rotr 6 x) (rotr 11 x)) (rotr 25 x).

Definition sigma0 (x : Z) : Z :=
  Z.lxor (Z.lxor (rotr 7 x) (rotr 18 x)) (Z.shiftr x 3).

Definition sigma1 (x : Z) : Z :=
  Z.lxor (Z.lxor (rotr 17 x) (rotr 19 x)) (Z.shiftr x 10).

(** The message, a 0x80 byte, zero bytes up to 56 modulo 64, and the bit
    length in eight big-endian bytes. *)
Definition pad (msg : bytes) : bytes :=
  let l := length msg in
  msg ++ [x80] ++ replicate ((64 - (l + 9) mod 64) mod 64)%nat x00 ++
  be_bytes 8 (8 * Z.of_nat l).

Fixpoint words (n : nat) (b : bytes) : list Z :=
  match n with
  | O => []
  | S n' => be_value (take 4 b) :: words n' (drop 4 b)
  end.

(** [n] more words of the message schedule behind the words [w]. *)
Fixpoint schedule (n : nat) (w : list Z) : list Z :=
  match n with
  | O => w
  | S n' =>
      let back i := nth (length w - i) w 0 in
      schedule n'
        (w ++ [mask32 (sigma1 (back 2%nat) + back 7%nat
                       + sigma0 (back 15%nat) + back 16%nat)])
  end.

Definition round (s : list Z) (kw : Z * Z) : list Z :=
  match s with
  | [a; b; c; d; e; f; g; h] =>
      let t1 := mask32 (h + Sigma1 e + Ch e f g + fst kw + snd kw) in
      let t2 := mask32 (Sigma0 a + Maj a b c) in
      [mask32 (t1 + t2); a; b; c; mask32 (d + t1); e; f; g]
  | _ => s
  end.

Definition compress (h : list Z) (block : bytes) : list Z :=
  let w := schedule 48 (words 16 block) in
  let s := fold_left round (combine K w) h in
  map (fun p => mask32 (fst p + snd p)) (combine h s).

Fixpoint blocks (n : nat) (h : list Z) (m : bytes) : list Z :=
  match n with
  | O => h
  | S n' => blocks n' (compress h (take 64 m)) (drop 64 m)
  end.

Definition sha256 (msg : bytes) : bytes :=
  let m := pad msg in
  flat_map (be_bytes 4) (blocks (length m / 64) H0 m).

End SHA256.

(** ** Concrete values to run the definitions on *)

Module Example.

Open Scope string_scope.

(** What unwritten memory holds, for a run. *)
Definition junk : nat -> byte := fun _ => xaa.

Definition digest : bytes -> bytes := SHA256.sha256.

(** A stand-in script codec for a run: every byte is a one-byte opcode. *)
Definition decompile (s : bytes) : option (list chunk) :=
  Some (map (fun b => Op (Z_of_byte b)) s).

Definition compile (cs : list chunk) : bytes :=
  flat_map (fun c => match c with
                     | Op code => [byte_of_Z code]
                     | Data d => d
                     end) cs.

Definition input0 : Transaction.Input :=
  Transaction.mkInput (replicate 32 x11) 0 [x51] 4294967295.

Definition input1 : Transaction.Input :=
  Transaction.mkInput (replicate 32 x22) 1 [x52; x53] 7.

Definition output0 : Transaction.Output :=
  Transaction.mkOutput [x76; xa9] (Some 5000) None.

Definition output1 : Transaction.Output :=
  Transaction.mkOutput [x6a] (Some 0) None.

Definition tx : Transaction.t :=
  Transaction.mk 1 1645861266 0 [input0; input1] [output0; output1].

(** The transaction of [test.ts]. *)
Definition coinbaseHex : string :=
  "0200000092d9196200000000010000000000000000000000000000000000000000000000000000000000000000ffffffff0d03e4ea1c0143062f503253482fffffffff01a7a74e0000000000232102e28d69eae6b64223d01f14f93d6f471962cd4d84dd88b9d7e4ee00ee30e7dc2dac00000000".

Definition coinbase : Transaction.t :=
  Transaction.mk 2 1645861266 0
    [Transaction.mkInput (replicate 32 x00) 4294967295
       (fromHexString "03e4ea1c0143062f503253482f") 4294967295]
    [Transaction.mkOutput
       (fromHexString
          "2102e28d69eae6b64223d01f14f93d6f471962cd4d84dd88b9d7e4ee00ee30e7dc2dac")
       (Some 5154727) None].

(** Version 1, time 0, no input, no output, locktime 0, with the input
    count written in three bytes ([fd 00 00]) instead of one. *)
Definition nonMinimal : bytes :=
  fromHexString "0100000000000000fd00000000000000".

Definition empty : Transaction.t := Transaction.mk 1 0 0 [] [].

Definition header : Block.t :=
  Block.mk 1 (Some (replicate 32 x00)) (Some (replicate 32 x33))
    1645861266 None 486604799 7 None.

Definition block : Block.t :=
  Block.mk 1 (Some (replicate 32 x00)) (Some (replicate 32 x33))
    1645861266 None 486604799 7 (Some [coinbase; tx]).

(** The same header with the easiest target of the format, [0x207fffff]. *)
Definition easy : Block.t :=
  Block.mk 1 (Some (replicate 32 x00)) (Some (replicate 32 x33))
    1645861266 None 545259519 7 None.

(** The same header with [bits = 0x2100ffff], the compact form of
    [0xffff * 256 ^ 30] with a leading zero byte in the mantissa. *)
Definition wideTarget : Block.t :=
  Block.mk 1 (Some (replicate 32 x00)) (Some (replicate 32 x33))
    1645861266 None 553713663 7 None.

(** A transaction with more inputs than outputs. *)
Definition twoToOne : Transaction.t :=
  Transaction.mk 1 1645861266 0 [input0; input1] [output0].

(** A script codec for a run that knows the direct pushes of the script
    language: a byte from 0x01 to 0x4b announces that many bytes of data,
    and a script that ends before them is not decompiled. *)
Fixpoint decompilePushes (fuel : nat) (s : bytes) : option (list chunk) :=
  match fuel, s with
  | _, [] => Some []
  | O, _ :: _ => None
  | S fuel', op :: rest =>
      let n := Z.to_nat (Z_of_byte op) in
      if ((0 <? Z_of_byte op) && (Z_of_byte op <=? 75))%Z then
        if (length rest <? n)%nat then None
        else option_map (cons (Data (take n rest)))
               (decompilePushes fuel' (drop n rest))
      else option_map (cons (Op (Z_of_byte op))) (decompilePushes fuel' rest)
  end.

Definition pushDecompile (s : bytes) : option (list chunk) :=
  decompilePushes (length s) s.

(** An amount check for a run: at most 21 * 10^14 units. *)
Definition Satoshi (n : Z) : bool :=
  ((0 <=? n) && (n <=? 2100000000000000))%Z.

(** The store after creating the constants, [tx], and a previous output
    script with an OP_CODESEPARATOR in it. *)
Definition stored : result (Heap.globals * positive * positive) * Heap.heap :=
  Heap.hbind Heap.storeGlobals (fun g =>
    Heap.hbind (Heap.storeTransaction tx) (fun this =>
      Heap.hbind (Heap.alloc (Heap.OBuffer [x51; xab; xac])) (fun prevOut =>
        Heap.hret (g, this, prevOut)))) ∅.

Definition heap : Heap.heap := stored.2.

Definition globals : Heap.globals :=
  match stored.1 with
  | Ok (g, _, _) => g
  | Err _ => Heap.mkGlobals 1 1 1 1
  end.

Definition this : positive :=
  match stored.1 with
  | Ok (_, this, _) => this
  | Err _ => 1%positive
  end.

Definition prevOut : positive :=
  match stored.1 with
  | Ok (_, _, prevOut) => prevOut
  | Err _ => 1%positive
  end.

(** [prevOutScript] as a value. *)
Definition prevOutScript : bytes := [x51; xab; xac].

(** The store after [clone()] on [this], and the clone. *)
Definition cloned : result positive * Heap.heap := Heap.clone this heap.

Definition txTmp : positive :=
  match cloned.1 with
  | Ok l => l
  | Err _ => 1%positive
  end.

(** The first element of the array at [l], and the script of the input at
    [l]. *)
Definition firstOf (h : Heap.heap) (l : positive) : option positive :=
  match h !! l with
  | Some (Heap.OArray (x :: _)) => Some x
  | _ => None
  end.

Definition insOf (h : Heap.heap) (l : positive) : option positive :=
  match h !! l with
  | Some (Heap.OTransaction _ _ _ ins _) => Some ins
  | _ => None
  end.

Definition scriptOf (h : Heap.heap) (l : positive) : option positive :=
  match h !! l with
  | Some (Heap.OInput _ _ script _) => Some script
  | _ => None
  end.

End Example.

(** * Properties *)

(** ** Bytes and little-endian integers *)

Lemma Z_of_byte_range (b : byte) : 0 <= Z_of_byte b < 256.
Proof.
  unfold Z_of_byte. pose proof (Byte.to_N_bounded b) as Hb.
  lia.
Qed.

Lemma byte_of_Z_of_byte (b : byte) : byte_of_Z (Z_of_byte b) = b.
Proof.
  unfold byte_of_Z. rewrite Z.mod_small by apply Z_of_byte_range.
  unfold Z_of_byte. rewrite N2Z.id, Byte.of_to_N. reflexivity.
Qed.

Lemma Z_of_byte_of_Z (z : Z) : Z_of_byte (byte_of_Z z) = z mod 256.
Proof.
  unfold byte_of_Z, Z_of_byte.
  pose proof (Z.mod_pos_bound z 256 ltac:(lia)) as Hm.
  destruct (Byte.of_N (Z.to_N (z mod 256))) as [b|] eqn:E.
  - apply Byte.to_of_N in E. simpl. rewrite E. lia.
  - apply Byte.of_N_None_iff in E. lia.
Qed.

Lemma length_le_bytes (n : nat) (z : Z) : length (le_bytes n z) = n.
Proof. revert z. induction n as [|n IH]; intros z; simpl; [|rewrite IH]; reflexivity. Qed.

Lemma le_value_range (bs : bytes) : 0 <= le_value bs < 256 ^ Z.of_nat (length bs).
Proof.
  induction bs as [|b bs IH]; simpl length; simpl le_value.
  - simpl. lia.
  - pose proof (Z_of_byte_range b).
    rewrite Nat2Z.inj_succ, Z.pow_succ_r by lia. lia.
Qed.

Lemma le_value_le_bytes (n : nat) (z : Z) :
  le_value (le_bytes n z) = z mod 256 ^ Z.of_nat n.
Proof.
  revert z. induction n as [|n IH]; intros z.
  - simpl. rewrite Z.mod_1_r. reflexivity.
  - cbn [le_bytes le_value]. rewrite IH, Z_of_byte_of_Z.
    rewrite Nat2Z.inj_succ, Z.pow_succ_r by lia.
    rewrite Z.rem_mul_r by lia. reflexivity.
Qed.

Lemma byte_of_Z_mod (z : Z) : byte_of_Z (z mod 256) = byte_of_Z z.
Proof. unfold byte_of_Z. rewrite Z.mod_mod by lia. reflexivity. Qed.

Lemma byte_of_Z_cons (b : byte) (k : Z) : byte_of_Z (Z_of_byte b + 256 * k) = b.
Proof.
  pose proof (Z_of_byte_range b) as Hb.
  rewrite <- byte_of_Z_mod.
  rewrite (Z.mul_comm 256), Z.mod_add by lia.
  rewrite Z.mod_small by lia. apply byte_of_Z_of_byte.
Qed.

Lemma le_bytes_le_value (bs : bytes) : le_bytes (length bs) (le_value bs) = bs.
Proof.
  induction bs as [|b bs IH]; [reflexivity|].
  cbn [length le_bytes le_value].
  pose proof (Z_of_byte_range b) as Hb.
  rewrite byte_of_Z_cons. f_equal.
  transitivity (le_bytes (length bs) (le_value bs)); [|exact IH]. f_equal.
  rewrite (Z.mul_comm 256), Z.div_add by lia.
  rewrite Z.div_small by lia. lia.
Qed.

Lemma le_value_le_bytes_small (n : nat) (z : Z) :
  0 <= z < 256 ^ Z.of_nat n -> le_value (le_bytes n z) = z.
Proof. intros H. rewrite le_value_le_bytes. apply Z.mod_small, H. Qed.

(** ** Splicing *)

Lemma length_splice (b : bytes) (o : nat) (d : bytes) :
  (o + length d <= length b)%nat -> length (splice b o d) = length b.
Proof.
  intros H. unfold splice.
  rewrite !length_app, length_take, length_drop. lia.
Qed.

Lemma splice_nil (b : bytes) (o : nat) : splice b o [] = b.
Proof.
  unfold splice. simpl. rewrite Nat.add_0_r. apply take_drop.
Qed.

Lemma splice_app (b : bytes) (o : nat) (d1 d2 : bytes) :
  (o + length d1 + length d2 <= length b)%nat ->
  splice (splice b o d1) (o + length d1) d2 = splice b o (d1 ++ d2).
Proof.
  intros H. unfold splice.
  assert (Ht : length (take o b) = o) by (rewrite length_take; lia).
  rewrite (app_assoc (take o b) d1).
  rewrite take_app_length' by (rewrite length_app; lia).
  rewrite drop_app_ge by (rewrite length_app; lia).
  rewrite length_app, Ht, drop_drop, length_app.
  rewrite <- !app_assoc. do 4 f_equal. lia.
Qed.

Lemma splice_all (b d : bytes) : length d = length b -> splice b 0 d = d.
Proof.
  intros H. unfold splice. simpl.
  rewrite drop_ge by lia. apply app_nil_r.
Qed.

(** ** The writing cursor *)

Section Writer.

Import Cursor.

Lemma emits_ret : emits (ret tt) [].
Proof.
  intros w Hw. unfold ret. simpl length. rewrite Nat.add_0_r.
  destruct (Nat.ltb_spec (length (BufferWriter.buffer w)) (BufferWriter.offset w)); [lia|].
  rewrite splice_nil. destruct w; reflexivity.
Qed.

Lemma emits_bind (m1 m2 : M BufferWriter.t unit) (d1 d2 : bytes) :
  emits m1 d1 -> emits m2 d2 -> emits (m1 ;; m2) (d1 ++ d2).
Proof.
  intros H1 H2 w Hw. unfold bind. rewrite (H1 w Hw), length_app.
  destruct (Nat.ltb_spec (length (BufferWriter.buffer w))
              (BufferWriter.offset w + length d1)) as [Hlt|Hge].
  - destruct (Nat.ltb_spec (length (BufferWriter.buffer w))
                (BufferWriter.offset w + (length d1 + length d2))); [reflexivity|lia].
  - rewrite H2; cbn [BufferWriter.buffer BufferWriter.offset];
      rewrite length_splice by lia; [|lia].
    destruct (Nat.ltb_spec (length (BufferWriter.buffer w))
                (BufferWriter.offset w + length d1 + length d2)) as [Hlt2|Hge2];
    destruct (Nat.ltb_spec (length (BufferWriter.buffer w))
                (BufferWriter.offset w + (length d1 + length d2))); try lia; [reflexivity|].
    rewrite splice_app by lia. do 3 f_equal. lia.
Qed.

Lemma emits_writeSlice (s : bytes) : emits (BufferWriter.writeSlice s) s.
Proof. intros w _. reflexivity. Qed.

Lemma emits_writeInt32 (i : Z) :
  WellFormed.int32 i = true -> emits (BufferWriter.writeInt32 i) (le_bytes 4 i).
Proof.
  intros H. unfold BufferWriter.writeInt32. unfold WellFormed.int32 in H.
  rewrite H. apply emits_writeSlice.
Qed.

Lemma emits_writeUInt32 (i : Z) :
  WellFormed.uint32 i = true -> emits (BufferWriter.writeUInt32 i) (le_bytes 4 i).
Proof.
  intros H. unfold BufferWriter.writeUInt32. unfold WellFormed.uint32 in H.
  rewrite H. apply emits_writeSlice.
Qed.

Lemma emits_writeUInt64 (i : Z) :
  WellFormed.uint64 i = true -> emits (BufferWriter.writeUInt64 i) (le_bytes 8 i).
Proof.
  intros H. unfold BufferWriter.writeUInt64. unfold WellFormed.uint64 in H.
  rewrite H. apply emits_writeSlice.
Qed.

Lemma emits_writeVarInt (n : nat) :
  emits (BufferWriter.writeVarInt n) (varuint.encode n).
Proof. apply emits_writeSlice. Qed.

Lemma emits_writeVarSlice (s : bytes) :
  emits (BufferWriter.writeVarSlice s) (Wire.varSlice s).
Proof. apply emits_bind; [apply emits_writeVarInt|apply emits_writeSlice]. Qed.

Lemma emits_forEach {A} (f : A -> M BufferWriter.t unit) (enc : A -> bytes)
    (l : list A) :
  Forall (fun x => emits (f x) (enc x)) l ->
  emits (forEach f l) (concat (map enc l)).
Proof.
  induction 1 as [|x l Hx _ IH]; simpl.
  - apply emits_ret.
  - apply emits_bind; assumption.
Qed.

Lemma keepsLength_ret {A} (a : A) : keepsLength (ret a).
Proof. intros w w' a' [= _ <-]. reflexivity. Qed.

Lemma keepsLength_throw {A} (e : error) : keepsLength (@throw _ A e).
Proof. intros w w' a' [=]. Qed.

Lemma keepsLength_bind {A B} (m : M BufferWriter.t A)
    (k : A -> M BufferWriter.t B) :
  keepsLength m -> (forall a, keepsLength (k a)) -> keepsLength (bind m k).
Proof.
  intros Hm Hk w w' b. unfold bind.
  destruct (m w) as [[a w1]|e] eqn:E; [|discriminate].
  intros Hb. rewrite (Hk a _ _ _ Hb). eapply Hm, E.
Qed.

Lemma keepsLength_writeSlice (s : bytes) : keepsLength (BufferWriter.writeSlice s).
Proof.
  intros w w' a. unfold BufferWriter.writeSlice.
  destruct (Nat.ltb_spec (length (BufferWriter.buffer w))
              (BufferWriter.offset w + length s)); [discriminate|].
  intros [= _ <-]. simpl. apply length_splice. lia.
Qed.

Lemma keepsLength_forEach {A} (f : A -> M BufferWriter.t unit) (l : list A) :
  (forall x, keepsLength (f x)) -> keepsLength (forEach f l).
Proof.
  intros Hf. induction l as [|x l IH]; simpl.
  - apply keepsLength_ret.
  - apply keepsLength_bind; [apply Hf|intros _; apply IH].
Qed.

End Writer.

(** ** Transaction: size and serialization *)

Section TransactionWriter.

Import Cursor.

Lemma length_encode (n : nat) :
  length (varuint.encode n) = varuint.encodingLength n.
Proof.
  unfold varuint.encode, varuint.encodingLength.
  repeat match goal with |- context [if ?c then _ else _] => destruct c end;
    simpl length; rewrite ?length_le_bytes; reflexivity.
Qed.

Lemma length_varSlice (s : bytes) :
  length (Wire.varSlice s) = Transaction.varSliceSize s.
Proof.
  unfold Wire.varSlice, Transaction.varSliceSize.
  rewrite length_app, length_encode. reflexivity.
Qed.

Lemma length_wire_input (txIn : Transaction.Input) :
  WellFormed.writableInput txIn = true ->
  length (Wire.input txIn) = (40 + Transaction.varSliceSize (Transaction.script txIn))%nat.
Proof.
  unfold WellFormed.writableInput. rewrite !andb_true_iff, Nat.eqb_eq.
  intros [[Hh _] _]. unfold Wire.input.
  rewrite !length_app, !length_le_bytes, length_varSlice, Hh. lia.
Qed.

Lemma length_wire_output (txOut : Transaction.Output) :
  WellFormed.writableOutput txOut = true ->
  length (Wire.output txOut) = (8 + Transaction.varSliceSize (Transaction.out_script txOut))%nat.
Proof.
  unfold WellFormed.writableOutput, Wire.output. intros H.
  rewrite length_app, length_varSlice. f_equal.
  destruct (Transaction.value txOut) as [v|].
  - apply length_le_bytes.
  - destruct (Transaction.valueBuffer txOut) as [b|]; [|discriminate].
    apply Nat.eqb_eq in H. exact H.
Qed.

Lemma fold_left_sizes {A} (c : nat) (f : A -> nat) (l : list A) (a : nat) :
  fold_left (fun sum x => (sum + c + f x)%nat) l a =
  (a + sum_list (map (fun x => c + f x)%nat l))%nat.
Proof.
  revert a. induction l as [|x l IH]; intros a; simpl.
  - lia.
  - rewrite IH. lia.
Qed.

Lemma length_concat_map {A} (enc : A -> bytes) (size : A -> nat) (l : list A) :
  Forall (fun x => length (enc x) = size x) l ->
  length (concat (map enc l)) = sum_list (map size l).
Proof.
  induction 1 as [|x l Hx _ IH]; simpl; [reflexivity|].
  rewrite length_app, Hx, IH. reflexivity.
Qed.

(** [byteLength()] as the sum the specification spells out. *)
Lemma byteLength_sum (tx : Transaction.t) :
  Transaction.byteLength tx =
  ((if (2 <=? Transaction.version tx)%Z then 16 else 12) +
   varuint.encodingLength (length (Transaction.ins tx)) +
   varuint.encodingLength (length (Transaction.outs tx)) +
   sum_list (map (fun txIn =>
               40 + Transaction.varSliceSize (Transaction.script txIn))
      (Transaction.ins tx)) +
   sum_list (map (fun txOut =>
               8 + Transaction.varSliceSize (Transaction.out_script txOut))
      (Transaction.outs tx)))%nat.
Proof.
  unfold Transaction.byteLength. rewrite !fold_left_sizes. simpl. reflexivity.
Qed.

Lemma length_wire_transaction (tx : Transaction.t) :
  WellFormed.writable tx = true ->
  length (Wire.transaction tx) = Transaction.byteLength tx.
Proof.
  unfold WellFormed.writable. rewrite !andb_true_iff, !forallb_forall.
  intros [[[[_ _] _] Hins] Houts].
  rewrite byteLength_sum. unfold Wire.transaction.
  rewrite !length_app, !length_le_bytes, !length_encode.
  rewrite (length_concat_map Wire.input
             (fun txIn => (40 + Transaction.varSliceSize (Transaction.script txIn))%nat)).
  2:{ apply List.Forall_forall. intros x Hx. apply length_wire_input, Hins, Hx. }
  rewrite (length_concat_map Wire.output
             (fun txOut => (8 + Transaction.varSliceSize (Transaction.out_script txOut))%nat)).
  2:{ apply List.Forall_forall. intros x Hx. apply length_wire_output, Houts, Hx. }
  destruct (2 <=? Transaction.version tx); lia.
Qed.

Lemma emits_writeInput (txIn : Transaction.Input) :
  WellFormed.writableInput txIn = true ->
  emits (Transaction.writeInput txIn) (Wire.input txIn).
Proof.
  unfold WellFormed.writableInput. rewrite !andb_true_iff.
  intros [[_ Hi] Hs]. unfold Transaction.writeInput, Wire.input.
  apply emits_bind; [apply emits_writeSlice|].
  apply emits_bind; [apply emits_writeUInt32, Hi|].
  apply emits_bind; [apply emits_writeVarSlice|].
  apply emits_writeUInt32, Hs.
Qed.

Lemma emits_writeOutput (txOut : Transaction.Output) :
  WellFormed.writableOutput txOut = true ->
  emits (Transaction.writeOutput txOut) (Wire.output txOut).
Proof.
  unfold WellFormed.writableOutput, Transaction.writeOutput, Wire.output,
    Transaction.isOutput.
  intros H. apply emits_bind; [|apply emits_writeVarSlice].
  destruct (Transaction.value txOut) as [v|].
  - apply emits_writeUInt64, H.
  - destruct (Transaction.valueBuffer txOut) as [b|]; [|discriminate].
    apply emits_writeSlice.
Qed.

Lemma emits_writeTransaction (tx : Transaction.t) :
  WellFormed.writable tx = true ->
  emits (Transaction.writeTransaction tx) (Wire.transaction tx).
Proof.
  unfold WellFormed.writable. rewrite !andb_true_iff, !forallb_forall.
  intros [[[[Hv Ht] Hl] Hins] Houts].
  unfold Transaction.writeTransaction, Wire.transaction.
  apply emits_bind; [apply emits_writeInt32, Hv|].
  apply emits_bind.
  { destruct (2 <=? Transaction.version tx);
      [apply emits_writeUInt64|apply emits_writeUInt32]; exact Ht. }
  apply emits_bind; [apply emits_writeVarInt|].
  apply emits_bind.
  { apply emits_forEach, List.Forall_forall. intros x Hx.
    apply emits_writeInput, Hins, Hx. }
  apply emits_bind; [apply emits_writeVarInt|].
  apply emits_bind.
  { apply emits_forEach, List.Forall_forall. intros x Hx.
    apply emits_writeOutput, Houts, Hx. }
  apply emits_writeUInt32, Hl.
Qed.

Lemma length_allocUnsafe (junk : nat -> byte) (n : nat) :
  length (allocUnsafe junk n) = n.
Proof. unfold allocUnsafe. rewrite length_map, length_seq. reflexivity. Qed.

(** Writing a writable transaction into any buffer with room for it. *)
Lemma toBufferAt_wire (tx : Transaction.t) (buffer : bytes) (o : nat) :
  WellFormed.writable tx = true ->
  (o + Transaction.byteLength tx <= length buffer)%nat ->
  Transaction.toBufferAt tx buffer o =
  Ok (BufferWriter.mk (splice buffer o (Wire.transaction tx))
        (o + Transaction.byteLength tx)).
Proof.
  intros Hw Hroom. unfold Transaction.toBufferAt.
  rewrite (emits_writeTransaction tx Hw) by (simpl; lia).
  cbn [BufferWriter.buffer BufferWriter.offset].
  rewrite (length_wire_transaction tx Hw).
  destruct (Nat.ltb_spec (length buffer) (o + Transaction.byteLength tx)); [lia|].
  reflexivity.
Qed.

Lemma toBuffer_wire (junk : nat -> byte) (tx : Transaction.t) :
  WellFormed.writable tx = true ->
  Transaction.toBuffer junk tx = Ok (Wire.transaction tx).
Proof.
  intros Hw. unfold Transaction.toBuffer.
  rewrite toBufferAt_wire by (rewrite ?length_allocUnsafe; auto with lia).
  cbn [BufferWriter.buffer]. rewrite splice_all; [reflexivity|].
  rewrite length_allocUnsafe. apply length_wire_transaction, Hw.
Qed.

Lemma keepsLength_writeInt32 (i : Z) : keepsLength (BufferWriter.writeInt32 i).
Proof.
  unfold BufferWriter.writeInt32.
  destruct (_ && _); auto using keepsLength_writeSlice, keepsLength_throw.
Qed.

Lemma keepsLength_writeUInt32 (i : Z) : keepsLength (BufferWriter.writeUInt32 i).
Proof.
  unfold BufferWriter.writeUInt32.
  destruct (_ && _); auto using keepsLength_writeSlice, keepsLength_throw.
Qed.

Lemma keepsLength_writeUInt64 (i : Z) : keepsLength (BufferWriter.writeUInt64 i).
Proof.
  unfold BufferWriter.writeUInt64.
  destruct (_ && _); auto using keepsLength_writeSlice, keepsLength_throw.
Qed.

Lemma keepsLength_writeVarSlice (s : bytes) :
  keepsLength (BufferWriter.writeVarSlice s).
Proof.
  apply keepsLength_bind; [|intros _]; apply keepsLength_writeSlice.
Qed.

Lemma keepsLength_writeInput (txIn : Transaction.Input) :
  keepsLength (Transaction.writeInput txIn).
Proof.
  unfold Transaction.writeInput.
  apply keepsLength_bind; [apply keepsLength_writeSlice|intros _].
  apply keepsLength_bind; [apply keepsLength_writeUInt32|intros _].
  apply keepsLength_bind; [apply keepsLength_writeVarSlice|intros _].
  apply keepsLength_writeUInt32.
Qed.

Lemma keepsLength_writeOutput (txOut : Transaction.Output) :
  keepsLength (Transaction.writeOutput txOut).
Proof.
  unfold Transaction.writeOutput.
  apply keepsLength_bind; [|intros _; apply keepsLength_writeVarSlice].
  destruct (Transaction.isOutput txOut).
  - destruct (Transaction.value txOut);
      [apply keepsLength_writeUInt64|apply keepsLength_throw].
  - destruct (Transaction.valueBuffer txOut);
      [apply keepsLength_writeSlice|apply keepsLength_throw].
Qed.

Lemma keepsLength_writeTransaction (tx : Transaction.t) :
  keepsLength (Transaction.writeTransaction tx).
Proof.
  unfold Transaction.writeTransaction.
  apply keepsLength_bind; [apply keepsLength_writeInt32|intros _].
  apply keepsLength_bind; [|intros _].
  { destruct (2 <=? Transaction.version tx);
      [apply keepsLength_writeUInt64|apply keepsLength_writeUInt32]. }
  apply keepsLength_bind; [apply keepsLength_writeSlice|intros _].
  apply keepsLength_bind;
    [apply keepsLength_forEach, keepsLength_writeInput|intros _].
  apply keepsLength_bind; [apply keepsLength_writeSlice|intros _].
  apply keepsLength_bind;
    [apply keepsLength_forEach, keepsLength_writeOutput|intros _].
  apply keepsLength_writeUInt32.
Qed.

Lemma toBuffer_length (junk : nat -> byte) (tx : Transaction.t) (bs : bytes) :
  Transaction.toBuffer junk tx = Ok bs -> length bs = Transaction.byteLength tx.
Proof.
  unfold Transaction.toBuffer, Transaction.toBufferAt.
  destruct (Transaction.writeTransaction tx _) as [[[] w]|e] eqn:E; [|discriminate].
  intros [= <-]. apply keepsLength_writeTransaction in E.
  rewrite E. simpl. apply length_allocUnsafe.
Qed.

End TransactionWriter.

(** ** The reading cursor *)

Section Reader.

Import Cursor.

Lemma advance_0 (r : BufferReader.t) : advance r 0 = r.
Proof. destruct r as [b o]. unfold advance. simpl. f_equal. lia. Qed.

Lemma advance_advance (r : BufferReader.t) (n m : nat) :
  advance (advance r n) m = advance r (n + m).
Proof. unfold advance. simpl. f_equal. lia. Qed.

Lemma before_advance (r : BufferReader.t) (enc rest : bytes) :
  before r (enc ++ rest) -> before (advance r (length enc)) rest.
Proof.
  intros [Ho Hd]. unfold before, advance. simpl.
  assert (Hl : (length (BufferReader.buffer r) - BufferReader.offset r
                = length enc + length rest)%nat).
  { rewrite <- length_drop, Hd, length_app. reflexivity. }
  split; [lia|].
  rewrite <- drop_drop, Hd. apply drop_app_length.
Qed.

Lemma before_new (data : bytes) : before (BufferReader.new data) data.
Proof. split; simpl; [lia|reflexivity]. Qed.

Lemma reads_ret {A} (v : A) : reads (ret v) [] v.
Proof. intros r rest _. unfold ret. simpl. rewrite advance_0. reflexivity. Qed.

Lemma reads_bind {A B} (m : M BufferReader.t A) (k : A -> M BufferReader.t B)
    (e1 e2 : bytes) (a : A) (b : B) :
  reads m e1 a -> reads (k a) e2 b -> reads (bind m k) (e1 ++ e2) b.
Proof.
  intros Hm Hk r rest Hr. unfold bind.
  rewrite <- app_assoc in Hr. rewrite (Hm r _ Hr).
  rewrite (Hk _ rest (before_advance _ _ _ Hr)).
  rewrite advance_advance, length_app. reflexivity.
Qed.

Lemma reads_readSlice (s : bytes) : reads (BufferReader.readSlice (length s)) s s.
Proof.
  intros r rest [Ho Hd]. unfold BufferReader.readSlice.
  assert (Hl : (length (BufferReader.buffer r) - BufferReader.offset r
                = length s + length rest)%nat).
  { rewrite <- length_drop, Hd, length_app. reflexivity. }
  destruct (Nat.ltb_spec (length (BufferReader.buffer r))
              (BufferReader.offset r + length s)); [lia|].
  unfold slice. rewrite Hd.
  replace (BufferReader.offset r + length s - BufferReader.offset r)%nat
    with (length s) by lia.
  rewrite take_app_length. reflexivity.
Qed.

Lemma reads_readUInt (n : nat) (z : Z) :
  0 <= z < 256 ^ Z.of_nat n ->
  reads (BufferReader.readUInt n) (le_bytes n z) z.
Proof.
  intros Hz. unfold BufferReader.readUInt.
  rewrite <- (app_nil_r (le_bytes n z)).
  eapply reads_bind.
  - rewrite <- (length_le_bytes n z) at 1. apply reads_readSlice.
  - rewrite le_value_le_bytes_small by exact Hz. apply reads_ret.
Qed.

Lemma reads_readUInt32 (z : Z) :
  WellFormed.uint32 z = true -> reads BufferReader.readUInt32 (le_bytes 4 z) z.
Proof.
  unfold WellFormed.uint32. rewrite andb_true_iff, Z.leb_le, Z.ltb_lt.
  intros H. apply reads_readUInt. simpl. lia.
Qed.

Lemma reads_readUInt64 (z : Z) :
  WellFormed.uint64 z = true -> reads BufferReader.readUInt64 (le_bytes 8 z) z.
Proof.
  unfold WellFormed.uint64. rewrite andb_true_iff, Z.leb_le, Z.ltb_lt.
  intros H. apply reads_readUInt. simpl. lia.
Qed.

Lemma reads_readInt32 (z : Z) :
  WellFormed.int32 z = true -> reads BufferReader.readInt32 (le_bytes 4 z) z.
Proof.
  unfold WellFormed.int32. rewrite andb_true_iff, Z.leb_le, Z.ltb_lt.
  intros H. unfold BufferReader.readInt32.
  rewrite <- (app_nil_r (le_bytes 4 z)).
  intros r rest Hr. unfold bind.
  assert (Hs : reads (BufferReader.readSlice 4) (le_bytes 4 z) (le_bytes 4 z)).
  { rewrite <- (length_le_bytes 4 z) at 1. apply reads_readSlice. }
  unfold BufferReader.readUInt, bind.
  rewrite <- app_assoc in Hr. rewrite (Hs r _ Hr). unfold ret.
  rewrite app_nil_r, le_value_le_bytes.
  change (256 ^ Z.of_nat 4) with (2 ^ 32).
  do 2 f_equal.
  destruct (Z.ltb_spec (z mod 2 ^ 32) (2 ^ 31)) as [Hlt|Hge].
  - destruct (Z.neg_nonneg_cases z) as [Hneg|Hpos].
    + rewrite <- (Z.mod_add z 1) in Hlt by lia.
      rewrite Z.mod_small in Hlt by lia. lia.
    + apply Z.mod_small. lia.
  - destruct (Z.neg_nonneg_cases z) as [Hneg|Hpos].
    + rewrite <- (Z.mod_add z 1) by lia.
      rewrite Z.mod_small by lia. lia.
    + rewrite Z.mod_small in Hge by lia. lia.
Qed.

Lemma reads_readVarInt (n : nat) :
  WellFormed.count n = true ->
  reads BufferReader.readVarInt (varuint.encode n) (Z.of_nat n).
Proof.
  unfold WellFormed.count, MAX_SAFE_INTEGER. rewrite Z.leb_le. intros Hn.
  unfold BufferReader.readVarInt, varuint.encode.
  destruct (Z.ltb_spec (Z.of_nat n) 253) as [H1|H1].
  - rewrite <- (app_nil_r (le_bytes 1 _)). eapply reads_bind.
    + apply reads_readUInt. simpl. lia.
    + destruct (Z.ltb_spec (Z.of_nat n) 253); [|lia]. apply reads_ret.
  - destruct (Z.leb_spec (Z.of_nat n) 65535) as [H2|H2].
    { change (xfd :: le_bytes 2 (Z.of_nat n))
        with (le_bytes 1 253 ++ le_bytes 2 (Z.of_nat n)).
      eapply reads_bind; [apply reads_readUInt; simpl; lia|].
      change (reads (BufferReader.readUInt 2) (le_bytes 2 (Z.of_nat n)) (Z.of_nat n)).
      apply reads_readUInt. simpl. lia. }
    destruct (Z.leb_spec (Z.of_nat n) 4294967295) as [H3|H3].
    { change (xfe :: le_bytes 4 (Z.of_nat n))
        with (le_bytes 1 254 ++ le_bytes 4 (Z.of_nat n)).
      eapply reads_bind; [apply reads_readUInt; simpl; lia|].
      change (reads (BufferReader.readUInt 4) (le_bytes 4 (Z.of_nat n)) (Z.of_nat n)).
      apply reads_readUInt. simpl. lia. }
    change (xff :: le_bytes 8 (Z.of_nat n))
      with (le_bytes 1 255 ++ le_bytes 8 (Z.of_nat n)).
    eapply reads_bind; [apply reads_readUInt; simpl; lia|].
    cbv beta. change (255 <? 253) with false. change (255 =? 253) with false.
    change (255 =? 254) with false. cbv iota.
    rewrite <- (app_nil_r (le_bytes 8 _)). eapply reads_bind.
    + apply reads_readUInt. simpl. lia.
    + unfold MAX_SAFE_INTEGER.
      destruct (Z.leb_spec (Z.of_nat n) (2 ^ 53 - 1)); [|lia]. apply reads_ret.
Qed.

Lemma reads_readVarSlice (s : bytes) :
  WellFormed.count (length s) = true ->
  reads BufferReader.readVarSlice (Wire.varSlice s) s.
Proof.
  intros Hs. unfold BufferReader.readVarSlice, Wire.varSlice.
  eapply reads_bind; [apply reads_readVarInt, Hs|].
  rewrite Nat2Z.id. apply reads_readSlice.
Qed.

Lemma reads_repeatM {A} (body : M BufferReader.t A) (enc : A -> bytes)
    (l : list A) :
  Forall (fun x => reads body (enc x) x) l ->
  reads (repeatM (length l) body) (concat (map enc l)) l.
Proof.
  induction 1 as [|x l Hx _ IH]; simpl.
  - apply reads_ret.
  - eapply reads_bind; [exact Hx|].
    rewrite <- (app_nil_r (concat _)). eapply reads_bind; [exact IH|].
    apply reads_ret.
Qed.

End Reader.

(** ** Transaction: parsing what was written *)

Section TransactionReader.

Import Cursor.

Lemma reads_readInput (txIn : Transaction.Input) :
  WellFormed.input txIn = true ->
  reads Transaction.readInput (Wire.input txIn) txIn.
Proof.
  unfold WellFormed.input, WellFormed.writableInput.
  rewrite !andb_true_iff, Nat.eqb_eq. intros [[[Hh Hi] Hq] Hs].
  unfold Transaction.readInput, Wire.input.
  eapply reads_bind; [rewrite <- Hh; apply reads_readSlice|].
  eapply reads_bind; [apply reads_readUInt32, Hi|].
  eapply reads_bind; [apply reads_readVarSlice, Hs|].
  rewrite <- (app_nil_r (le_bytes 4 _)).
  eapply reads_bind; [apply reads_readUInt32, Hq|].
  destruct txIn. apply reads_ret.
Qed.

Lemma reads_readOutput (txOut : Transaction.Output) :
  WellFormed.output txOut = true ->
  reads Transaction.readOutput (Wire.output txOut) txOut.
Proof.
  unfold WellFormed.output, Transaction.readOutput, Wire.output.
  destruct txOut as [s [v|] [b|]];
    cbn [Transaction.value Transaction.valueBuffer Transaction.out_script];
    try discriminate.
  rewrite andb_true_iff. intros [Hv Hs].
  eapply reads_bind; [apply reads_readUInt64, Hv|].
  rewrite <- (app_nil_r (Wire.varSlice s)).
  eapply reads_bind; [apply reads_readVarSlice, Hs|].
  apply reads_ret.
Qed.

Lemma reads_readTransaction (tx : Transaction.t) :
  WellFormed.transaction tx = true ->
  reads Transaction.readTransaction (Wire.transaction tx) tx.
Proof.
  unfold WellFormed.transaction. rewrite !andb_true_iff, !forallb_forall.
  intros [[[[[[Hv Ht] Hl] Hins] Houts] Hni] Hno].
  unfold Transaction.readTransaction, Wire.transaction.
  eapply reads_bind; [apply reads_readInt32, Hv|].
  eapply reads_bind.
  { destruct (2 <=? Transaction.version tx);
      [apply reads_readUInt64|apply reads_readUInt32]; exact Ht. }
  eapply reads_bind; [apply reads_readVarInt, Hni|].
  rewrite Nat2Z.id. eapply reads_bind.
  { apply reads_repeatM, List.Forall_forall. intros x Hx.
    apply reads_readInput, Hins, Hx. }
  eapply reads_bind; [apply reads_readVarInt, Hno|].
  rewrite Nat2Z.id. eapply reads_bind.
  { apply reads_repeatM, List.Forall_forall. intros x Hx.
    apply reads_readOutput, Houts, Hx. }
  rewrite <- (app_nil_r (le_bytes 4 _)).
  eapply reads_bind; [apply reads_readUInt32, Hl|].
  destruct tx. apply reads_ret.
Qed.

Lemma writable_of_wellFormed (tx : Transaction.t) :
  WellFormed.transaction tx = true -> WellFormed.writable tx = true.
Proof.
  unfold WellFormed.transaction, WellFormed.writable.
  rewrite !andb_true_iff, !forallb_forall.
  intros [[[[[[Hv Ht] Hl] Hins] Houts] _] _]. repeat split; auto.
  - intros x Hx. specialize (Hins x Hx). unfold WellFormed.input in Hins.
    apply andb_true_iff in Hins. tauto.
  - intros x Hx. specialize (Houts x Hx).
    unfold WellFormed.output in Houts. unfold WellFormed.writableOutput.
    destruct (Transaction.value x), (Transaction.valueBuffer x);
      try discriminate.
    apply andb_true_iff in Houts. tauto.
Qed.

(** A well-formed transaction in front of anything parses back, in either
    mode when nothing follows, and in the lenient mode always. *)
Lemma fromBuffer_wire (tx : Transaction.t) (rest : bytes) (NO_STRICT : bool) :
  WellFormed.transaction tx = true ->
  (NO_STRICT = false -> rest = []) ->
  Transaction.fromBuffer (Wire.transaction tx ++ rest) NO_STRICT = Ok tx.
Proof.
  intros Hwf Hrest. unfold Transaction.fromBuffer.
  rewrite (reads_readTransaction tx Hwf _ rest) by apply before_new.
  destruct NO_STRICT; [reflexivity|].
  rewrite (Hrest eq_refl), app_nil_r. simpl.
  rewrite Nat.eqb_refl. reflexivity.
Qed.

(** *** Reads stay inside the buffer *)

Lemma local_ret {A} (a : A) : local (ret a).
Proof.
  intros r r' a' Hr [= <- <-]. repeat split; auto with lia.
Qed.

Lemma local_throw {A} (e : error) : local (@throw _ A e).
Proof. intros r r' a Hr [=]. Qed.

Lemma local_bind {A B} (m : M BufferReader.t A) (k : A -> M BufferReader.t B) :
  local m -> (forall a, local (k a)) -> local (bind m k).
Proof.
  intros Hm Hk r r' b Hr. unfold bind.
  destruct (m r) as [[a r1]|e] eqn:E; [|discriminate].
  intros Hb. destruct (Hm _ _ _ Hr E) as (Hb1 & Ho1 & Hl1 & Hx1).
  assert (Hr1 : (BufferReader.offset r1 <= length (BufferReader.buffer r1))%nat)
    by (rewrite Hb1; exact Hl1).
  destruct (Hk a _ _ _ Hr1 Hb) as (Hb2 & Ho2 & Hl2 & Hx2).
  repeat split; [congruence|lia|rewrite <- Hb1; exact Hl2|].
  intros extra. rewrite Hx1. apply Hx2.
Qed.

Lemma local_readSlice (n : nat) : local (BufferReader.readSlice n).
Proof.
  intros r r' a Hr. unfold BufferReader.readSlice.
  destruct (Nat.ltb_spec (length (BufferReader.buffer r))
              (BufferReader.offset r + n)) as [|Hn]; [discriminate|].
  intros [= <- <-]. simpl. repeat split; [lia|lia|].
  intros extra. unfold extend. simpl. rewrite length_app.
  destruct (Nat.ltb_spec (length (BufferReader.buffer r) + length extra)
              (BufferReader.offset r + n)); [lia|].
  unfold slice. rewrite drop_app_le by lia.
  rewrite take_app_le by (rewrite length_drop; lia). reflexivity.
Qed.

Lemma local_readUInt (n : nat) : local (BufferReader.readUInt n).
Proof.
  apply local_bind; [apply local_readSlice|intros s; apply local_ret].
Qed.

Lemma local_readVarInt : local BufferReader.readVarInt.
Proof.
  apply local_bind; [apply local_readUInt|intros first].
  repeat match goal with |- context [if ?c then _ else _] => destruct c end;
    auto using local_ret, local_readUInt.
  apply local_bind; [apply local_readUInt|intros number].
  destruct (number <=? MAX_SAFE_INTEGER); auto using local_ret, local_throw.
Qed.

Lemma local_readVarSlice : local BufferReader.readVarSlice.
Proof.
  apply local_bind; [apply local_readVarInt|intros n; apply local_readSlice].
Qed.

Lemma local_repeatM {A} (n : nat) (body : M BufferReader.t A) :
  local body -> local (repeatM n body).
Proof.
  intros Hb. induction n as [|n IH]; simpl.
  - apply local_ret.
  - apply local_bind; [exact Hb|intros x].
    apply local_bind; [exact IH|intros xs; apply local_ret].
Qed.

Lemma local_readTransaction : local Transaction.readTransaction.
Proof.
  unfold Transaction.readTransaction.
  apply local_bind; [apply local_bind; [apply local_readUInt|intros; apply local_ret]|intros version].
  apply local_bind; [destruct (2 <=? version); apply local_readUInt|intros time].
  apply local_bind; [apply local_readVarInt|intros vinLen].
  apply local_bind.
  { apply local_repeatM. unfold Transaction.readInput.
    apply local_bind; [apply local_readSlice|intros h].
    apply local_bind; [apply local_readUInt|intros i].
    apply local_bind; [apply local_readVarSlice|intros s].
    apply local_bind; [apply local_readUInt|intros q; apply local_ret]. }
  intros ins.
  apply local_bind; [apply local_readVarInt|intros voutLen].
  apply local_bind.
  { apply local_repeatM. unfold Transaction.readOutput.
    apply local_bind; [apply local_readUInt|intros v].
    apply local_bind; [apply local_readVarSlice|intros s; apply local_ret]. }
  intros outs.
  apply local_bind; [apply local_readUInt|intros locktime; apply local_ret].
Qed.

End TransactionReader.

(** ** Block: serialization and parsing *)

Section BlockCodec.

Import Cursor.

Lemma emits_writeHeader (b : Block.t) :
  WellFormed.header b = true -> emits (Block.writeHeader b) (Wire.header b).
Proof.
  unfold WellFormed.header. rewrite !andb_true_iff.
  intros [[[[[Hv Hp] Hm] Ht] Hb] Hn].
  unfold Block.writeHeader, Wire.header.
  destruct (Block.prevHash b) as [p|]; [|discriminate].
  destruct (Block.merkleRoot b) as [m|]; [|discriminate].
  apply emits_bind; [apply emits_writeInt32, Hv|].
  apply emits_bind; [apply emits_writeSlice|].
  apply emits_bind; [apply emits_writeSlice|].
  apply emits_bind; [apply emits_writeUInt32, Ht|].
  apply emits_bind; [apply emits_writeUInt32, Hb|].
  apply emits_writeUInt32, Hn.
Qed.

Lemma length_wire_header (b : Block.t) :
  WellFormed.header b = true -> length (Wire.header b) = 80%nat.
Proof.
  unfold WellFormed.header. rewrite !andb_true_iff.
  intros [[[[[_ Hp] Hm] _] _] _]. unfold Wire.header.
  destruct (Block.prevHash b) as [p|]; [|discriminate].
  destruct (Block.merkleRoot b) as [m|]; [|discriminate].
  simpl in Hp, Hm. apply Nat.eqb_eq in Hp, Hm.
  rewrite !length_app, !length_le_bytes. simpl. lia.
Qed.

(** The header-only serialization. *)
Lemma toBuffer_header (junk : nat -> byte) (b : Block.t) :
  WellFormed.header b = true -> Block.toBuffer junk b true = Ok (Wire.header b).
Proof.
  intros Hwf. unfold Block.toBuffer.
  assert (Hbody : emits (Block.writeHeader b ;;
            match Block.transactions b with
            | Some txs => if true then ret tt
                          else BufferWriter.writeVarInt (length txs) ;;
                               forEach Block.writeTransaction txs
            | None => ret tt
            end) (Wire.header b ++ [])).
  { apply emits_bind; [apply emits_writeHeader, Hwf|].
    destruct (Block.transactions b); apply emits_ret. }
  rewrite Hbody by (simpl; lia).
  rewrite app_nil_r. cbn [BufferWriter.buffer BufferWriter.offset].
  rewrite length_allocUnsafe, (length_wire_header b Hwf).
  replace (Block.byteLength b true) with 80%nat
    by (unfold Block.byteLength; destruct (Block.transactions b); reflexivity).
  simpl Nat.ltb. cbv iota. rewrite splice_all; [reflexivity|].
  rewrite length_allocUnsafe. apply length_wire_header, Hwf.
Qed.

Lemma emits_block_writeTransaction (tx : Transaction.t) :
  WellFormed.writable tx = true ->
  emits (Block.writeTransaction tx) (Wire.transaction tx).
Proof.
  intros Hw w Ho. unfold Block.writeTransaction, Transaction.toBufferAt.
  rewrite (emits_writeTransaction tx Hw) by exact Ho.
  cbn [BufferWriter.buffer BufferWriter.offset].
  destruct (_ <? _)%nat; [reflexivity|].
  rewrite (length_wire_transaction tx Hw). reflexivity.
Qed.

Lemma fold_left_byteLength (txs : list Transaction.t) (a : nat) :
  fold_left (fun a x => (a + Transaction.byteLength x)%nat) txs a =
  (a + sum_list (map Transaction.byteLength txs))%nat.
Proof.
  revert a. induction txs as [|x txs IH]; intros a; simpl; [lia|].
  rewrite IH. lia.
Qed.

Lemma length_wire_block (b : Block.t) :
  WellFormed.block b = true ->
  length (Wire.block b) = Block.byteLength b false.
Proof.
  unfold WellFormed.block. rewrite !andb_true_iff. intros [[Hh _] Htx].
  unfold Wire.block, Block.byteLength.
  rewrite length_app, (length_wire_header b Hh).
  destruct (Block.transactions b) as [txs|]; [|simpl; lia].
  simpl in Htx. apply andb_true_iff in Htx as [Htx _].
  rewrite forallb_forall in Htx.
  rewrite length_app, length_encode, fold_left_byteLength.
  rewrite (length_concat_map Wire.transaction Transaction.byteLength); [lia|].
  apply List.Forall_forall. intros x Hx.
  apply length_wire_transaction, writable_of_wellFormed, Htx, Hx.
Qed.

(** The full serialization. *)
Lemma toBuffer_block (junk : nat -> byte) (b : Block.t) :
  WellFormed.block b = true -> Block.toBuffer junk b false = Ok (Wire.block b).
Proof.
  intros Hwf. pose proof (length_wire_block b Hwf) as Hlen.
  unfold WellFormed.block in Hwf. rewrite !andb_true_iff in Hwf.
  destruct Hwf as [[Hh _] Htx]. unfold Block.toBuffer.
  assert (Hbody : emits (Block.writeHeader b ;;
            match Block.transactions b with
            | Some txs => if false then ret tt
                          else BufferWriter.writeVarInt (length txs) ;;
                               forEach Block.writeTransaction txs
            | None => ret tt
            end) (Wire.block b)).
  { unfold Wire.block. apply emits_bind; [apply emits_writeHeader, Hh|].
    destruct (Block.transactions b) as [txs|]; [|apply emits_ret].
    simpl in Htx. apply andb_true_iff in Htx as [Htx _].
    rewrite forallb_forall in Htx.
    apply emits_bind; [apply emits_writeVarInt|].
    apply emits_forEach, List.Forall_forall. intros x Hx.
    apply emits_block_writeTransaction, writable_of_wellFormed, Htx, Hx. }
  rewrite Hbody by (simpl; lia).
  cbn [BufferWriter.buffer BufferWriter.offset].
  rewrite length_allocUnsafe, Hlen, Nat.add_0_l.
  rewrite Nat.ltb_irrefl. rewrite splice_all; [reflexivity|].
  rewrite length_allocUnsafe. exact Hlen.
Qed.

Lemma reads_block_readTransaction (tx : Transaction.t) :
  WellFormed.transaction tx = true ->
  reads Block.readTransaction (Wire.transaction tx) tx.
Proof.
  intros Hwf r rest [Ho Hd]. unfold Block.readTransaction.
  rewrite Hd, (fromBuffer_wire tx rest true Hwf) by discriminate.
  rewrite (length_wire_transaction tx (writable_of_wellFormed tx Hwf)).
  reflexivity.
Qed.

Lemma reads_readHeader (b : Block.t) :
  WellFormed.header b = true ->
  Block.witnessCommit b = None ->
  reads Block.readHeader (Wire.header b)
    (Block.mk (Block.version b) (Block.prevHash b) (Block.merkleRoot b)
       (Block.timestamp b) None (Block.bits b) (Block.nonce b) None).
Proof.
  unfold WellFormed.header. rewrite !andb_true_iff.
  intros [[[[[Hv Hp] Hm] Ht] Hb] Hn] Hw.
  unfold Block.readHeader, Wire.header.
  destruct (Block.prevHash b) as [p|]; [|discriminate].
  destruct (Block.merkleRoot b) as [m|]; [|discriminate].
  simpl in Hp, Hm. apply Nat.eqb_eq in Hp, Hm.
  eapply reads_bind; [apply reads_readInt32, Hv|].
  eapply reads_bind; [rewrite <- Hp; apply reads_readSlice|].
  eapply reads_bind; [rewrite <- Hm; apply reads_readSlice|].
  eapply reads_bind; [apply reads_readUInt32, Ht|].
  eapply reads_bind; [apply reads_readUInt32, Hb|].
  rewrite <- (app_nil_r (le_bytes 4 _)).
  eapply reads_bind; [apply reads_readUInt32, Hn|].
  apply reads_ret.
Qed.

(** A well-formed block parses back from its serialization. *)
Lemma fromBuffer_wire_block (b : Block.t) :
  WellFormed.block b = true -> Block.fromBuffer (Wire.block b) = Ok b.
Proof.
  intros Hwf.
  unfold WellFormed.block in Hwf. rewrite !andb_true_iff in Hwf.
  destruct Hwf as [[Hh Hw] Htx].
  assert (Hwc : Block.witnessCommit b = None)
    by (destruct (Block.witnessCommit b); [discriminate|reflexivity]).
  pose proof (length_wire_header b Hh) as Hhl.
  assert (Heta : forall txs, Block.transactions b = txs ->
            Block.mk (Block.version b) (Block.prevHash b) (Block.merkleRoot b)
              (Block.timestamp b) None (Block.bits b) (Block.nonce b) txs = b).
  { intros txs <-. destruct b. cbn in Hwc. subst. reflexivity. }
  unfold Block.fromBuffer.
  destruct (Block.transactions b) as [txs|] eqn:Etx.
  - cbn [from_option] in Htx.
    apply andb_true_iff in Htx as [Htx Hc]. rewrite forallb_forall in Htx.
    assert (HW : Wire.block b =
              Wire.header b ++ varuint.encode (length txs) ++
              concat (map Wire.transaction txs) ++ [])
      by (unfold Wire.block; rewrite Etx, app_nil_r; reflexivity).
    assert (Hl : (80 < length (Wire.block b))%nat).
    { rewrite HW, !length_app, Hhl, length_encode.
      unfold varuint.encodingLength.
      repeat match goal with |- context [if ?c then _ else _] => destruct c end;
        lia. }
    destruct (Nat.ltb_spec (length (Wire.block b)) 80); [lia|].
    destruct (Nat.eqb_spec (length (Wire.block b)) 80); [lia|].
    pose proof (before_new (Wire.block b)) as Hbefore.
    rewrite HW in Hbefore at 2.
    rewrite (reads_readHeader b Hh Hwc _ _ Hbefore).
    apply before_advance in Hbefore.
    unfold Block.readTransactions.
    cbn [Block.version Block.prevHash Block.merkleRoot Block.timestamp
         Block.witnessCommit Block.bits Block.nonce].
    assert (Hr : reads
      (let* nTransactions := BufferReader.readVarInt in
       let* txs0 := repeatM (Z.to_nat nTransactions) Block.readTransaction in
       ret (Block.mk (Block.version b) (Block.prevHash b) (Block.merkleRoot b)
              (Block.timestamp b) None (Block.bits b) (Block.nonce b)
              (Some txs0)))
      (varuint.encode (length txs) ++ concat (map Wire.transaction txs))
      (Block.mk (Block.version b) (Block.prevHash b) (Block.merkleRoot b)
              (Block.timestamp b) None (Block.bits b) (Block.nonce b)
              (Some txs))).
    { eapply reads_bind; [apply reads_readVarInt, Hc|].
      rewrite Nat2Z.id. rewrite <- (app_nil_r (concat _)).
      eapply reads_bind; [|apply reads_ret].
      apply reads_repeatM, List.Forall_forall. intros x Hx.
      apply reads_block_readTransaction, Htx, Hx. }
    rewrite app_assoc in Hbefore.
    rewrite (Hr _ _ Hbefore). f_equal. apply Heta. reflexivity.
  - assert (HW : Wire.block b = Wire.header b ++ [])
      by (unfold Wire.block; rewrite Etx; reflexivity).
    assert (Hl : length (Wire.block b) = 80%nat)
      by (rewrite HW, app_nil_r; exact Hhl).
    rewrite Hl. cbn [Nat.ltb Nat.leb Nat.eqb].
    pose proof (before_new (Wire.block b)) as Hbefore.
    rewrite HW in Hbefore at 2.
    rewrite (reads_readHeader b Hh Hwc _ _ Hbefore).
    f_equal. apply Heta. reflexivity.
Qed.

End BlockCodec.

(** ** Every 80 bytes are a header *)

Lemma le_bytes_mod (n : nat) (z : Z) :
  le_bytes n (z mod 256 ^ Z.of_nat n) = le_bytes n z.
Proof.
  revert z. induction n as [|n IH]; intros z; [reflexivity|].
  cbn [le_bytes]. rewrite Nat2Z.inj_succ, Z.pow_succ_r by lia.
  assert (HM : 0 < 256 ^ Z.of_nat n) by (apply Z.pow_pos_nonneg; lia).
  rewrite Z.rem_mul_r by lia.
  pose proof (Z.mod_pos_bound z 256 ltac:(lia)) as Hm.
  f_equal.
  - rewrite <- byte_of_Z_mod, (Z.mul_comm 256), Z.mod_add by lia.
    rewrite Z.mod_mod by lia. apply byte_of_Z_mod.
  - rewrite (Z.mul_comm 256), Z.div_add by lia.
    rewrite (Z.div_small (z mod 256)) by lia. apply IH.
Qed.

Lemma le_bytes_le_value' (n : nat) (bs : bytes) :
  length bs = n -> le_bytes n (le_value bs) = bs.
Proof. intros <-. apply le_bytes_le_value. Qed.

Lemma split_at (n : nat) (l : bytes) :
  (n <= length l)%nat ->
  exists a b, l = a ++ b /\ length a = n /\ length b = (length l - n)%nat.
Proof.
  intros H. exists (take n l), (drop n l).
  rewrite take_drop, length_take, length_drop. repeat split; lia.
Qed.

Lemma header_of_bytes (data : bytes) :
  length data = 80%nat ->
  exists b : Block.t,
    WellFormed.block b = true /\ Block.transactions b = None /\
    Wire.block b = data.
Proof.
  intros H.
  destruct (split_at 4 data) as (s1 & d1 & -> & H1 & L1); [lia|].
  destruct (split_at 32 d1) as (s2 & d2 & -> & H2 & L2); [lia|].
  destruct (split_at 32 d2) as (s3 & d3 & -> & H3 & L3); [lia|].
  destruct (split_at 4 d3) as (s4 & d4 & -> & H4 & L4); [lia|].
  destruct (split_at 4 d4) as (s5 & s6 & -> & H5 & L5); [lia|].
  rewrite !length_app in *.
  assert (H6 : length s6 = 4%nat) by lia.
  pose proof (le_value_range s1) as R1. pose proof (le_value_range s4) as R4.
  pose proof (le_value_range s5) as R5. pose proof (le_value_range s6) as R6.
  rewrite H1 in R1. rewrite H4 in R4. rewrite H5 in R5. rewrite H6 in R6.
  change (256 ^ Z.of_nat 4) with (2 ^ 32) in *.
  exists (Block.mk
            (if le_value s1 <? 2 ^ 31 then le_value s1 else le_value s1 - 2 ^ 32)
            (Some s2) (Some s3) (le_value s4) None (le_value s5) (le_value s6)
            None).
  split; [|split; [reflexivity|]].
  - unfold WellFormed.block, WellFormed.header, WellFormed.int32,
      WellFormed.uint32.
    cbn [Block.version Block.prevHash Block.merkleRoot Block.timestamp
         Block.witnessCommit Block.bits Block.nonce Block.transactions
         from_option].
    rewrite H2, H3. cbn [Nat.eqb].
    rewrite !andb_true_iff, !Z.leb_le, !Z.ltb_lt.
    destruct (Z.ltb_spec (le_value s1) (2 ^ 31)); repeat split; lia.
  - unfold Wire.block, Wire.header.
    cbn [Block.version Block.prevHash Block.merkleRoot Block.timestamp
         Block.witnessCommit Block.bits Block.nonce Block.transactions default].
    rewrite app_nil_r. unfold id.
    rewrite (le_bytes_le_value' 4 s4 H4), (le_bytes_le_value' 4 s5 H5),
      (le_bytes_le_value' 4 s6 H6).
    f_equal.
    transitivity (le_bytes 4 (le_value s1)); [|apply le_bytes_le_value', H1].
    destruct (Z.ltb_spec (le_value s1) (2 ^ 31)); [reflexivity|].
    rewrite <- le_bytes_mod. rewrite <- (le_bytes_mod 4 (le_value s1)).
    f_equal. change (256 ^ Z.of_nat 4) with (2 ^ 32).
    rewrite <- (Z.mod_add (le_value s1 - 2 ^ 32) 1) by lia. f_equal. lia.
Qed.

(** ** Codec theorems *)

(** C6. [byteLength()] is the length of what [toBuffer()] returns, for any
    number of inputs and outputs; a transaction the cursor can write is
    serialized to its wire format, of exactly [byteLength()] bytes; and
    [byteLength()] is 16 or 12, plus the CompactSize lengths of the two
    counts, plus 40 and the prefixed script per input, plus 8 and the
    prefixed script per output. *)
Theorem byteLength_is_serialized_length (junk : nat -> byte)
    (tx : Transaction.t) :
  (forall bs, Transaction.toBuffer junk tx = Ok bs ->
              length bs = Transaction.byteLength tx) /\
  (WellFormed.writable tx = true ->
   exists bs, Transaction.toBuffer junk tx = Ok bs /\
              bs = Wire.transaction tx /\
              length bs = Transaction.byteLength tx) /\
  Transaction.byteLength tx =
  ((if (2 <=? Transaction.version tx)%Z then 16 else 12) +
   varuint.encodingLength (length (Transaction.ins tx)) +
   varuint.encodingLength (length (Transaction.outs tx)) +
   sum_list (map (fun txIn =>
               40 + (varuint.encodingLength (length (Transaction.script txIn))
                     + length (Transaction.script txIn)))
      (Transaction.ins tx)) +
   sum_list (map (fun txOut =>
               8 + (varuint.encodingLength
                      (length (Transaction.out_script txOut))
                    + length (Transaction.out_script txOut)))
      (Transaction.outs tx)))%nat.
Proof.
  split; [|split].
  - intros bs. apply toBuffer_length.
  - intros Hw. exists (Wire.transaction tx).
    split; [apply toBuffer_wire, Hw|].
    split; [reflexivity|apply length_wire_transaction, Hw].
  - apply byteLength_sum.
Qed.

Lemma byteLength_is_serialized_length_witness :
  WellFormed.writable Example.tx = true /\
  exists bs, Transaction.toBuffer Example.junk Example.tx = Ok bs /\
             bs = Wire.transaction Example.tx /\
             length bs = Transaction.byteLength Example.tx.
Proof.
  split; [reflexivity|].
  apply (proj1 (proj2 (byteLength_is_serialized_length Example.junk Example.tx))).
  reflexivity.
Defined.

Lemma extend_new (buffer extra : bytes) :
  Cursor.extend (BufferReader.new buffer) extra = BufferReader.new (buffer ++ extra).
Proof. reflexivity. Qed.

(** C8. Once version, time, inputs, outputs and locktime are decoded, the
    strict mode fails with 'Transaction has unexpected data' exactly when
    the bytes consumed are not the whole input; the lenient mode answers the
    transaction, whatever follows it. *)
Theorem strict_parse_rejects_trailing_bytes (buffer : bytes)
    (tx : Transaction.t) (r : BufferReader.t) :
  Transaction.readTransaction (BufferReader.new buffer) = Ok (tx, r) ->
  Transaction.fromBuffer buffer true = Ok tx /\
  (BufferReader.offset r <> length buffer ->
   Transaction.fromBuffer buffer false = Err UnexpectedData) /\
  (BufferReader.offset r = length buffer ->
   Transaction.fromBuffer buffer false = Ok tx) /\
  (forall extra, Transaction.fromBuffer (buffer ++ extra) true = Ok tx) /\
  (forall extra,
     BufferReader.offset r <> length (buffer ++ extra) ->
     Transaction.fromBuffer (buffer ++ extra) false = Err UnexpectedData).
Proof.
  intros Hr.
  destruct (local_readTransaction (BufferReader.new buffer) r tx) as (_ & _ & _ & Hx);
    [simpl; lia|exact Hr|].
  unfold Transaction.fromBuffer. rewrite Hr.
  split; [reflexivity|]. split; [|split; [|split]].
  - intros Hne. apply Nat.eqb_neq in Hne. rewrite Hne. reflexivity.
  - intros ->. rewrite Nat.eqb_refl. reflexivity.
  - intros extra. rewrite <- extend_new, Hx. reflexivity.
  - intros extra Hne. rewrite <- extend_new, Hx.
    cbn [Cursor.extend BufferReader.offset].
    apply Nat.eqb_neq in Hne. rewrite Hne. reflexivity.
Qed.

Lemma strict_parse_rejects_trailing_bytes_witness :
  Transaction.fromBuffer (Wire.transaction Example.tx ++ [x00]) true
    = Ok Example.tx /\
  Transaction.fromBuffer (Wire.transaction Example.tx ++ [x00]) false
    = Err UnexpectedData.
Proof.
  assert (Hr : Transaction.readTransaction
                 (BufferReader.new (Wire.transaction Example.tx ++ [x00]))
               = Ok (Example.tx,
                     Cursor.advance
                       (BufferReader.new (Wire.transaction Example.tx ++ [x00]))
                       (length (Wire.transaction Example.tx))))
    by reflexivity.
  destruct (strict_parse_rejects_trailing_bytes _ _ _ Hr) as (H1 & H2 & _).
  split; [exact H1|]. apply H2. vm_compute. discriminate.
Defined.




(** ** Transaction: identifier and signature hash *)

Lemma forallb_Forall {A} (f : A -> bool) (l : list A) :
  forallb f l = true <-> Forall (fun x => f x = true) l.
Proof.
  rewrite forallb_forall, List.Forall_forall. reflexivity.
Qed.

Lemma Forall_imap {A B} (P : A -> Prop) (Q : B -> Prop) (f : nat -> A -> B)
    (l : list A) :
  (forall i x, P x -> Q (f i x)) -> Forall P l -> Forall Q (imap f l).
Proof.
  intros Hf Hl. revert f Hf.
  induction Hl as [|x l Hx _ IH]; intros f Hf; simpl; constructor.
  - apply Hf, Hx.
  - apply IH. intros i y. apply Hf.
Qed.

Lemma zero_bytes (l : bytes) :
  forallb (fun b => Z_of_byte b =? 0) l = true <-> l = replicate (length l) x00.
Proof.
  induction l as [|b l IH]; simpl; [tauto|].
  rewrite andb_true_iff, IH, Z.eqb_eq. split.
  - intros [Hb <-]. f_equal. rewrite <- (byte_of_Z_of_byte b), Hb. reflexivity.
  - intros [= -> Hl]. split; [reflexivity|exact Hl].
Qed.

Lemma isCoinbase_true (tx : Transaction.t) :
  Transaction.isCoinbase tx = Ok true <->
  exists input, Transaction.ins tx = [input] /\
                Transaction.hash input = replicate 32 x00.
Proof.
  unfold Transaction.isCoinbase, Transaction.isCoinbaseHash, types.Hash256bit.
  destruct (Transaction.ins tx) as [|input [|input' rest]].
  - split; [discriminate|]. intros (i & [=] & _).
  - destruct (Nat.eqb_spec (length (Transaction.hash input)) 32) as [E|E].
    + split.
      * intros [= H]. apply zero_bytes in H. rewrite E in H. eauto.
      * intros (i & [= <-] & H). f_equal. apply zero_bytes.
        rewrite E. exact H.
    + split; [discriminate|]. intros (i & [= <-] & H).
      rewrite H, length_replicate in E. congruence.
  - split; [discriminate|]. intros (i & [=] & _).
Qed.

Lemma isCoinbase_writable (tx : Transaction.t) :
  WellFormed.writable tx = true ->
  exists c, Transaction.isCoinbase tx = Ok c.
Proof.
  unfold WellFormed.writable. rewrite !andb_true_iff.
  intros [[_ Hins] _].
  unfold Transaction.isCoinbase, Transaction.isCoinbaseHash, types.Hash256bit.
  destruct (Transaction.ins tx) as [|input [|input' rest]]; eauto.
  simpl in Hins. rewrite andb_true_r in Hins.
  unfold WellFormed.writableInput in Hins. rewrite !andb_true_iff in Hins.
  destruct Hins as [[-> _] _]. eauto.
Qed.

Section TransactionHashing.

Context (junk : nat -> byte).
Context (sha256 : bytes -> bytes).

(** C3. A transaction is a coinbase exactly when it has one input whose
    hash is 32 zero bytes; [getHash()] of a coinbase is 32 zero bytes, and of
    any other transaction the double hash of its serialization. So it is 32
    zero bytes exactly for a coinbase, unless the double hash of a
    serialization is itself 32 zero bytes. *)
Theorem getHash_zero_for_coinbase (tx : Transaction.t) :
  WellFormed.writable tx = true ->
  (Transaction.isCoinbase tx = Ok true <->
   exists input, Transaction.ins tx = [input] /\
                 Transaction.hash input = replicate 32 x00) /\
  (Transaction.isCoinbase tx = Ok true ->
   Transaction.getHash junk sha256 tx = Ok (replicate 32 x00)) /\
  (Transaction.isCoinbase tx <> Ok true ->
   Transaction.toBuffer junk tx = Ok (Wire.transaction tx) /\
   Transaction.getHash junk sha256 tx
   = Ok (bcrypto.hash256 sha256 (Wire.transaction tx))) /\
  (Transaction.getHash junk sha256 tx = Ok (replicate 32 x00) <->
   Transaction.isCoinbase tx = Ok true \/
   bcrypto.hash256 sha256 (Wire.transaction tx) = replicate 32 x00) /\
  (bcrypto.hash256 sha256 (Wire.transaction tx) <> replicate 32 x00 ->
   (Transaction.getHash junk sha256 tx = Ok (replicate 32 x00) <->
    Transaction.isCoinbase tx = Ok true)).
Proof.
  intros Hw. pose proof (toBuffer_wire junk tx Hw) as Hs.
  destruct (isCoinbase_writable tx Hw) as [c Hc].
  split; [apply isCoinbase_true|].
  unfold Transaction.getHash. rewrite Hc, Hs.
  destruct c; simpl; repeat split; try tauto; try congruence.
  all: try (intros [= H]; tauto); try (intros [H|H]; congruence).
Qed.

End TransactionHashing.

Lemma getHash_zero_for_coinbase_witness :
  Transaction.getHash Example.junk Example.digest Example.coinbase
    = Ok (replicate 32 x00) /\
  Transaction.getHash Example.junk Example.digest Example.tx
    = Ok (bcrypto.hash256 Example.digest (Wire.transaction Example.tx)) /\
  (Transaction.getHash Example.junk Example.digest Example.tx
     = Ok (replicate 32 x00) <->
   Transaction.isCoinbase Example.tx = Ok true).
Proof.
  pose proof (getHash_zero_for_coinbase Example.junk Example.digest
                Example.coinbase eq_refl) as (_ & H1 & _).
  pose proof (getHash_zero_for_coinbase Example.junk Example.digest
                Example.tx eq_refl) as (_ & _ & H2 & _ & H3).
  split; [apply H1; reflexivity|].
  split; [apply H2; vm_compute; discriminate|].
  apply H3. vm_compute. discriminate.
Defined.

Lemma toInt32_mod (z m : Z) : (m | 2 ^ 32) -> 0 < m -> toInt32 z mod m = z mod m.
Proof.
  intros [k Hk] Hm. unfold toInt32.
  rewrite (Z.mod_eq (z + 2 ^ 31) (2 ^ 32)) by lia.
  replace (z + 2 ^ 31 - 2 ^ 32 * ((z + 2 ^ 31) / 2 ^ 32) - 2 ^ 31)
    with (z + (- ((z + 2 ^ 31) / 2 ^ 32) * k) * m) by (rewrite Hk; ring).
  apply Z.mod_add. lia.
Qed.

Lemma land_toInt32_31 (z : Z) : Z.land (toInt32 z) 31 = Z.land z 31.
Proof.
  change 31 with (Z.ones 5). rewrite !Z.land_ones by lia.
  apply toInt32_mod; [exists (2 ^ 27); reflexivity|lia].
Qed.

Lemma toInt32_int32 (z : Z) : WellFormed.int32 z = true -> toInt32 z = z.
Proof.
  unfold WellFormed.int32, toInt32. rewrite andb_true_iff, Z.leb_le, Z.ltb_lt.
  intros H. rewrite Z.mod_small by lia. lia.
Qed.

Lemma writable_iff (tx : Transaction.t) :
  WellFormed.writable tx = true <->
  WellFormed.int32 (Transaction.version tx) = true /\
  (if 2 <=? Transaction.version tx then WellFormed.uint64 (Transaction.time tx)
   else WellFormed.uint32 (Transaction.time tx)) = true /\
  WellFormed.uint32 (Transaction.locktime tx) = true /\
  Forall (fun x => WellFormed.writableInput x = true) (Transaction.ins tx) /\
  Forall (fun x => WellFormed.writableOutput x = true) (Transaction.outs tx).
Proof.
  unfold WellFormed.writable.
  rewrite !andb_true_iff, !forallb_Forall. tauto.
Qed.

Lemma clone_wellFormed (tx : Transaction.t) :
  WellFormed.transaction tx = true -> Transaction.clone tx = tx.
Proof.
  unfold WellFormed.transaction. rewrite !andb_true_iff, !forallb_Forall.
  intros [[[[_ _] Houts] _] _]. unfold Transaction.clone.
  destruct tx as [v t l ins outs]. simpl in *. f_equal.
  - clear. induction ins as [|[h i s q] ins IH]; simpl; [reflexivity|].
    f_equal. exact IH.
  - induction Houts as [|o outs Ho _ IH]; simpl; [reflexivity|].
    f_equal; [|exact IH]. unfold WellFormed.output in Ho.
    destruct o as [s [v'|] [b|]]; simpl in *; congruence.
Qed.

Lemma writableInput_setSequence (q : Z) (x : Transaction.Input) :
  WellFormed.uint32 q = true ->
  WellFormed.writableInput x = true ->
  WellFormed.writableInput (Transaction.setSequence q x) = true.
Proof.
  unfold WellFormed.writableInput. simpl. rewrite !andb_true_iff.
  intros Hq [[Hh Hi] _]. auto.
Qed.

Lemma writableInput_setScript (s : bytes) (x : Transaction.Input) :
  WellFormed.writableInput x = true ->
  WellFormed.writableInput (Transaction.setScript s x) = true.
Proof. unfold WellFormed.writableInput. simpl. auto. Qed.

Lemma Forall_blankOutputs (P : Transaction.Output -> Prop) (n : nat)
    (outs : list Transaction.Output) :
  P Transaction.BLANK_OUTPUT -> Forall P outs ->
  Forall P (Transaction.blankOutputs n outs).
Proof.
  intros Hb. unfold Transaction.blankOutputs.
  generalize (seq 0 n) as is_. intros is_. revert outs.
  induction is_ as [|i is_ IH]; intros outs Ho; simpl; [exact Ho|].
  apply IH, Forall_insert; assumption.
Qed.

Lemma signedOutputs_None (tx txTmp : Transaction.t) (inIndex hashType : Z) :
  Transaction.signedOutputs tx txTmp inIndex hashType = None <->
  Z.land hashType 31 = Transaction.SIGHASH_SINGLE /\
  Z.of_nat (length (Transaction.outs tx)) <= inIndex.
Proof.
  unfold Transaction.signedOutputs. rewrite land_toInt32_31.
  destruct (Z.eqb_spec (Z.land hashType 31) Transaction.SIGHASH_NONE) as [E|_].
  - rewrite E. split; [discriminate|]. intros [[=] _].
  - destruct (Z.eqb_spec (Z.land hashType 31) Transaction.SIGHASH_SINGLE) as [E|E].
    + destruct (Z.leb_spec (Z.of_nat (length (Transaction.outs tx))) inIndex).
      * tauto.
      * split; [discriminate|]. lia.
    + split; [discriminate|]. tauto.
Qed.

Lemma writable_signedOutputs (tx txTmp t1 : Transaction.t)
    (inIndex hashType : Z) :
  WellFormed.writable txTmp = true ->
  Transaction.signedOutputs tx txTmp inIndex hashType = Some t1 ->
  WellFormed.writable t1 = true /\
  length (Transaction.ins t1) = length (Transaction.ins txTmp).
Proof.
  rewrite !writable_iff. intros (Hv & Ht & Hl & Hi & Ho).
  assert (Hseq : Forall (fun x => WellFormed.writableInput x = true)
            (Transaction.ignoreSequences (Z.to_nat inIndex)
               (Transaction.ins txTmp))).
  { unfold Transaction.ignoreSequences. eapply Forall_imap; [|exact Hi].
    intros i x Hx. simpl. destruct (i =? Z.to_nat inIndex)%nat; [exact Hx|].
    apply writableInput_setSequence; [reflexivity|exact Hx]. }
  unfold Transaction.signedOutputs.
  destruct (_ =? Transaction.SIGHASH_NONE).
  { intros [= <-]. simpl. unfold Transaction.ignoreSequences.
    rewrite length_imap. repeat split; auto. }
  destruct (_ =? Transaction.SIGHASH_SINGLE).
  { destruct (_ <=? inIndex); [discriminate|]. intros [= <-]. simpl.
    unfold Transaction.ignoreSequences. rewrite length_imap.
    repeat split; auto.
    apply Forall_blankOutputs; [reflexivity|]. apply Forall_take, Ho. }
  intros [= <-]. repeat split; auto.
Qed.

Lemma writable_signedInputs (t1 : Transaction.t) (inIndex hashType : Z)
    (ourScript : bytes) :
  WellFormed.writable t1 = true ->
  0 <= inIndex < Z.of_nat (length (Transaction.ins t1)) ->
  exists t2, Transaction.signedInputs t1 inIndex hashType ourScript = Ok t2 /\
             WellFormed.writable t2 = true.
Proof.
  rewrite writable_iff. intros (Hv & Ht & Hl & Hi & Ho) Hin.
  destruct (lookup_lt_is_Some_2 (Transaction.ins t1) (Z.to_nat inIndex))
    as [input Hinput]; [lia|].
  unfold Transaction.signedInputs. rewrite Hinput.
  destruct (negb _); eexists; (split; [reflexivity|]);
    apply writable_iff; simpl; repeat split; auto.
  - constructor; [|constructor]. apply writableInput_setScript.
    eapply Forall_lookup_1 in Hi; eauto.
  - apply Forall_alter.
    + apply Forall_fmap. eapply Forall_impl; [exact Hi|].
      intros x Hx. apply writableInput_setScript, Hx.
    + intros x _ Hx. apply writableInput_setScript, Hx.
Qed.

Lemma splice_trailer (buffer body trailer : bytes) :
  length buffer = (length body + length trailer)%nat ->
  splice (splice buffer (length body) trailer) 0 body = body ++ trailer.
Proof.
  intros H. unfold splice. rewrite take_0, Nat.add_0_l. cbn [app]. f_equal.
  rewrite drop_app_length' by (rewrite length_take; lia).
  rewrite (drop_ge buffer) by lia. apply app_nil_r.
Qed.

Lemma land_toInt32_128 (z : Z) : Z.land (toInt32 z) 128 = Z.land z 128.
Proof.
  apply Z.bits_inj'. intros n Hn. rewrite !Z.land_spec.
  destruct (Z.eq_dec n 7) as [->|Hne].
  - f_equal.
    rewrite <- (Z.mod_pow2_bits_low (toInt32 z) 8 7) by lia.
    rewrite <- (Z.mod_pow2_bits_low z 8 7) by lia.
    f_equal. apply toInt32_mod; [exists (2 ^ 24); reflexivity|lia].
  - replace (Z.testbit 128 n) with false; [rewrite !andb_false_r; reflexivity|].
    change 128 with (2 ^ 7). symmetry. apply Z.pow2_bits_false. lia.
Qed.

Lemma clone_inputs (ins : list Transaction.Input) :
  map (fun txIn => Transaction.mkInput (Transaction.hash txIn)
                     (Transaction.index txIn) (Transaction.script txIn)
                     (Transaction.sequence txIn)) ins = ins.
Proof.
  induction ins as [|[h i s q] ins IH]; simpl; [reflexivity|].
  rewrite IH. reflexivity.
Qed.

Lemma ignoreSequences_lookup_self (n : nat) (ins : list Transaction.Input) :
  Transaction.ignoreSequences n ins !! n = ins !! n.
Proof.
  unfold Transaction.ignoreSequences. rewrite list_lookup_imap.
  destruct (ins !! n); [|reflexivity]. simpl. rewrite Nat.eqb_refl.
  reflexivity.
Qed.

Lemma length_ignoreSequences (n : nat) (ins : list Transaction.Input) :
  length (Transaction.ignoreSequences n ins) = length ins.
Proof. unfold Transaction.ignoreSequences. apply length_imap. Qed.

Lemma blankOutputs_drop (n : nat) (outs : list Transaction.Output) :
  (n <= length outs)%nat ->
  Transaction.blankOutputs n outs
  = replicate n Transaction.BLANK_OUTPUT ++ drop n outs.
Proof.
  unfold Transaction.blankOutputs. induction n as [|n IH]; intros Hn.
  - simpl. rewrite drop_0. reflexivity.
  - rewrite seq_S, foldl_app. simpl foldl. rewrite IH by lia.
    rewrite insert_app_r_alt by (rewrite length_replicate; lia).
    rewrite length_replicate, Nat.sub_diag.
    destruct (drop n outs) as [|o rest] eqn:E.
    { apply (f_equal length) in E. rewrite length_drop in E. simpl in E. lia. }
    simpl.
    assert (Hd : drop (S n) outs = rest).
    { rewrite <- (Nat.add_1_l n), Nat.add_comm, <- drop_drop, E.
      reflexivity. }
    rewrite Hd.
    change (Transaction.BLANK_OUTPUT
            :: replicate n Transaction.BLANK_OUTPUT ++ rest)
      with ((Transaction.BLANK_OUTPUT
             :: replicate n Transaction.BLANK_OUTPUT) ++ rest).
    rewrite replicate_cons_app, <- app_assoc. reflexivity.
Qed.

Lemma blankOutputs_take (n : nat) (outs : list Transaction.Output)
    (o : Transaction.Output) :
  outs !! n = Some o ->
  Transaction.blankOutputs n (take (S n) outs)
  = replicate n Transaction.BLANK_OUTPUT ++ [o].
Proof.
  intros Ho. pose proof (lookup_lt_Some _ _ _ Ho) as Hlt.
  rewrite blankOutputs_drop by (rewrite length_take; lia).
  f_equal. rewrite (take_S_r _ _ _ Ho).
  rewrite drop_app_length' by (rewrite length_take; lia). reflexivity.
Qed.

(** What [signedOutputs] followed by [signedInputs] leaves of the clone is
    the clone of the specification. *)
Lemma signedInputs_zeroed (ins : list Transaction.Input) (n : nat)
    (ourScript : bytes) (f : nat -> Transaction.Input -> Transaction.Input) :
  (forall j x, f j x = Transaction.mkInput (Transaction.hash x)
                         (Transaction.index x)
                         (if (j =? n)%nat then ourScript else [])
                         (if (j =? n)%nat then Transaction.sequence x else 0)) ->
  alter (Transaction.setScript ourScript) n
    (map (Transaction.setScript Transaction.EMPTY_SCRIPT)
       (Transaction.ignoreSequences n ins))
  = imap f ins.
Proof.
  intros Hf. apply list_eq. intros j. rewrite list_lookup_imap.
  unfold Transaction.ignoreSequences.
  destruct (Nat.eq_dec j n) as [->|Hne].
  - rewrite list_lookup_alter_eq, list_lookup_fmap, list_lookup_imap.
    destruct (ins !! n) as [x|]; [|reflexivity].
    cbn [fmap option_fmap option_map]. rewrite Hf, Nat.eqb_refl. reflexivity.
  - rewrite list_lookup_alter_ne by congruence.
    rewrite list_lookup_fmap, list_lookup_imap.
    destruct (ins !! j) as [x|]; [|reflexivity].
    cbn [fmap option_fmap option_map]. rewrite Hf.
    destruct (Nat.eqb_spec j n); [contradiction|]. reflexivity.
Qed.

Lemma signedInputs_kept (ins : list Transaction.Input) (n : nat)
    (ourScript : bytes) (f : nat -> Transaction.Input -> Transaction.Input) :
  (forall j x, f j x = Transaction.mkInput (Transaction.hash x)
                         (Transaction.index x)
                         (if (j =? n)%nat then ourScript else [])
                         (Transaction.sequence x)) ->
  alter (Transaction.setScript ourScript) n
    (map (Transaction.setScript Transaction.EMPTY_SCRIPT) ins)
  = imap f ins.
Proof.
  intros Hf. apply list_eq. intros j. rewrite list_lookup_imap.
  destruct (Nat.eq_dec j n) as [->|Hne].
  - rewrite list_lookup_alter_eq, list_lookup_fmap.
    destruct (ins !! n) as [x|]; [|reflexivity].
    cbn [fmap option_fmap option_map]. rewrite Hf, Nat.eqb_refl. reflexivity.
  - rewrite list_lookup_alter_ne by congruence.
    rewrite list_lookup_fmap.
    destruct (ins !! j) as [x|]; [|reflexivity].
    cbn [fmap option_fmap option_map]. rewrite Hf.
    destruct (Nat.eqb_spec j n); [contradiction|]. reflexivity.
Qed.

Lemma mutatedClone_computed (tx t1 t2 : Transaction.t) (inIndex hashType : Z)
    (ourScript : bytes) :
  0 <= inIndex ->
  Transaction.signedOutputs tx tx inIndex hashType = Some t1 ->
  Transaction.signedInputs t1 inIndex hashType ourScript = Ok t2 ->
  t2 = Spec.mutatedClone tx (Z.to_nat inIndex) ourScript hashType.
Proof.
  intros H0. destruct tx as [v t l ins outs].
  unfold Transaction.signedOutputs, Transaction.signedInputs,
    Spec.mutatedClone, Spec.sighashInputs, Spec.sighashOutputs.
  rewrite land_toInt32_31.
  unfold Transaction.SIGHASH_NONE, Transaction.SIGHASH_SINGLE,
    Transaction.SIGHASH_ANYONECANPAY.
  rewrite land_toInt32_128.
  cbn [Transaction.outs Transaction.ins Transaction.version Transaction.time
       Transaction.locktime].
  set (n := Z.to_nat inIndex).
  destruct (Z.land hashType 31 =? 2) eqn:Enone.
  - intros [= <-].
    cbn [Transaction.outs Transaction.ins Transaction.version
         Transaction.time Transaction.locktime].
    rewrite ignoreSequences_lookup_self.
    destruct (Z.land hashType 128 =? 0) eqn:Eacp; cbn [negb];
      destruct (ins !! n) as [x|]; try discriminate; intros [= <-]; f_equal.
    + apply signedInputs_zeroed. intros j y. unfold Spec.sighashInput.
      rewrite Enone. cbn [orb negb]. rewrite orb_false_r. reflexivity.
    + unfold Spec.sighashInput, Transaction.setScript.
      rewrite Nat.eqb_refl. reflexivity.
  - destruct (Z.land hashType 31 =? 3) eqn:Esingle.
    + destruct (Z.leb_spec (Z.of_nat (length outs)) inIndex) as [|Hlt];
        [discriminate|].
      intros [= <-].
      cbn [Transaction.outs Transaction.ins Transaction.version
           Transaction.time Transaction.locktime].
      rewrite ignoreSequences_lookup_self.
      destruct (lookup_lt_is_Some_2 outs n) as [o Ho]; [lia|].
      assert (Houts :
        Transaction.blankOutputs n (take (Z.to_nat (inIndex + 1)) outs)
        = replicate n Spec.blank ++ take 1 (drop n outs)).
      { replace (Z.to_nat (inIndex + 1)) with (S n) by lia.
        rewrite (blankOutputs_take n outs o Ho), (drop_S _ _ _ Ho).
        reflexivity. }
      destruct (Z.land hashType 128 =? 0) eqn:Eacp; cbn [negb];
        destruct (ins !! n) as [x|]; try discriminate; intros [= <-];
        (f_equal; [|exact Houts]).
      * apply signedInputs_zeroed. intros j y. unfold Spec.sighashInput.
        rewrite Enone, Esingle. cbn [orb negb]. rewrite orb_false_r.
        reflexivity.
      * unfold Spec.sighashInput, Transaction.setScript.
        rewrite Nat.eqb_refl. reflexivity.
    + intros [= <-].
      cbn [Transaction.outs Transaction.ins Transaction.version
           Transaction.time Transaction.locktime].
      destruct (Z.land hashType 128 =? 0) eqn:Eacp; cbn [negb];
        destruct (ins !! n) as [x|]; try discriminate; intros [= <-]; f_equal.
      * apply signedInputs_kept. intros j y. unfold Spec.sighashInput.
        rewrite Enone, Esingle. cbn [orb negb]. rewrite orb_true_r.
        reflexivity.
      * unfold Spec.sighashInput, Transaction.setScript.
        rewrite Nat.eqb_refl. reflexivity.
Qed.

Section SignatureHash.

Context (junk : nat -> byte).
Context (sha256 : bytes -> bytes).
Context (decompile : bytes -> option (list chunk)).
Context (compile : list chunk -> bytes).

Lemma serializeAndHash_wire (txTmp : Transaction.t) (hashType : Z) :
  WellFormed.writable txTmp = true ->
  WellFormed.int32 hashType = true ->
  Transaction.serializeAndHash junk sha256 txTmp hashType =
  Ok (bcrypto.hash256 sha256
        (Wire.transaction txTmp ++ le_bytes 4 hashType)).
Proof.
  intros Hw Hh. unfold Transaction.serializeAndHash.
  pose proof (length_wire_transaction txTmp Hw) as Hlen.
  set (n := Transaction.byteLength txTmp) in *.
  set (buffer := allocUnsafe junk (n + 4)).
  assert (Hb : length buffer = (n + 4)%nat) by apply length_allocUnsafe.
  rewrite (emits_writeInt32 hashType Hh)
    by (cbn [BufferWriter.buffer BufferWriter.offset]; lia).
  cbn [BufferWriter.buffer BufferWriter.offset].
  rewrite length_le_bytes, Hb.
  destruct (Nat.ltb_spec (n + 4) (n + 4 - 4 + 4)); [lia|].
  rewrite toBufferAt_wire; [|exact Hw|].
  2:{ cbn [BufferWriter.buffer].
      rewrite length_splice by (rewrite length_le_bytes; lia). fold n. lia. }
  cbn [BufferWriter.buffer]. do 2 f_equal.
  replace (n + 4 - 4)%nat with (length (Wire.transaction txTmp)) by lia.
  apply splice_trailer. rewrite length_le_bytes. lia.
Qed.

(** C1, amended. With an unsigned 32-bit [inIndex]: at or past the number
    of inputs the result is [ONE], 31 zero bytes and a final 0x01, whatever
    the script and the hash type. Below it, a script that [decompile]
    rejects makes the call fail with a type error; for a script that
    decompiles, a hash type SINGLE with [inIndex] at or past the number of
    outputs gives [ONE] again, and every other case gives the double hash
    of the serialization of the mutated clone, as the specification words
    that clone, followed by the hash type as four little-endian bytes. *)
Theorem hashForSignature_sentinel_or_digest (tx : Transaction.t)
    (inIndex : Z) (prevOutScript : bytes) (hashType : Z) :
  types.UInt32 inIndex = true ->
  (Z.of_nat (length (Transaction.ins tx)) <= inIndex ->
   Transaction.hashForSignature junk sha256 decompile compile
     tx inIndex prevOutScript hashType = Ok Transaction.ONE) /\
  (inIndex < Z.of_nat (length (Transaction.ins tx)) ->
   decompile prevOutScript = None ->
   Transaction.hashForSignature junk sha256 decompile compile
     tx inIndex prevOutScript hashType = Err TypeError) /\
  (forall chunks,
     inIndex < Z.of_nat (length (Transaction.ins tx)) ->
     decompile prevOutScript = Some chunks ->
     Z.land hashType 31 = Transaction.SIGHASH_SINGLE ->
     Z.of_nat (length (Transaction.outs tx)) <= inIndex ->
     Transaction.hashForSignature junk sha256 decompile compile
       tx inIndex prevOutScript hashType = Ok Transaction.ONE) /\
  (forall chunks,
     inIndex < Z.of_nat (length (Transaction.ins tx)) ->
     decompile prevOutScript = Some chunks ->
     ~ (Z.land hashType 31 = Transaction.SIGHASH_SINGLE /\
        Z.of_nat (length (Transaction.outs tx)) <= inIndex) ->
     WellFormed.transaction tx = true ->
     WellFormed.int32 hashType = true ->
     Transaction.hashForSignature junk sha256 decompile compile
       tx inIndex prevOutScript hashType
     = Ok (bcrypto.hash256 sha256
             (Wire.transaction
                (Spec.mutatedClone tx (Z.to_nat inIndex)
                   (compile (List.filter
                               (fun x => negb (is_OP_CODESEPARATOR x)) chunks))
                   hashType)
              ++ le_bytes 4 hashType))) /\
  Transaction.ONE = replicate 31 x00 ++ [x01] /\
  length Transaction.ONE = 32%nat.
Proof.
  intros Hu. unfold Transaction.hashForSignature. rewrite Hu. simpl negb.
  assert (H0 : 0 <= inIndex).
  { unfold types.UInt32 in Hu. apply andb_true_iff in Hu as [Hu _].
    apply Z.leb_le, Hu. }
  split; [|split; [|split; [|split; [|split; reflexivity]]]].
  - intros Hge. apply Z.leb_le in Hge. rewrite Hge. reflexivity.
  - intros Hlt Hd. apply Z.leb_gt in Hlt. rewrite Hlt, Hd. reflexivity.
  - intros chunks Hlt Hd Hs Ho.
    apply Z.leb_gt in Hlt. rewrite Hlt, Hd.
    assert (Hn : Transaction.signedOutputs tx (Transaction.clone tx)
                   inIndex hashType = None)
      by (apply signedOutputs_None; auto).
    rewrite Hn. reflexivity.
  - intros chunks Hlt Hd Hns Hwf Hh.
    pose proof Hlt as Hlt'. apply Z.leb_gt in Hlt'. rewrite Hlt', Hd.
    rewrite (clone_wellFormed tx Hwf).
    destruct (Transaction.signedOutputs tx tx inIndex hashType)
      as [txTmp1|] eqn:E1.
    2:{ apply signedOutputs_None in E1. tauto. }
    destruct (writable_signedOutputs tx tx txTmp1 inIndex hashType
                (writable_of_wellFormed tx Hwf) E1) as [Hw1 Hl1].
    destruct (writable_signedInputs txTmp1 inIndex hashType
                (compile (List.filter (fun x => negb (is_OP_CODESEPARATOR x)) chunks))
                Hw1) as (txTmp & E2 & Hw2); [lia|].
    rewrite E2.
    rewrite <- (mutatedClone_computed tx txTmp1 txTmp inIndex hashType _
                  H0 E1 E2).
    apply serializeAndHash_wire; assumption.
Qed.

End SignatureHash.

Lemma hashForSignature_sentinel_or_digest_witness :
  Transaction.hashForSignature Example.junk Example.digest Example.decompile
    Example.compile Example.tx 2 [x51] 1 = Ok Transaction.ONE /\
  Transaction.hashForSignature Example.junk Example.digest
    Example.pushDecompile Example.compile Example.tx 1 [x02; x51] 1
  = Err TypeError /\
  Transaction.hashForSignature Example.junk Example.digest Example.decompile
    Example.compile Example.tx 1 [x51; xab; xac] 131
  = Ok (bcrypto.hash256 Example.digest
          (Wire.transaction
             (Spec.mutatedClone Example.tx (Z.to_nat 1)
                (Example.compile
                   (List.filter (fun x => negb (is_OP_CODESEPARATOR x))
                      [Op 81; Op 171; Op 172]))
                131)
           ++ le_bytes 4 131)) /\
  Spec.mutatedClone Example.tx (Z.to_nat 1)
    (Example.compile
       (List.filter (fun x => negb (is_OP_CODESEPARATOR x))
          [Op 81; Op 171; Op 172]))
    131
  = Transaction.mk 1 1645861266 0
      [Transaction.mkInput (replicate 32 x22) 1 [x51; xac] 7]
      [Spec.blank; Example.output1].
Proof.
  split; [|split; [|split]].
  - destruct (hashForSignature_sentinel_or_digest Example.junk Example.digest
                Example.decompile Example.compile Example.tx 2 [x51] 1
                eq_refl) as (H & _).
    apply H. simpl. lia.
  - destruct (hashForSignature_sentinel_or_digest Example.junk Example.digest
                Example.pushDecompile Example.compile Example.tx 1 [x02; x51]
                1 eq_refl) as (_ & H & _).
    apply H.
    + simpl. lia.
    + vm_compute. reflexivity.
  - destruct (hashForSignature_sentinel_or_digest Example.junk Example.digest
                Example.decompile Example.compile Example.tx 1 [x51; xab; xac]
                131 eq_refl) as (_ & _ & _ & H & _).
    apply (H [Op 81; Op 171; Op 172]).
    + simpl. lia.
    + vm_compute. reflexivity.
    + vm_compute. intros [_ H']. apply H'. reflexivity.
    + vm_compute. reflexivity.
    + vm_compute. reflexivity.
  - vm_compute. reflexivity.
Defined.

(** C1 as stated fails for a lock script that [decompile] rejects: the
    script [0x01] announces one byte of data and ends. With hash type SINGLE
    and [inIndex = 1] on a transaction of two inputs and one output the
    claim has the sentinel; the call fails with a type error, since the
    script is decompiled before the hash type is looked at. *)
Lemma sentinel_needs_a_script_that_decompiles :
  Z.land 3 31 = Transaction.SIGHASH_SINGLE /\
  Z.of_nat (length (Transaction.outs Example.twoToOne)) <= 1 /\
  1 < Z.of_nat (length (Transaction.ins Example.twoToOne)) /\
  Example.pushDecompile [x01] = None /\
  Transaction.hashForSignature Example.junk Example.digest
    Example.pushDecompile Example.compile Example.twoToOne 1 [x01] 3
  = Err TypeError /\
  Transaction.hashForSignature Example.junk Example.digest
    Example.pushDecompile Example.compile Example.twoToOne 1 [x01] 3
  <> Ok Transaction.ONE.
Proof.
  split; [reflexivity|]. split; [simpl; lia|]. split; [simpl; lia|].
  split; [vm_compute; reflexivity|].
  split; [vm_compute; reflexivity|]. vm_compute. discriminate.
Qed.

(** ** Block: identifier *)

Lemma toBuffer_headersOnly_same (junk : nat -> byte) (b b' : Block.t) :
  Spec.sameHeader b b' -> Block.toBuffer junk b true = Block.toBuffer junk b' true.
Proof.
  intros (Hv & Hp & Hm & Ht & Hb & Hn). unfold Block.toBuffer.
  assert (Hlen : Block.byteLength b true = Block.byteLength b' true).
  { unfold Block.byteLength.
    destruct (Block.transactions b), (Block.transactions b'); reflexivity. }
  assert (Hh : Block.writeHeader b = Block.writeHeader b').
  { unfold Block.writeHeader. rewrite Hv, Hp, Hm, Ht, Hb, Hn. reflexivity. }
  rewrite Hlen, Hh. unfold bind.
  destruct (Block.writeHeader b' _) as [[[] w]|e]; [|reflexivity].
  destruct (Block.transactions b), (Block.transactions b'); reflexivity.
Qed.

(** C10. [getHash()] is the double hash of [toBuffer(true)], which for a
    block with a well-formed header is the 80 bytes of version, prevHash,
    merkleRoot, timestamp, bits and nonce; two blocks with the same six
    fields have the same [getHash()] and [getId()], with or without
    transactions. *)
Theorem block_getHash_covers_header_only (junk : nat -> byte)
    (sha256 : bytes -> bytes) (b b' : Block.t) :
  Block.getHash junk sha256 b
  = result_map (bcrypto.hash256 sha256) (Block.toBuffer junk b true) /\
  (WellFormed.header b = true ->
   Block.toBuffer junk b true = Ok (Wire.header b) /\
   length (Wire.header b) = 80%nat /\
   Block.getHash junk sha256 b
   = Ok (bcrypto.hash256 sha256 (Wire.header b))) /\
  (Spec.sameHeader b b' ->
   Block.getHash junk sha256 b = Block.getHash junk sha256 b' /\
   Block.getId junk sha256 b = Block.getId junk sha256 b').
Proof.
  split; [reflexivity|]. split.
  - intros Hwf. unfold Block.getHash. rewrite (toBuffer_header junk b Hwf).
    split; [reflexivity|]. split; [apply length_wire_header, Hwf|reflexivity].
  - intros Hs. unfold Block.getId, Block.getHash.
    rewrite (toBuffer_headersOnly_same junk b b' Hs). split; reflexivity.
Qed.

Lemma block_getHash_covers_header_only_witness :
  (Block.toBuffer Example.junk Example.block true
     = Ok (Wire.header Example.block) /\
   length (Wire.header Example.block) = 80%nat /\
   Block.getHash Example.junk Example.digest Example.block
   = Ok (bcrypto.hash256 Example.digest (Wire.header Example.block))) /\
  Block.getHash Example.junk Example.digest Example.block
  = Block.getHash Example.junk Example.digest Example.header /\
  Block.getId Example.junk Example.digest Example.block
  = Block.getId Example.junk Example.digest Example.header.
Proof.
  destruct (block_getHash_covers_header_only Example.junk Example.digest
              Example.block Example.header) as (_ & H1 & H2).
  split; [apply H1; reflexivity|].
  apply H2. repeat split.
Defined.

(** ** Block: target and proof of work *)

Lemma be_value_cons (x : byte) (a : bytes) :
  be_value (x :: a) = Z_of_byte x * 256 ^ Z.of_nat (length a) + be_value a.
Proof.
  unfold be_value. simpl rev.
  assert (Happ : forall u v, le_value (u ++ v)
            = le_value u + 256 ^ Z.of_nat (length u) * le_value v).
  { intros u v. induction u as [|y u IH]; cbn [app le_value length].
    - simpl. lia.
    - rewrite IH, Nat2Z.inj_succ, Z.pow_succ_r by lia. ring. }
  rewrite Happ, length_rev. simpl le_value. ring.
Qed.

Lemma be_value_range (a : bytes) : 0 <= be_value a < 256 ^ Z.of_nat (length a).
Proof.
  unfold be_value. rewrite <- (length_rev a). apply le_value_range.
Qed.

(** On buffers of one length, [compare] orders the big-endian numbers. *)
Lemma compare_be_value (a b : bytes) :
  length a = length b ->
  (compare a b <=? 0) = (be_value a <=? be_value b).
Proof.
  revert b. induction a as [|x a IH]; intros [|y b] Hlen; try discriminate.
  - reflexivity.
  - injection Hlen as Hlen. cbn [compare]. rewrite !be_value_cons, <- Hlen.
    pose proof (be_value_range a) as Ra. pose proof (be_value_range b) as Rb.
    rewrite <- Hlen in Rb.
    assert (HM : 0 < 256 ^ Z.of_nat (length a)) by (apply Z.pow_pos_nonneg; lia).
    destruct (Z.ltb_spec (Z_of_byte x) (Z_of_byte y)) as [Hxy|Hxy].
    + symmetry. apply Z.leb_le. nia.
    + destruct (Z.ltb_spec (Z_of_byte y) (Z_of_byte x)) as [Hyx|Hyx].
      * symmetry. apply Z.leb_gt. nia.
      * assert (E : Z_of_byte x = Z_of_byte y) by lia. rewrite E, (IH b Hlen).
        destruct (Z.leb_spec (be_value a) (be_value b));
          symmetry; [apply Z.leb_le|apply Z.leb_gt]; lia.
Qed.

Lemma toInt32_land_high (x : Z) :
  Z.shiftr (Z.land x (toInt32 4278190080)) 24 = x / 2 ^ 24.
Proof.
  change (toInt32 4278190080) with (Z.lnot (Z.ones 24)).
  rewrite <- Z.ldiff_land, Z.ldiff_ones_r by lia.
  rewrite Z.shiftr_shiftl_l by lia. rewrite Z.sub_diag, Z.shiftl_0_r.
  apply Z.shiftr_div_pow2. lia.
Qed.

Lemma length_target (bits : Z) :
  3 <= Spec.exponent bits <= 32 -> length (Spec.target bits) = 32%nat.
Proof.
  intros H. unfold Spec.target, be_bytes.
  rewrite !length_app, !length_replicate, length_rev, length_le_bytes. lia.
Qed.

(** [calculateTarget] on an unsigned 32-bit [bits]: the target when the
    exponent byte is between 3 and 32, and an out-of-bounds write of the
    mantissa otherwise. *)
Lemma calculateTarget_spec (bits : Z) :
  WellFormed.uint32 bits = true ->
  Block.calculateTarget bits =
  if (3 <=? Spec.exponent bits) && (Spec.exponent bits <=? 32)
  then Ok (Spec.target bits) else Err OutOfBounds.
Proof.
  unfold WellFormed.uint32. rewrite andb_true_iff, Z.leb_le, Z.ltb_lt.
  intros Hb. unfold Block.calculateTarget, Block.writeUIntBE.
  rewrite toInt32_land_high.
  change 8388607 with (Z.ones 23). rewrite Z.land_ones by lia.
  rewrite (toInt32_mod bits (2 ^ 23)) by (try lia; exists (2 ^ 9); reflexivity).
  pose proof (Z.mod_pos_bound bits (2 ^ 23) ltac:(lia)) as Hm.
  replace ((0 <=? bits mod 2 ^ 23) && (bits mod 2 ^ 23 <? 256 ^ Z.of_nat 3))
    with true by (symmetry; apply andb_true_iff; split;
                  [apply Z.leb_le|apply Z.ltb_lt]; simpl; lia).
  cbn [negb]. unfold alloc. rewrite length_replicate.
  unfold Spec.exponent.
  assert (He : 0 <= bits / 2 ^ 24 < 256).
  { split; [apply Z.div_pos; lia|apply Z.div_lt_upper_bound; lia]. }
  destruct (Z.ltb_spec bits (2 ^ 31)) as [Hlow|Hhigh].
  - rewrite toInt32_int32
      by (unfold WellFormed.int32; apply andb_true_iff; split;
          [apply Z.leb_le|apply Z.ltb_lt]; lia).
    set (e := bits / 2 ^ 24) in *.
    destruct (Z.leb_spec 3 e) as [H3|H3]; destruct (Z.leb_spec e 32) as [H32|H32];
      cbn [andb].
    + replace ((0 <=? 29 - (e - 3)) && (29 - (e - 3) + Z.of_nat 3 <=? Z.of_nat 32))
        with true by (symmetry; apply andb_true_iff; split; apply Z.leb_le; lia).
      cbn [negb]. f_equal. unfold splice, Spec.target, Spec.mantissa.
      change (Spec.exponent bits) with e.
      rewrite take_replicate, drop_replicate.
      unfold be_bytes. rewrite length_rev, length_le_bytes.
      f_equal; [f_equal; lia|]. f_equal. f_equal. lia.
    + replace ((0 <=? 29 - (e - 3)) && (29 - (e - 3) + Z.of_nat 3 <=? Z.of_nat 32))
        with false; [reflexivity|].
      symmetry. apply andb_false_iff. left. apply Z.leb_gt. lia.
    + replace ((0 <=? 29 - (e - 3)) && (29 - (e - 3) + Z.of_nat 3 <=? Z.of_nat 32))
        with false; [reflexivity|].
      symmetry. apply andb_false_iff. right. apply Z.leb_gt. lia.
    + lia.
  - assert (Hhi : 128 <= bits / 2 ^ 24) by (apply Z.div_le_lower_bound; lia).
    replace ((3 <=? bits / 2 ^ 24) && (bits / 2 ^ 24 <=? 32)) with false
      by (symmetry; apply andb_false_iff; right; apply Z.leb_gt; lia).
    assert (Ht : toInt32 bits = bits - 2 ^ 32).
    { unfold toInt32. rewrite <- (Z.mod_add _ (-1)) by lia.
      rewrite Z.mod_small by lia. lia. }
    rewrite Ht.
    assert (Hneg : (bits - 2 ^ 32) / 2 ^ 24 < 0)
      by (apply Z.div_lt_upper_bound; lia).
    replace ((0 <=? 29 - ((bits - 2 ^ 32) / 2 ^ 24 - 3))
             && (29 - ((bits - 2 ^ 32) / 2 ^ 24 - 3) + Z.of_nat 3 <=? Z.of_nat 32))
      with false; [reflexivity|].
    symmetry. apply andb_false_iff. right. apply Z.leb_gt. lia.
Qed.

(** C5, amended. For a block with a well-formed header whose exponent
    byte is between 3 and 32, [calculateTarget(bits)] is the 32-byte buffer
    with the three mantissa bytes at offset [29 - (exponent - 3)] and zeros
    elsewhere, and [checkProofOfWork()] tells whether the reversed block
    hash, as a big-endian number, is at most the target; for any other
    exponent byte both fail on the out-of-bounds write. *)
Theorem checkProofOfWork_compares_with_target (junk : nat -> byte)
    (sha256 : bytes -> bytes) (b : Block.t) :
  (forall m, length (sha256 m) = 32%nat) ->
  WellFormed.header b = true ->
  (3 <= Spec.exponent (Block.bits b) <= 32 ->
   Block.calculateTarget (Block.bits b) = Ok (Spec.target (Block.bits b)) /\
   length (Spec.target (Block.bits b)) = 32%nat /\
   exists h,
     Block.getHash junk sha256 b = Ok h /\
     Block.checkProofOfWork junk sha256 b
     = Ok (be_value (reverseBuffer h)
           <=? be_value (Spec.target (Block.bits b)))) /\
  (~ 3 <= Spec.exponent (Block.bits b) <= 32 ->
   Block.calculateTarget (Block.bits b) = Err OutOfBounds /\
   Block.checkProofOfWork junk sha256 b = Err OutOfBounds).
Proof.
  intros Hlen Hwf.
  assert (Hbits : WellFormed.uint32 (Block.bits b) = true).
  { unfold WellFormed.header in Hwf. rewrite !andb_true_iff in Hwf. tauto. }
  pose proof (calculateTarget_spec (Block.bits b) Hbits) as Hct.
  unfold Block.checkProofOfWork, Block.getHash.
  rewrite (toBuffer_header junk b Hwf). cbn [result_map].
  split.
  - intros [H3 H32].
    apply Z.leb_le in H3 as H3'. apply Z.leb_le in H32 as H32'.
    rewrite H3', H32' in Hct. cbn [andb] in Hct. rewrite Hct.
    split; [reflexivity|]. split; [apply length_target; lia|].
    eexists. split; [reflexivity|]. f_equal.
    apply compare_be_value.
    unfold reverseBuffer, bcrypto.hash256.
    rewrite length_rev, Hlen, length_target by lia. reflexivity.
  - intros Hout.
    replace ((3 <=? Spec.exponent (Block.bits b))
             && (Spec.exponent (Block.bits b) <=? 32)) with false in Hct.
    + rewrite Hct. split; reflexivity.
    + symmetry. apply andb_false_iff.
      destruct (Z.leb_spec 3 (Spec.exponent (Block.bits b))); [|auto].
      right. apply Z.leb_gt. lia.
Qed.

Lemma length_round (s : list Z) (kw : Z * Z) :
  length (SHA256.round s kw) = length s.
Proof.
  unfold SHA256.round.
  do 9 (destruct s as [|? s]; [reflexivity|]). reflexivity.
Qed.

Lemma length_compress (h : list Z) (block : bytes) :
  length (SHA256.compress h block) = length h.
Proof.
  unfold SHA256.compress. rewrite length_map, length_combine.
  assert (H : forall l s, length (fold_left SHA256.round l s) = length s).
  { intros l. induction l as [|kw l IH]; intros s; simpl; [reflexivity|].
    rewrite IH. apply length_round. }
  rewrite H. lia.
Qed.

Lemma length_sha256 (msg : bytes) : length (SHA256.sha256 msg) = 32%nat.
Proof.
  unfold SHA256.sha256.
  assert (H : forall n h m, length (SHA256.blocks n h m) = length h).
  { intros n. induction n as [|n IH]; intros h m; simpl; [reflexivity|].
    rewrite IH. apply length_compress. }
  assert (F : forall l, length (flat_map (be_bytes 4) l) = (4 * length l)%nat).
  { intros l. induction l as [|x l IH]; [reflexivity|].
    cbn [flat_map]. rewrite length_app, IH. unfold be_bytes.
    rewrite length_rev, length_le_bytes. simpl length. lia. }
  rewrite F, H. reflexivity.
Qed.

Lemma checkProofOfWork_compares_with_target_witness :
  Block.calculateTarget (Block.bits Example.easy)
  = Ok (Spec.target (Block.bits Example.easy)) /\
  length (Spec.target (Block.bits Example.easy)) = 32%nat /\
  exists h,
    Block.getHash Example.junk Example.digest Example.easy = Ok h /\
    Block.checkProofOfWork Example.junk Example.digest Example.easy
    = Ok (be_value (reverseBuffer h)
          <=? be_value (Spec.target (Block.bits Example.easy))).
Proof.
  apply (checkProofOfWork_compares_with_target Example.junk Example.digest
           Example.easy length_sha256 eq_refl).
  vm_compute. split; discriminate.
Defined.

(** C5 as stated fails: [bits = 0x2100ffff] stands for [0xffff * 256 ^ 30],
    the block hash is below it, and yet there is neither a target buffer
    nor an answer, because the mantissa would start one byte before the
    buffer. *)
Lemma checkProofOfWork_fails_on_wide_target :
  Block.calculateTarget (Block.bits Example.wideTarget) = Err OutOfBounds /\
  Block.checkProofOfWork Example.junk Example.digest Example.wideTarget
  = Err OutOfBounds /\
  exists h,
    Block.getHash Example.junk Example.digest Example.wideTarget = Ok h /\
    be_value (reverseBuffer h)
    <= Spec.mantissa (Block.bits Example.wideTarget)
       * 256 ^ (Spec.exponent (Block.bits Example.wideTarget) - 3).
Proof.
  split; [reflexivity|]. split; [vm_compute; reflexivity|].
  eexists. split; [vm_compute; reflexivity|].
  vm_compute. discriminate.
Qed.

(** ** The merkle routine against the level-by-level root *)

Lemma insert_middle {A} (l1 l2 : list A) (x y : A) :
  <[length l1 := y]> (l1 ++ x :: l2) = l1 ++ y :: l2.
Proof.
  rewrite insert_app_r_alt by lia. rewrite Nat.sub_diag. reflexivity.
Qed.

Section MerkleRefinement.

Context (digestFn : bytes -> bytes).

Lemma length_pairs (l : list bytes) :
  length (Spec.pairs digestFn l) = ((length l + 1) / 2)%nat.
Proof.
  assert (H : forall n l, (length l <= n)%nat ->
            length (Spec.pairs digestFn l) = ((length l + 1) / 2)%nat).
  { clear l. intros n. induction n as [|n IH]; intros l Hl.
    - destruct l; [reflexivity|simpl in Hl; lia].
    - destruct l as [|x [|y l]]; [reflexivity|reflexivity|].
      cbn [Spec.pairs length]. rewrite IH by (simpl in Hl; lia).
      replace (S (S (length l)) + 1)%nat with (length l + 1 + 1 * 2)%nat by lia.
      rewrite Nat.div_add by lia. lia. }
  apply (H (length l)). lia.
Qed.

Lemma level_done (fuel n i j : nat) (results : list bytes) :
  (n <= i)%nat -> merkle.level digestFn fuel n i j results = (results, j).
Proof.
  intros H. destruct fuel; simpl; [reflexivity|].
  destruct (Nat.ltb_spec i n); [lia|reflexivity].
Qed.

(** One pass of the inner loop: with [j] nodes written, the next [i - j]
    cells already consumed and [X] still to pair, the pass leaves the
    written nodes followed by the pairs of [X]. *)
Lemma level_pairs (fuel : nat) :
  forall (X pre dead garbage : list bytes),
    (length X <= 2 * fuel)%nat ->
    exists rest,
      merkle.level digestFn fuel (length pre + length dead + length X)
        (length pre + length dead) (length pre)
        (pre ++ dead ++ X ++ garbage)
      = (pre ++ Spec.pairs digestFn X ++ rest,
         (length pre + length (Spec.pairs digestFn X))%nat).
Proof.
  induction fuel as [|fuel IH]; intros X pre dead garbage HX.
  - destruct X; [|simpl in HX; lia]. exists (dead ++ garbage).
    simpl. rewrite Nat.add_0_r. reflexivity.
  - destruct X as [|x [|y X]].
    + exists (dead ++ garbage). rewrite level_done by (simpl; lia).
      simpl. rewrite Nat.add_0_r. reflexivity.
    + cbn [merkle.level length].
      destruct (Nat.ltb_spec (length pre + length dead)
                  (length pre + length dead + 1)); [|lia].
      rewrite Nat.eqb_refl.
      assert (Hx : (pre ++ dead ++ [x] ++ garbage) !! (length pre + length dead)%nat
                   = Some x).
      { rewrite app_assoc. apply list_lookup_middle. rewrite length_app. lia. }
      rewrite Hx. cbn [default]. rewrite level_done by lia.
      destruct dead as [|d dead]; cbn [app length Spec.pairs].
      * exists garbage. f_equal. apply insert_middle.
      * exists (dead ++ x :: garbage). f_equal. apply insert_middle.
    + set (results := pre ++ dead ++ (x :: y :: X) ++ garbage).
      assert (Hx : results !! (length pre + length dead)%nat = Some x).
      { unfold results. rewrite app_assoc. apply list_lookup_middle.
        rewrite length_app. lia. }
      assert (Hy : results !! (length pre + length dead + 1)%nat = Some y).
      { unfold results.
        change ((x :: y :: X) ++ garbage) with ([x] ++ y :: X ++ garbage).
        rewrite !app_assoc. apply list_lookup_middle.
        rewrite !length_app. simpl. lia. }
      set (h := digestFn (x ++ y)).
      assert (Hins : exists dead',
                <[length pre := h]> results
                = (pre ++ [h]) ++ dead' ++ X ++ garbage /\
                length dead' = S (length dead)).
      { unfold results. destruct dead as [|d dead]; cbn [app].
        - exists [y]. rewrite insert_middle, <- app_assoc.
          split; reflexivity.
        - exists (dead ++ [x; y]). rewrite insert_middle, <- !app_assoc.
          split; [reflexivity|]. rewrite length_app. simpl. lia. }
      destruct Hins as (dead' & Hins & Hd).
      destruct (IH X (pre ++ [h]) dead' garbage) as [rest Hrest];
        [simpl in HX; lia|].
      exists rest. rewrite length_app in Hrest. cbn [length] in Hrest.
      replace (length pre + 1 + length dead' + length X)%nat
        with (length pre + length dead + S (S (length X)))%nat in Hrest by lia.
      replace (length pre + 1 + length dead')%nat
        with (length pre + length dead + 2)%nat in Hrest by lia.
      cbn [merkle.level length].
      destruct (Nat.ltb_spec (length pre + length dead)
                  (length pre + length dead + S (S (length X)))); [|lia].
      destruct (Nat.eqb_spec (length pre + length dead + 1)
                  (length pre + length dead + S (S (length X)))); [lia|].
      rewrite Hx, Hy. cbn [default]. unfold id. fold h. rewrite Hins, Hrest.
      cbn [Spec.pairs length]. fold h.
      rewrite <- app_assoc. f_equal. lia.
Qed.

Lemma levels_root (fuel : nat) :
  forall (L garbage : list bytes),
    L <> [] -> (length L <= S fuel)%nat ->
    exists r rest,
      merkle.levels digestFn fuel (length L) (L ++ garbage) = r :: rest /\
      Spec.root digestFn fuel L = Some r.
Proof.
  induction fuel as [|fuel IH]; intros L garbage Hne Hlen.
  - destruct L as [|r [|y L]]; [congruence| |simpl in Hlen; lia].
    exists r, garbage. split; reflexivity.
  - destruct L as [|x [|y L]]; [congruence| |].
    + exists x, garbage. split; reflexivity.
    + cbn [merkle.levels].
      destruct (Nat.ltb_spec 1 (length (x :: y :: L))); [|simpl in *; lia].
      destruct (level_pairs (length (x :: y :: L)) (x :: y :: L) [] [] garbage)
        as [rest Hrest]; [lia|].
      cbn [app length Nat.add] in Hrest. cbn [app length].
      rewrite Hrest.
      destruct (IH (Spec.pairs digestFn (x :: y :: L)) rest) as (r & rest' & H1 & H2).
      * discriminate.
      * rewrite length_pairs. cbn [length] in *.
        pose proof (Nat.div_mod_eq (S (S (length L)) + 1) 2) as Hdm.
        pose proof (Nat.mod_upper_bound (S (S (length L)) + 1) 2) as Hmb.
        lia.
      * exists r, rest'. split; [exact H1|exact H2].
Qed.

(** The in-place routine computes the level-by-level root. *)
Lemma fastRoot_merkleRoot (values : list bytes) :
  merkle.fastRoot digestFn values = Spec.merkleRoot digestFn values.
Proof.
  unfold merkle.fastRoot, Spec.merkleRoot.
  destruct values as [|v values]; [reflexivity|].
  destruct (levels_root (length (v :: values)) (v :: values) [])
    as (r & rest & H1 & H2); [discriminate|lia|].
  rewrite app_nil_r in H1. rewrite H1, H2. reflexivity.
Qed.

Lemma merkleRoot_is_Some (leaves : list bytes) :
  leaves <> [] -> exists r, Spec.merkleRoot digestFn leaves = Some r.
Proof.
  intros Hne. unfold Spec.merkleRoot.
  destruct (levels_root (length leaves) leaves []) as (r & _ & _ & H);
    [exact Hne|lia|eauto].
Qed.

End MerkleRefinement.

Section MerkleRoot.

Context (junk : nat -> byte).
Context (sha256 : bytes -> bytes).

Lemma getHash_identifierHash (tx : Transaction.t) :
  WellFormed.writable tx = true ->
  Transaction.getHash junk sha256 tx = Ok (Spec.identifierHash sha256 tx).
Proof.
  intros Hw. unfold Transaction.getHash, Spec.identifierHash.
  destruct (isCoinbase_writable tx Hw) as [c ->].
  destruct c; [reflexivity|]. rewrite (toBuffer_wire junk tx Hw). reflexivity.
Qed.

Lemma getHashes_identifierHash (txs : list Transaction.t) :
  Forall (fun tx => WellFormed.writable tx = true) txs ->
  Block.getHashes junk sha256 txs = Ok (map (Spec.identifierHash sha256) txs).
Proof.
  induction 1 as [|tx txs Hw _ IH]; [reflexivity|].
  cbn [Block.getHashes map].
  rewrite (getHash_identifierHash tx Hw), IH. reflexivity.
Qed.

(** C4, amended. [calculateMerkleRoot] fails with 'Cannot compute merkle
    root for zero transactions' exactly on the empty list. On a non-empty
    list it is the root of the levels built over the identifier hashes in
    order, each level pairing adjacent nodes left to right, a last node
    without partner with itself, by the double hash of the concatenation.
    One transaction gives its identifier hash; [A, B] gives the double hash
    of the two identifier hashes, which is
    [doubleHash(doubleHash(A) || doubleHash(B))] when neither is a coinbase;
    [A, B, C] pairs [C] with itself. *)
Theorem calculateMerkleRoot_levels (txs : list Transaction.t) :
  Forall (fun tx => WellFormed.writable tx = true) txs ->
  (Block.calculateMerkleRoot junk sha256 txs = Err MerkleNoTxes <-> txs = []) /\
  Forall (fun tx => Transaction.getHash junk sha256 tx
                    = Ok (Spec.identifierHash sha256 tx)) txs /\
  (txs <> [] ->
   exists root,
     Spec.merkleRoot (bcrypto.hash256 sha256)
       (map (Spec.identifierHash sha256) txs) = Some root /\
     Block.calculateMerkleRoot junk sha256 txs = Ok root) /\
  (forall A, txs = [A] ->
     Block.calculateMerkleRoot junk sha256 txs
     = Ok (Spec.identifierHash sha256 A)) /\
  (forall A B, txs = [A; B] ->
     Block.calculateMerkleRoot junk sha256 txs
     = Ok (bcrypto.hash256 sha256
             (Spec.identifierHash sha256 A ++ Spec.identifierHash sha256 B)) /\
     (Transaction.isCoinbase A <> Ok true ->
      Transaction.isCoinbase B <> Ok true ->
      Block.calculateMerkleRoot junk sha256 txs
      = Ok (bcrypto.hash256 sha256
              (bcrypto.hash256 sha256 (Wire.transaction A) ++
               bcrypto.hash256 sha256 (Wire.transaction B))))) /\
  (forall A B C, txs = [A; B; C] ->
     Block.calculateMerkleRoot junk sha256 txs
     = Ok (bcrypto.hash256 sha256
             (bcrypto.hash256 sha256
                (Spec.identifierHash sha256 A ++ Spec.identifierHash sha256 B) ++
              bcrypto.hash256 sha256
                (Spec.identifierHash sha256 C ++ Spec.identifierHash sha256 C)))).
Proof.
  intros Hw.
  assert (Hroot : txs <> [] ->
            exists root,
              Spec.merkleRoot (bcrypto.hash256 sha256)
                (map (Spec.identifierHash sha256) txs) = Some root /\
              Block.calculateMerkleRoot junk sha256 txs = Ok root).
  { intros Hne. unfold Block.calculateMerkleRoot.
    destruct txs as [|tx txs']; [congruence|]. cbn [length Nat.eqb].
    rewrite (getHashes_identifierHash _ Hw), fastRoot_merkleRoot.
    destruct (merkleRoot_is_Some (bcrypto.hash256 sha256)
                (map (Spec.identifierHash sha256) (tx :: txs')))
      as [r Hr]; [discriminate|].
    exists r. rewrite Hr. split; reflexivity. }
  assert (Hcalc : forall r,
            txs <> [] ->
            Spec.merkleRoot (bcrypto.hash256 sha256)
              (map (Spec.identifierHash sha256) txs) = Some r ->
            Block.calculateMerkleRoot junk sha256 txs = Ok r).
  { intros r Hne Hr. destruct (Hroot Hne) as (r' & Hr' & ->). congruence. }
  split; [|split; [|split; [exact Hroot|split; [|split]]]].
  - split.
    + intros He. destruct txs; [reflexivity|].
      destruct Hroot as (r & _ & Hr); [discriminate|]. congruence.
    + intros ->. reflexivity.
  - eapply Forall_impl; [exact Hw|]. intros tx. apply getHash_identifierHash.
  - intros A ->. apply Hcalc; [discriminate|reflexivity].
  - intros A B ->. split; [apply Hcalc; [discriminate|reflexivity]|].
    intros HA HB. rewrite (Hcalc _ ltac:(discriminate) eq_refl).
    unfold Spec.identifierHash.
    destruct (Transaction.isCoinbase A) as [[|]|]; try congruence;
      destruct (Transaction.isCoinbase B) as [[|]|]; try congruence.
  - intros A B C ->. apply Hcalc; [discriminate|reflexivity].
Qed.

End MerkleRoot.

Lemma calculateMerkleRoot_levels_witness :
  Block.calculateMerkleRoot Example.junk Example.digest [Example.tx; Example.tx]
  = Ok (bcrypto.hash256 Example.digest
          (bcrypto.hash256 Example.digest (Wire.transaction Example.tx) ++
           bcrypto.hash256 Example.digest (Wire.transaction Example.tx))) /\
  Block.calculateMerkleRoot Example.junk Example.digest
    [Example.coinbase; Example.tx; Example.tx]
  = Ok (bcrypto.hash256 Example.digest
          (bcrypto.hash256 Example.digest
             (Spec.identifierHash Example.digest Example.coinbase ++
              Spec.identifierHash Example.digest Example.tx) ++
           bcrypto.hash256 Example.digest
             (Spec.identifierHash Example.digest Example.tx ++
              Spec.identifierHash Example.digest Example.tx))).
Proof.
  split.
  - assert (Hw : Forall (fun tx => WellFormed.writable tx = true)
                   [Example.tx; Example.tx])
      by (repeat constructor).
    destruct (calculateMerkleRoot_levels Example.junk Example.digest _ Hw)
      as (_ & _ & _ & _ & H & _).
    apply (H Example.tx Example.tx eq_refl); vm_compute; discriminate.
  - assert (Hw : Forall (fun tx => WellFormed.writable tx = true)
                   [Example.coinbase; Example.tx; Example.tx])
      by (repeat constructor).
    destruct (calculateMerkleRoot_levels Example.junk Example.digest _ Hw)
      as (_ & _ & _ & _ & _ & H).
    apply (H Example.coinbase Example.tx Example.tx eq_refl).
Defined.

(** C4 as stated fails on the usual shape of a block, a coinbase followed by
    a payment: the leaf of the coinbase is 32 zero bytes, not the double
    hash of its serialization. *)
Lemma merkleRoot_of_coinbase_pair_differs :
  Block.calculateMerkleRoot Example.junk Example.digest
    [Example.coinbase; Example.tx]
  = Ok (bcrypto.hash256 Example.digest
          (replicate 32 x00 ++
           bcrypto.hash256 Example.digest (Wire.transaction Example.tx))) /\
  Block.calculateMerkleRoot Example.junk Example.digest
    [Example.coinbase; Example.tx]
  <> Ok (bcrypto.hash256 Example.digest
           (bcrypto.hash256 Example.digest (Wire.transaction Example.coinbase) ++
            bcrypto.hash256 Example.digest (Wire.transaction Example.tx))).
Proof.
  split; [vm_compute; reflexivity|vm_compute; discriminate].
Qed.

(** ** The object graph: what [hashForSignature] writes *)

Section HeapFrame.

Import Heap.

Lemma hbind_inv {A B} (m : H A) (k : A -> H B) (h h' : heap) (r : result B) :
  hbind m k h = (r, h') ->
  (exists a h1, m h = (Ok a, h1) /\ k a h1 = (r, h')) \/
  (exists e, m h = (Err e, h') /\ r = Err e).
Proof.
  unfold hbind. destruct (m h) as [[a|e] h1].
  - intros Hk. left. eauto.
  - intros [= <- <-]. right. eauto.
Qed.

Lemma alloc_inv (o : object) (h h' : heap) (r : result loc) :
  alloc o h = (r, h') ->
  exists l, r = Ok l /\ h' = <[l := o]> h /\ h !! l = None.
Proof.
  unfold alloc. intros [= <- <-]. exists (fresh (dom h)).
  repeat split. apply not_elem_of_dom, is_fresh.
Qed.

Lemma getArray_inv (l : loc) (h h' : heap) (r : result (list loc)) :
  getArray l h = (r, h') ->
  h' = h /\ forall elems, r = Ok elems -> h !! l = Some (OArray elems).
Proof.
  unfold getArray. destruct (h !! l) as [[]|]; intros [= <- <-];
    split; try reflexivity; intros es [=]. subst. reflexivity.
Qed.

Lemma getBuffer_inv (l : loc) (h h' : heap) (r : result bytes) :
  getBuffer l h = (r, h') -> h' = h.
Proof.
  unfold getBuffer. destruct (h !! l) as [[]|]; intros [= <- <-]; reflexivity.
Qed.

Lemma withTransaction_inv {A} (l : loc) (k : Z -> Z -> Z -> loc -> loc -> H A)
    (h h' : heap) (r : result A) :
  withTransaction l k h = (r, h') ->
  (exists v t lt ins outs,
     h !! l = Some (OTransaction v t lt ins outs) /\
     k v t lt ins outs h = (r, h')) \/
  (h' = h /\ r = Err TypeError).
Proof.
  unfold withTransaction. destruct (h !! l) as [[]|];
    try (intros [= <- <-]; right; split; reflexivity).
  intros Hk. left. eauto 10.
Qed.

Lemma withInput_inv {A} (l : loc) (k : loc -> Z -> loc -> Z -> H A)
    (h h' : heap) (r : result A) :
  withInput l k h = (r, h') ->
  (exists a b c d, h !! l = Some (OInput a b c d) /\ k a b c d h = (r, h')) \/
  (h' = h /\ r = Err TypeError).
Proof.
  unfold withInput. destruct (h !! l) as [[]|];
    try (intros [= <- <-]; right; split; reflexivity).
  intros Hk. left. eauto 10.
Qed.

Lemma withOutput_inv {A} (l : loc) (k : loc -> option Z -> option loc -> H A)
    (h h' : heap) (r : result A) :
  withOutput l k h = (r, h') ->
  (exists a b c, h !! l = Some (OOutput a b c) /\ k a b c h = (r, h')) \/
  (h' = h /\ r = Err TypeError).
Proof.
  unfold withOutput. destruct (h !! l) as [[]|];
    try (intros [= <- <-]; right; split; reflexivity).
  intros Hk. left. eauto 10.
Qed.

Lemma Forall_fresh_weaken (h h1 : heap) (ls : list loc) :
  h ⊆ h1 ->
  Forall (fun l => h1 !! l = None) ls -> Forall (fun l => h !! l = None) ls.
Proof.
  intros Hs Hf. eapply Forall_impl; [exact Hf|]. intros l Hl. simpl in Hl.
  eapply lookup_weaken_None; eassumption.
Qed.

(** An allocating [map]: the store only grows, and every location answered
    is new. *)
Lemma mapH_allocates {A} (f : A -> H loc) :
  (forall x h r h', f x h = (r, h') ->
     h ⊆ h' /\ forall l, r = Ok l -> h !! l = None) ->
  forall ls h r h', mapH f ls h = (r, h') ->
    h ⊆ h' /\ forall news, r = Ok news -> Forall (fun l => h !! l = None) news.
Proof.
  intros Hf ls. induction ls as [|x ls IH]; intros h r h' Hm; simpl in Hm.
  - injection Hm as <- <-. split; [reflexivity|]. intros news [= <-]. constructor.
  - apply hbind_inv in Hm as [(y & h1 & Hx & Hm)|(e & Hx & ->)].
    + destruct (Hf _ _ _ _ Hx) as [Hsub Hy]. specialize (Hy y eq_refl).
      apply hbind_inv in Hm as [(ys & h2 & Hxs & Hm)|(e & Hxs & ->)].
      * injection Hm as <- <-. destruct (IH _ _ _ Hxs) as [Hsub2 Hys].
        split; [etrans; eassumption|]. intros news [= <-].
        constructor; [exact Hy|].
        eapply Forall_fresh_weaken; [exact Hsub|]. apply Hys. reflexivity.
      * destruct (IH _ _ _ Hxs) as [Hsub2 _].
        split; [etrans; eassumption|]. intros news [=].
    + destruct (Hf _ _ _ _ Hx) as [Hsub _]. split; [exact Hsub|].
      intros news [=].
Qed.

Lemma cloneInput_allocates (x : loc) (h : heap) (r : result loc) (h' : heap) :
  withInput x (fun hash index script sequence =>
                 alloc (OInput hash index script sequence)) h = (r, h') ->
  h ⊆ h' /\ forall l, r = Ok l -> h !! l = None.
Proof.
  intros Hw. apply withInput_inv in Hw as [(a & b & c & d & _ & Ha)|[-> ->]].
  - apply alloc_inv in Ha as (l & -> & -> & Hl).
    split; [apply insert_subseteq, Hl|]. intros l' [= <-]. exact Hl.
  - split; [reflexivity|]. intros l [=].
Qed.

Lemma cloneOutput_allocates (x : loc) (h : heap) (r : result loc) (h' : heap) :
  withOutput x (fun script value _ => alloc (OOutput script value None)) h
  = (r, h') ->
  h ⊆ h' /\ forall l, r = Ok l -> h !! l = None.
Proof.
  intros Hw. apply withOutput_inv in Hw as [(a & b & c & _ & Ha)|[-> ->]].
  - apply alloc_inv in Ha as (l & -> & -> & Hl).
    split; [apply insert_subseteq, Hl|]. intros l' [= <-]. exact Hl.
  - split; [reflexivity|]. intros l [=].
Qed.

(** [clone] writes nothing that was there, and what it answers is new: the
    transaction, both arrays, every input. *)
Lemma clone_inv (h0 h h' : heap) (this : loc) (r : result loc) :
  h0 ⊆ h ->
  clone this h = (r, h') ->
  h0 ⊆ h' /\ forall txTmp, r = Ok txTmp -> cloneInv h0 h' txTmp.
Proof.
  intros H0 Hc. unfold clone in Hc.
  apply withTransaction_inv in Hc as [(v & t & lt & ins & outs & Hthis & Hc)|[-> ->]].
  2:{ split; [exact H0|]. intros ? [=]. }
  apply hbind_inv in Hc as [(txIns & h1 & Hg & Hc)|(e & Hg & ->)].
  2:{ apply getArray_inv in Hg as [-> _]. split; [exact H0|]. intros ? [=]. }
  apply getArray_inv in Hg as [-> _].
  apply hbind_inv in Hc as [(newIns & h2 & Hm & Hc)|(e & Hm & ->)].
  2:{ apply (mapH_allocates _ cloneInput_allocates) in Hm as [Hs _].
      split; [etrans; eassumption|]. intros ? [=]. }
  apply (mapH_allocates _ cloneInput_allocates) in Hm as [Hs2 Hnew].
  specialize (Hnew newIns eq_refl).
  apply hbind_inv in Hc as [(ia & h3 & Ha & Hc)|(e & Ha & ->)].
  2:{ apply alloc_inv in Ha as (l & [=] & _). }
  apply alloc_inv in Ha as (? & [= <-] & -> & Hia).
  assert (Hs3 : h ⊆ <[ia := OArray newIns]> h2)
    by (etrans; [exact Hs2|apply insert_subseteq, Hia]).
  apply hbind_inv in Hc as [(txOuts & h4 & Hg & Hc)|(e & Hg & ->)].
  2:{ apply getArray_inv in Hg as [-> _].
      split; [etrans; eassumption|]. intros ? [=]. }
  apply getArray_inv in Hg as [-> _].
  apply hbind_inv in Hc as [(newOuts & h5 & Hm & Hc)|(e & Hm & ->)].
  2:{ apply (mapH_allocates _ cloneOutput_allocates) in Hm as [Hs _].
      split; [etrans; [exact H0|etrans; eassumption]|]. intros ? [=]. }
  apply (mapH_allocates _ cloneOutput_allocates) in Hm as [Hs5 _].
  apply hbind_inv in Hc as [(oa & h6 & Ha & Hc)|(e & Ha & ->)].
  2:{ apply alloc_inv in Ha as (l & [=] & _). }
  apply alloc_inv in Ha as (? & [= <-] & -> & Hoa).
  apply alloc_inv in Hc as (txTmp & -> & -> & Htx).
  assert (Hs6 : h ⊆ <[oa := OArray newOuts]> h5)
    by (etrans; [exact Hs3|etrans; [exact Hs5|apply insert_subseteq, Hoa]]).
  assert (Hs7 : h0 ⊆ <[txTmp := OTransaction v t lt ia oa]>
                       (<[oa := OArray newOuts]> h5))
    by (etrans; [exact H0|etrans; [exact Hs6|apply insert_subseteq, Htx]]).
  split; [exact Hs7|]. intros ? [= <-].
  assert (Hia5 : h5 !! ia = Some (OArray newIns))
    by (eapply lookup_weaken; [apply lookup_insert_eq|exact Hs5]).
  assert (Hne : ia <> oa) by congruence.
  split; [exact Hs7|]. split.
  { eapply lookup_weaken_None; [exact Htx|]. etrans; [exact H0|exact Hs6]. }
  exists v, t, lt, ia, oa, newIns. repeat split.
  - apply lookup_insert_eq.
  - assert (ia <> txTmp).
    { intros ->. rewrite lookup_insert_ne in Htx by congruence. congruence. }
    rewrite lookup_insert_ne by congruence.
    rewrite lookup_insert_ne by congruence. exact Hia5.
  - eapply lookup_weaken_None; [exact Hia|]. etrans; [exact H0|exact Hs2].
  - eapply lookup_weaken_None; [exact Hoa|].
    etrans; [exact H0|etrans; [exact Hs3|exact Hs5]].
  - exact Hne.
  - eapply Forall_fresh_weaken; [exact H0|exact Hnew].
Qed.

Lemma cloneInv_alloc (h0 h : heap) (txTmp l : loc) (o : object) :
  cloneInv h0 h txTmp -> h !! l = None -> cloneInv h0 (<[l := o]> h) txTmp.
Proof.
  intros (Hs & Ht & v & t & lt & ins & outs & elems & Htx & Hins & Hi & Ho & Hne & Hf) Hl.
  split; [etrans; [exact Hs|apply insert_subseteq, Hl]|].
  split; [exact Ht|]. exists v, t, lt, ins, outs, elems.
  repeat split; try assumption.
  - rewrite lookup_insert_ne by congruence. exact Htx.
  - rewrite lookup_insert_ne by congruence. exact Hins.
Qed.

Lemma cloneInv_putInput (h0 h : heap) (txTmp l : loc)
    (a a' c c' : loc) (b b' d d' : Z) :
  cloneInv h0 h txTmp ->
  h !! l = Some (OInput a b c d) ->
  h0 !! l = None ->
  cloneInv h0 (<[l := OInput a' b' c' d']> h) txTmp.
Proof.
  intros (Hs & Ht & v & t & lt & ins & outs & elems & Htx & Hins & Hi & Ho & Hne & Hf) Hl H0l.
  split; [apply insert_subseteq_r; assumption|].
  split; [exact Ht|]. exists v, t, lt, ins, outs, elems.
  repeat split; try assumption.
  - rewrite lookup_insert_ne by congruence. exact Htx.
  - rewrite lookup_insert_ne by congruence. exact Hins.
Qed.

(** [input.sequence = ...] and [input.script = ...] replace one input
    object by another at the same place, or throw before writing. *)
Lemma setSequence_inv (input : loc) (q : Z) (h h' : heap) (r : result unit) :
  setSequence input q h = (r, h') ->
  h' = h \/
  exists a b c d a' b' c' d',
    h !! input = Some (OInput a b c d) /\
    h' = <[input := OInput a' b' c' d']> h.
Proof.
  unfold setSequence. intros Hw.
  apply withInput_inv in Hw as [(a & b & c & d & Hl & Hp)|[-> _]]; [|auto].
  injection Hp as <- <-. right. eauto 10.
Qed.

Lemma setScript_inv (input script : loc) (h h' : heap) (r : result unit) :
  setScript input script h = (r, h') ->
  h' = h \/
  exists a b c d a' b' c' d',
    h !! input = Some (OInput a b c d) /\
    h' = <[input := OInput a' b' c' d']> h.
Proof.
  unfold setScript. intros Hw.
  apply withInput_inv in Hw as [(a & b & c & d & Hl & Hp)|[-> _]]; [|auto].
  injection Hp as <- <-. right. eauto 10.
Qed.

Lemma forEachH_inputs (h0 : heap) (txTmp : loc) (f : nat -> loc -> H unit) :
  (forall i x h r h', f i x h = (r, h') ->
     h' = h \/
     exists a b c d a' b' c' d',
       h !! x = Some (OInput a b c d) /\
       h' = <[x := OInput a' b' c' d']> h) ->
  forall ls i h r h',
    Forall (fun l => h0 !! l = None) ls ->
    cloneInv h0 h txTmp ->
    forEachH f i ls h = (r, h') ->
    cloneInv h0 h' txTmp.
Proof.
  intros Hf ls. induction ls as [|x ls IH]; intros i h r h' Hfr Hinv He;
    simpl in He.
  - injection He as <- <-. exact Hinv.
  - inversion Hfr as [|? ? Hx Hls]; subst.
    apply hbind_inv in He as [([] & h1 & H1 & He)|(e & H1 & ->)].
    + eapply IH; [exact Hls| |exact He].
      destruct (Hf _ _ _ _ _ H1) as [->|(a & b & c & d & a' & b' & c' & d' & Hl & ->)];
        [exact Hinv|].
      eapply cloneInv_putInput; eassumption.
    + destruct (Hf _ _ _ _ _ H1) as [->|(a & b & c & d & a' & b' & c' & d' & Hl & ->)];
        [exact Hinv|].
      eapply cloneInv_putInput; eassumption.
Qed.

Lemma ignoreSequences_inv (h0 h h' : heap) (txTmp ins : loc) (inIndex : nat)
    (r : result unit) (v t lt : Z) (outs : loc) :
  cloneInv h0 h txTmp ->
  h !! txTmp = Some (OTransaction v t lt ins outs) ->
  ignoreSequences ins inIndex h = (r, h') ->
  cloneInv h0 h' txTmp.
Proof.
  intros Hinv Htx Hi. unfold ignoreSequences in Hi.
  apply hbind_inv in Hi as [(elems & h1 & Hg & Hi)|(e & Hg & ->)].
  2:{ apply getArray_inv in Hg as [-> _]. exact Hinv. }
  apply getArray_inv in Hg as [-> Hg]. specialize (Hg elems eq_refl).
  pose proof Hinv as (_ & _ & v' & t' & lt' & ins' & outs' & elems' & Htx' & Hins' & _ & _ & _ & Hf).
  assert (ins' = ins) by congruence. subst ins'.
  assert (elems' = elems) by congruence. subst elems'.
  eapply forEachH_inputs; [|exact Hf|exact Hinv|exact Hi].
  intros i x hh rr hh' Hstep. simpl in Hstep.
  destruct (i =? inIndex)%nat.
  - injection Hstep as <- <-. auto.
  - eapply setSequence_inv, Hstep.
Qed.

Section WithGlobals.

Context (junk : nat -> byte).
Context (sha256 : bytes -> bytes).
Context (decompile : bytes -> option (list chunk)).
Context (compile : list chunk -> bytes).
Context (g : globals).

Lemma signedOutputs_inv (h0 h h' : heap) (this txTmp : loc)
    (inIndex hashType : Z) (r : result bool) :
  cloneInv h0 h txTmp ->
  signedOutputs g this txTmp inIndex hashType h = (r, h') ->
  cloneInv h0 h' txTmp.
Proof.
  intros Hinv Hs. unfold signedOutputs in Hs.
  pose proof Hinv as (Hsub & Ht & v & t & lt & ins & outs & elems & Htx & Hins & Hi & Ho & Hne & Hf).
  destruct (_ =? Transaction.SIGHASH_NONE).
  { apply withTransaction_inv in Hs as [(v' & t' & lt' & ins' & outs' & Htx' & Hs)|[-> _]];
      [|exact Hinv].
    assert (E : OTransaction v' t' lt' ins' outs' = OTransaction v t lt ins outs)
      by congruence.
    injection E as -> -> -> -> ->.
    apply hbind_inv in Hs as [(empty & h1 & Ha & Hs)|(e & Ha & ->)].
    2:{ apply alloc_inv in Ha as (l & [=] & _). }
    apply alloc_inv in Ha as (? & [= <-] & -> & He).
    apply hbind_inv in Hs as [([] & h2 & Hp & Hs)|(e & Hp & ->)].
    2:{ discriminate Hp. }
    injection Hp as <-.
    assert (Hinv2 : cloneInv h0
              (<[txTmp := OTransaction v t lt ins empty]>
                 (<[empty := OArray []]> h)) txTmp).
    { split.
      - apply insert_subseteq_r; [exact Ht|].
        etrans; [exact Hsub|apply insert_subseteq, He].
      - split; [exact Ht|]. exists v, t, lt, ins, empty, elems.
        repeat split; try assumption.
        + apply lookup_insert_eq.
        + rewrite !lookup_insert_ne by congruence. exact Hins.
        + eapply lookup_weaken_None; [exact He|exact Hsub].
        + congruence. }
    apply hbind_inv in Hs as [([] & h3 & Hg & Hs)|(e & Hg & ->)].
    - injection Hs as <- <-.
      eapply ignoreSequences_inv; [exact Hinv2|apply lookup_insert_eq|exact Hg].
    - eapply ignoreSequences_inv; [exact Hinv2|apply lookup_insert_eq|exact Hg]. }
  destruct (_ =? Transaction.SIGHASH_SINGLE); [|injection Hs as <- <-; exact Hinv].
  apply withTransaction_inv in Hs as [(? & ? & ? & ? & thisOuts & _ & Hs)|[-> _]];
    [|exact Hinv].
  apply hbind_inv in Hs as [(thisOutElems & h1 & Hg & Hs)|(e & Hg & ->)].
  2:{ apply getArray_inv in Hg as [-> _]. exact Hinv. }
  apply getArray_inv in Hg as [-> _].
  destruct (_ <=? inIndex); [injection Hs as <- <-; exact Hinv|].
  apply withTransaction_inv in Hs as [(v' & t' & lt' & ins' & outs' & Htx' & Hs)|[-> _]];
    [|exact Hinv].
  assert (E : OTransaction v' t' lt' ins' outs' = OTransaction v t lt ins outs)
    by congruence.
  injection E as -> -> -> -> ->.
  apply hbind_inv in Hs as [(oelems & h2 & Hg & Hs)|(e & Hg & ->)].
  2:{ apply getArray_inv in Hg as [-> _]. exact Hinv. }
  apply getArray_inv in Hg as [-> Hg]. specialize (Hg oelems eq_refl).
  apply hbind_inv in Hs as [([] & h3 & Hp & Hs)|(e & Hp & ->)].
  2:{ discriminate Hp. }
  injection Hp as <-.
  match type of Hs with context [<[outs := ?o]> h] =>
    assert (Hinv2 : cloneInv h0 (<[outs := o]> h) txTmp) end.
  { split; [apply insert_subseteq_r; assumption|].
    split; [exact Ht|]. exists v, t, lt, ins, outs, elems.
    repeat split; try assumption.
    - rewrite lookup_insert_ne by congruence. exact Htx.
    - rewrite lookup_insert_ne by congruence. exact Hins. }
  apply hbind_inv in Hs as [([] & h4 & Hg2 & Hs)|(e & Hg2 & ->)].
  - injection Hs as <- <-.
    eapply ignoreSequences_inv; [exact Hinv2| |exact Hg2].
    rewrite lookup_insert_ne by congruence. exact Htx.
  - eapply ignoreSequences_inv; [exact Hinv2| |exact Hg2].
    rewrite lookup_insert_ne by congruence. exact Htx.
Qed.

Lemma signedInputs_frame (h0 h h' : heap) (txTmp ourScript : loc)
    (inIndex hashType : Z) (r : result unit) :
  cloneInv h0 h txTmp ->
  signedInputs g txTmp inIndex hashType ourScript h = (r, h') ->
  h0 ⊆ h'.
Proof.
  intros Hinv Hs. unfold signedInputs in Hs.
  pose proof Hinv as (Hsub & Ht & v & t & lt & ins & outs & elems & Htx & Hins & Hi & Ho & Hne & Hf).
  apply withTransaction_inv in Hs as [(v' & t' & lt' & ins' & outs' & Htx' & Hs)|[-> _]];
    [|exact Hsub].
  assert (E : OTransaction v' t' lt' ins' outs' = OTransaction v t lt ins outs)
    by congruence.
  injection E as -> -> -> -> ->.
  apply hbind_inv in Hs as [(elems' & h1 & Hg & Hs)|(e & Hg & ->)].
  2:{ apply getArray_inv in Hg as [-> _]. exact Hsub. }
  apply getArray_inv in Hg as [-> Hg]. specialize (Hg elems' eq_refl).
  assert (elems' = elems) by congruence. subst elems'.
  assert (Hfresh : forall input, elems !! Z.to_nat inIndex = Some input ->
                                 h0 !! input = None).
  { intros input Hl. eapply Forall_lookup_1 in Hf; [|exact Hl]. exact Hf. }
  assert (Hset : forall hh hh' rr input s,
            cloneInv h0 hh txTmp -> h0 !! input = None ->
            setScript input s hh = (rr, hh') -> h0 ⊆ hh').
  { intros hh hh' rr input s Hi' H0i Hset.
    apply setScript_inv in Hset as [->|(a & b & c & d & a' & b' & c' & d' & Hl & ->)].
    - apply Hi'.
    - apply insert_subseteq_r; [exact H0i|apply Hi']. }
  destruct (negb _).
  - destruct (elems !! Z.to_nat inIndex) as [input|] eqn:El.
    2:{ injection Hs as <- <-. exact Hsub. }
    apply hbind_inv in Hs as [(single & h2 & Ha & Hs)|(e & Ha & ->)].
    2:{ apply alloc_inv in Ha as (l & [=] & _). }
    apply alloc_inv in Ha as (? & [= <-] & -> & He).
    apply hbind_inv in Hs as [([] & h3 & Hp & Hs)|(e & Hp & ->)].
    2:{ discriminate Hp. }
    injection Hp as <-.
    apply setScript_inv in Hs as [->|(a & b & c & d & a' & b' & c' & d' & Hl & ->)].
    + apply insert_subseteq_r; [exact Ht|].
      etrans; [exact Hsub|apply insert_subseteq, He].
    + apply insert_subseteq_r; [apply Hfresh; reflexivity|].
      apply insert_subseteq_r; [exact Ht|].
      etrans; [exact Hsub|apply insert_subseteq, He].
  - apply hbind_inv in Hs as [([] & h2 & Hfe & Hs)|(e & Hfe & ->)].
    + assert (Hinv2 : cloneInv h0 h2 txTmp).
      { eapply forEachH_inputs; [|exact Hf|exact Hinv|exact Hfe].
        intros i x hh rr hh' Hstep. eapply setScript_inv, Hstep. }
      destruct (elems !! Z.to_nat inIndex) as [input|] eqn:El.
      * eapply Hset; [exact Hinv2|apply Hfresh; reflexivity|exact Hs].
      * injection Hs as <- <-. apply Hinv2.
    + assert (Hinv2 : cloneInv h0 h' txTmp).
      { eapply forEachH_inputs; [|exact Hf|exact Hinv|exact Hfe].
        intros i x hh rr hh' Hstep. eapply setScript_inv, Hstep. }
      apply Hinv2.
Qed.

Lemma serializeAndHash_frame (h h' : heap) (txTmp : loc) (hashType : Z)
    (r : result loc) :
  serializeAndHash junk sha256 txTmp hashType h = (r, h') -> h ⊆ h'.
Proof.
  unfold serializeAndHash. destruct (loadTransaction h txTmp) as [tx|].
  - destruct (Transaction.serializeAndHash _ _ _ _).
    + intros Ha. apply alloc_inv in Ha as (l & _ & -> & Hl).
      apply insert_subseteq, Hl.
    + intros [= <- <-]. reflexivity.
  - intros [= <- <-]. reflexivity.
Qed.

(** Every object of the caller's store survives [hashForSignature]. *)
Lemma hashForSignature_frame (h h' : heap) (this prevOutScript : loc)
    (inIndex hashType : Z) (r : result loc) :
  hashForSignature junk sha256 decompile compile g this inIndex prevOutScript
    hashType h = (r, h') ->
  h ⊆ h'.
Proof.
  unfold hashForSignature. destruct (negb _); [intros [= <- <-]; reflexivity|].
  intros Hs.
  apply withTransaction_inv in Hs as [(v & t & lt & ins & outs & Hthis & Hs)|[-> _]];
    [|reflexivity].
  apply hbind_inv in Hs as [(elems & h1 & Hg & Hs)|(e & Hg & ->)].
  2:{ apply getArray_inv in Hg as [-> _]. reflexivity. }
  apply getArray_inv in Hg as [-> _].
  destruct (_ <=? inIndex); [injection Hs as <- <-; reflexivity|].
  apply hbind_inv in Hs as [(prevOut & h2 & Hb & Hs)|(e & Hb & ->)].
  2:{ apply getBuffer_inv in Hb as ->. reflexivity. }
  apply getBuffer_inv in Hb as ->.
  destruct (decompile prevOut) as [chunks|]; [|injection Hs as <- <-; reflexivity].
  apply hbind_inv in Hs as [(ourScript & h3 & Ha & Hs)|(e & Ha & ->)].
  2:{ apply alloc_inv in Ha as (l & [=] & _). }
  apply alloc_inv in Ha as (? & [= <-] & -> & Hour).
  assert (Hsub : h ⊆ <[ourScript := OBuffer
            (compile (List.filter (fun x => negb (is_OP_CODESEPARATOR x)) chunks))]> h)
    by (apply insert_subseteq, Hour).
  apply hbind_inv in Hs as [(txTmp & h4 & Hc & Hs)|(e & Hc & ->)].
  2:{ apply (clone_inv h) in Hc as [Hc _]; [exact Hc|exact Hsub]. }
  apply (clone_inv h) in Hc as [_ Hc]; [|exact Hsub].
  specialize (Hc txTmp eq_refl).
  apply hbind_inv in Hs as [(continue & h5 & Ho & Hs)|(e & Ho & ->)].
  2:{ apply (signedOutputs_inv h) in Ho; [apply Ho|exact Hc]. }
  apply (signedOutputs_inv h) in Ho; [|exact Hc].
  destruct continue; [|injection Hs as <- <-; apply Ho].
  apply hbind_inv in Hs as [([] & h6 & Hi & Hs)|(e & Hi & ->)].
  - apply (signedInputs_frame h) in Hi; [|exact Ho].
    apply serializeAndHash_frame in Hs. etrans; [exact Hi|exact Hs].
  - apply (signedInputs_frame h) in Hi; [exact Hi|exact Ho].
Qed.

End WithGlobals.

End HeapFrame.

Lemma loadBuffer_weaken (h h' : Heap.heap) (l : positive) (d : bytes) :
  h ⊆ h' -> Heap.loadBuffer h l = Some d -> Heap.loadBuffer h' l = Some d.
Proof.
  intros Hs. unfold Heap.loadBuffer.
  destruct (h !! l) as [o|] eqn:E; [|discriminate].
  rewrite (lookup_weaken _ _ _ _ E Hs). auto.
Qed.

Lemma loadInput_weaken (h h' : Heap.heap) (l : positive)
    (x : Transaction.Input) :
  h ⊆ h' -> Heap.loadInput h l = Some x -> Heap.loadInput h' l = Some x.
Proof.
  intros Hs. unfold Heap.loadInput.
  destruct (h !! l) as [o|] eqn:E; [|discriminate].
  rewrite (lookup_weaken _ _ _ _ E Hs). destruct o; try discriminate.
  destruct (Heap.loadBuffer h hash) as [hb|] eqn:Eh; [|discriminate].
  destruct (Heap.loadBuffer h script) as [sb|] eqn:Es; [|discriminate].
  rewrite (loadBuffer_weaken _ _ _ _ Hs Eh), (loadBuffer_weaken _ _ _ _ Hs Es).
  auto.
Qed.

Lemma loadOutput_weaken (h h' : Heap.heap) (l : positive)
    (x : Transaction.Output) :
  h ⊆ h' -> Heap.loadOutput h l = Some x -> Heap.loadOutput h' l = Some x.
Proof.
  intros Hs. unfold Heap.loadOutput.
  destruct (h !! l) as [o|] eqn:E; [|discriminate].
  rewrite (lookup_weaken _ _ _ _ E Hs). destruct o; try discriminate.
  destruct (Heap.loadBuffer h script) as [sb|] eqn:Es; [|discriminate].
  rewrite (loadBuffer_weaken _ _ _ _ Hs Es).
  destruct valueBuffer as [vl|]; [|auto].
  destruct (Heap.loadBuffer h vl) as [vb|] eqn:Ev; [|discriminate].
  rewrite (loadBuffer_weaken _ _ _ _ Hs Ev). auto.
Qed.

Lemma loadAll_weaken {A} (f f' : positive -> option A) (ls : list positive)
    (xs : list A) :
  (forall l x, f l = Some x -> f' l = Some x) ->
  Heap.loadAll f ls = Some xs -> Heap.loadAll f' ls = Some xs.
Proof.
  intros Hf. revert xs. induction ls as [|l ls IH]; intros xs; simpl; [auto|].
  destruct (f l) as [x|] eqn:E; [|discriminate].
  destruct (Heap.loadAll f ls) as [xs'|]; [|discriminate].
  rewrite (Hf _ _ E), (IH xs' eq_refl). auto.
Qed.

Lemma loadTransaction_weaken (h h' : Heap.heap) (l : positive)
    (tx : Transaction.t) :
  h ⊆ h' ->
  Heap.loadTransaction h l = Some tx -> Heap.loadTransaction h' l = Some tx.
Proof.
  intros Hs. unfold Heap.loadTransaction, Heap.loadArray.
  destruct (h !! l) as [o|] eqn:E; [|discriminate].
  rewrite (lookup_weaken _ _ _ _ E Hs). destruct o; try discriminate.
  destruct (h !! ins) as [oi|] eqn:Ei; [|discriminate].
  rewrite (lookup_weaken _ _ _ _ Ei Hs). destruct oi; try discriminate.
  destruct (h !! outs) as [oo|] eqn:Eo; [|discriminate].
  rewrite (lookup_weaken _ _ _ _ Eo Hs). destruct oo; try discriminate.
  destruct (Heap.loadAll (Heap.loadInput h) elems) as [is_|] eqn:Eis;
    [|discriminate].
  destruct (Heap.loadAll (Heap.loadOutput h) elems0) as [os|] eqn:Eos;
    [|discriminate].
  rewrite (loadAll_weaken _ (Heap.loadInput h') _ _
             (fun l x => loadInput_weaken h h' l x Hs) Eis).
  rewrite (loadAll_weaken _ (Heap.loadOutput h') _ _
             (fun l x => loadOutput_weaken h h' l x Hs) Eos).
  auto.
Qed.

(** C9, amended. [hashForSignature] leaves every object of the store as it
    was, whatever the arguments and whether it returns or throws; so the
    receiver reads the same before and after: version, time, locktime,
    every input's hash, index, script and sequence, every output's script
    and value. It does so because it writes only to the objects that
    [clone] created, and never into a buffer. *)
Theorem hashForSignature_leaves_receiver_unchanged
    (junk : nat -> byte) (sha256 : bytes -> bytes)
    (decompile : bytes -> option (list chunk)) (compile : list chunk -> bytes)
    (g : Heap.globals) (h h' : Heap.heap) (this prevOutScript : positive)
    (inIndex hashType : Z) (r : result positive) :
  Heap.hashForSignature junk sha256 decompile compile g this inIndex
    prevOutScript hashType h = (r, h') ->
  Heap.unchanged h h' /\
  (forall tx, Heap.loadTransaction h this = Some tx ->
              Heap.loadTransaction h' this = Some tx).
Proof.
  intros Hs. apply hashForSignature_frame in Hs.
  split.
  - intros l o Hl. eapply lookup_weaken; eassumption.
  - intros tx. apply loadTransaction_weaken, Hs.
Qed.

Lemma hashForSignature_leaves_receiver_unchanged_witness :
  Heap.loadTransaction Example.heap Example.this = Some Example.tx /\
  exists l h',
    Heap.hashForSignature Example.junk Example.digest Example.decompile
      Example.compile Example.globals Example.this 1 Example.prevOut 3
      Example.heap = (Ok l, h') /\
    Heap.unchanged Example.heap h' /\
    Heap.loadTransaction h' Example.this = Some Example.tx.
Proof.
  assert (Hload : Heap.loadTransaction Example.heap Example.this
                  = Some Example.tx) by (vm_compute; reflexivity).
  split; [exact Hload|].
  destruct (Heap.hashForSignature Example.junk Example.digest Example.decompile
      Example.compile Example.globals Example.this 1 Example.prevOut 3
      Example.heap) as [r h'] eqn:E.
  destruct (hashForSignature_leaves_receiver_unchanged _ _ _ _ _ _ _ _ _ _ _ _ E)
    as [Hu Hl].
  assert (Hr : is_ok r = true).
  { replace r with (Heap.hashForSignature Example.junk Example.digest
      Example.decompile Example.compile Example.globals Example.this 1
      Example.prevOut 3 Example.heap).1 by (rewrite E; reflexivity).
    vm_compute. reflexivity. }
  destruct r as [l|e]; [|discriminate].
  exists l, h'. split; [reflexivity|]. split; [exact Hu|]. apply Hl, Hload.
Defined.

(** On the sample store the object graph and the value model answer the
    same digest, in every mode. *)
Example heap_run_agrees_with_values :
  Forall (fun '(inIndex, hashType) =>
    match Heap.hashForSignature Example.junk Example.digest Example.decompile
            Example.compile Example.globals Example.this inIndex
            Example.prevOut hashType Example.heap with
    | (Ok l, h') =>
        result_map Some
          (Transaction.hashForSignature Example.junk Example.digest
             Example.decompile Example.compile Example.tx inIndex
             Example.prevOutScript hashType)
        = Ok (Heap.loadBuffer h' l)
    | (Err e, _) =>
        Transaction.hashForSignature Example.junk Example.digest
          Example.decompile Example.compile Example.tx inIndex
          Example.prevOutScript hashType = Err e
    end)
    [(0, 1); (1, 1); (0, 2); (1, 2); (0, 3); (1, 3); (2, 3); (2, 1);
     (0, 129); (1, 130); (1, 131); (0, 2 ^ 31); (-1, 1)].
Proof.
  repeat (apply List.Forall_cons; [vm_compute; reflexivity|]).
  apply List.Forall_nil.
Qed.

(** C9 as stated fails in its reason: [clone] is no deep copy. The first
    input of the clone is another object than the first input of the
    receiver, but its [script] is the very buffer of the receiver's, so a
    write into that buffer through the clone shows in the receiver. *)
Lemma clone_shares_the_script_buffers :
  exists h' insThis insTmp inThis inTmp script,
    Example.cloned = (Ok Example.txTmp, h') /\
    Example.txTmp <> Example.this /\
    Example.insOf h' Example.this = Some insThis /\
    Example.insOf h' Example.txTmp = Some insTmp /\
    insTmp <> insThis /\
    Example.firstOf h' insThis = Some inThis /\
    Example.firstOf h' insTmp = Some inTmp /\
    inTmp <> inThis /\
    Example.scriptOf h' inThis = Some script /\
    Example.scriptOf h' inTmp = Some script /\
    Heap.loadTransaction h' Example.this = Some Example.tx /\
    Heap.loadTransaction (<[script := Heap.OBuffer [x00]]> h') Example.this
    <> Some Example.tx.
Proof.
  do 6 eexists.
  split; [vm_compute; reflexivity|].
  split; [vm_compute; discriminate|].
  split; [vm_compute; reflexivity|].
  split; [vm_compute; reflexivity|].
  split; [vm_compute; discriminate|].
  split; [vm_compute; reflexivity|].
  split; [vm_compute; reflexivity|].
  split; [vm_compute; discriminate|].
  split; [vm_compute; reflexivity|].
  split; [vm_compute; reflexivity|].
  split; [vm_compute; reflexivity|].
  vm_compute. discriminate.
Qed.

(** * Further properties *)

(** ** Writing into a caller's buffer *)

Lemma slice_splice (buffer : bytes) (o : nat) (src : bytes) :
  (o <= length buffer)%nat ->
  slice (splice buffer o src) o (o + length src) = src.
Proof.
  intros Ho. unfold slice, splice.
  rewrite drop_app_length' by (rewrite length_take; lia).
  replace (o + length src - o)%nat with (length src) by lia.
  rewrite take_app_length. reflexivity.
Qed.

(** [toBuffer(buffer, initialOffset)] of a transaction whose fields fit
    their widths: with room for [byteLength()] bytes from the offset on, it
    returns exactly the serialization, written at the offset, and leaves
    every byte before and after that window as it was; without that room it
    fails with an out-of-bounds error. *)
Theorem toBufferInto_window (tx : Transaction.t) (buffer : bytes) (o : nat) :
  WellFormed.writable tx = true ->
  Transaction.toBufferInto tx buffer o =
  if (length buffer <? o + Transaction.byteLength tx)%nat
  then Err OutOfBounds
  else Ok (Wire.transaction tx,
           take o buffer ++ Wire.transaction tx ++
           drop (o + Transaction.byteLength tx) buffer).
Proof.
  intros Hw. unfold Transaction.toBufferInto, Transaction.toBufferAt.
  pose proof (length_wire_transaction tx Hw) as Hlen.
  destruct (Nat.le_gt_cases o (length buffer)) as [Ho|Ho].
  - rewrite (emits_writeTransaction tx Hw (BufferWriter.mk buffer o) Ho).
    cbn [BufferWriter.buffer BufferWriter.offset]. rewrite Hlen.
    destruct (Nat.ltb_spec (length buffer) (o + Transaction.byteLength tx));
      [reflexivity|].
    cbn [BufferWriter.buffer BufferWriter.offset].
    rewrite <- Hlen, slice_splice by exact Ho. reflexivity.
  - destruct (Nat.ltb_spec (length buffer) (o + Transaction.byteLength tx));
      [|lia].
    apply writable_iff in Hw. destruct Hw as (Hv & _).
    unfold Transaction.writeTransaction, bind at 1.
    unfold BufferWriter.writeInt32. unfold WellFormed.int32 in Hv. rewrite Hv.
    unfold BufferWriter.writeSlice.
    cbn [BufferWriter.buffer BufferWriter.offset]. rewrite length_le_bytes.
    destruct (Nat.ltb_spec (length buffer) (o + 4)); [reflexivity|lia].
Qed.

Lemma toBufferInto_window_witness :
  Transaction.toBufferInto Example.tx (replicate 200 x07) 3
  = Ok (Wire.transaction Example.tx,
        replicate 3 x07 ++ Wire.transaction Example.tx ++
        replicate (197 - Transaction.byteLength Example.tx) x07)
  /\ Transaction.toBufferInto Example.tx (replicate 20 x07) 3
     = Err OutOfBounds.
Proof.
  split.
  - rewrite (toBufferInto_window Example.tx (replicate 200 x07) 3 eq_refl).
    vm_compute. reflexivity.
  - rewrite (toBufferInto_window Example.tx (replicate 20 x07) 3 eq_refl).
    vm_compute. reflexivity.
Defined.

(** ** Weight and virtual size *)

(** [weight()] counts the serialized size four times, since both of its
    terms are [byteLength()], so [virtualSize()] is the serialized size:
    the length of what [toBuffer()] returns. *)
Theorem virtualSize_is_serialized_length (junk : nat -> byte)
    (tx : Transaction.t) (data : bytes) :
  Transaction.toBuffer junk tx = Ok data ->
  Transaction.weight tx = (4 * length data)%nat /\
  Transaction.virtualSize tx = length data.
Proof.
  intros H. apply toBuffer_length in H. rewrite H.
  unfold Transaction.virtualSize, Transaction.weight. split; [lia|].
  replace (Transaction.byteLength tx * 3 + Transaction.byteLength tx + 3)%nat
    with (3 + Transaction.byteLength tx * 4)%nat by lia.
  rewrite Nat.div_add by lia. reflexivity.
Qed.

Lemma virtualSize_is_serialized_length_witness :
  Transaction.weight Example.tx
  = (4 * length (Wire.transaction Example.tx))%nat /\
  Transaction.virtualSize Example.tx = length (Wire.transaction Example.tx).
Proof.
  apply (virtualSize_is_serialized_length Example.junk Example.tx).
  vm_compute. reflexivity.
Defined.
(** ** Block: size and serialization *)

Section BlockSize.

Import Cursor.

Lemma keepsLength_writeOptSlice (s : option bytes) :
  keepsLength (Block.writeOptSlice s).
Proof.
  destruct s; [apply keepsLength_writeSlice|apply keepsLength_throw].
Qed.

Lemma keepsLength_writeHeader (b : Block.t) :
  keepsLength (Block.writeHeader b).
Proof.
  unfold Block.writeHeader.
  apply keepsLength_bind; [apply keepsLength_writeInt32|intros _].
  apply keepsLength_bind; [apply keepsLength_writeOptSlice|intros _].
  apply keepsLength_bind; [apply keepsLength_writeOptSlice|intros _].
  apply keepsLength_bind; [apply keepsLength_writeUInt32|intros _].
  apply keepsLength_bind; [apply keepsLength_writeUInt32|intros _].
  apply keepsLength_writeUInt32.
Qed.

Lemma keepsLength_block_writeTransaction (tx : Transaction.t) :
  keepsLength (Block.writeTransaction tx).
Proof.
  intros w w' a. unfold Block.writeTransaction, Transaction.toBufferAt.
  destruct (Transaction.writeTransaction tx
              (BufferWriter.mk (BufferWriter.buffer w) (BufferWriter.offset w)))
    as [[u w1]|e] eqn:E; [|discriminate].
  intros [= _ <-]. cbn [BufferWriter.buffer].
  apply (keepsLength_writeTransaction tx _ _ _ E).
Qed.

End BlockSize.

(** [Block.byteLength(headersOnly)] is the length of what
    [toBuffer(headersOnly)] returns, whenever it returns; headers only it is
    80; a block as [fromBuffer] builds it does serialize; and [weight()] is
    four times [byteLength(false)], both of its terms being that size. *)
Theorem block_byteLength_is_serialized_length (junk : nat -> byte)
    (b : Block.t) (headersOnly : bool) :
  Block.byteLength b true = 80%nat /\
  (forall data, Block.toBuffer junk b headersOnly = Ok data ->
     length data = Block.byteLength b headersOnly) /\
  (WellFormed.block b = true ->
   exists data, Block.toBuffer junk b headersOnly = Ok data) /\
  Block.weight b = (4 * Block.byteLength b false)%nat.
Proof.
  split; [|split; [|split]].
  - unfold Block.byteLength. destruct (Block.transactions b); reflexivity.
  - intros data. unfold Block.toBuffer.
    match goal with
    | |- match ?body ?w with _ => _ end = _ -> _ =>
        destruct (body w) as [[u w']|e] eqn:E; [|discriminate]
    end.
    intros [= <-].
    assert (Hk : Cursor.keepsLength
      (Block.writeHeader b ;;
       match Block.transactions b with
       | Some txs =>
           if headersOnly then ret tt
           else BufferWriter.writeVarInt (length txs) ;;
                forEach Block.writeTransaction txs
       | None => ret tt
       end)).
    { apply keepsLength_bind; [apply keepsLength_writeHeader|intros _].
      destruct (Block.transactions b) as [txs|]; [|apply keepsLength_ret].
      destruct headersOnly; [apply keepsLength_ret|].
      apply keepsLength_bind; [apply keepsLength_writeSlice|intros _].
      apply keepsLength_forEach. apply keepsLength_block_writeTransaction. }
    rewrite (Hk _ _ _ E). cbn [BufferWriter.buffer].
    apply length_allocUnsafe.
  - intros Hb. destruct headersOnly.
    + exists (Wire.header b). apply toBuffer_header.
      unfold WellFormed.block in Hb. rewrite !andb_true_iff in Hb. tauto.
    + exists (Wire.block b). apply toBuffer_block, Hb.
  - unfold Block.weight. lia.
Qed.

Lemma block_byteLength_is_serialized_length_witness :
  exists data,
    Block.toBuffer Example.junk Example.block false = Ok data /\
    length data = Block.byteLength Example.block false.
Proof.
  destruct (block_byteLength_is_serialized_length Example.junk Example.block
              false) as (_ & Hlen & Hok & _).
  destruct (Hok eq_refl) as [data Hdata].
  exists data. split; [exact Hdata|]. apply Hlen, Hdata.
Defined.
(** ** What a successful parse answers *)

Section ReaderAnswers.

Import Cursor.

Lemma yields_ret {A} (a : A) (P : A -> Prop) : P a -> yields (ret a) P.
Proof. intros H r r' a' [= <- _]. exact H. Qed.

Lemma yields_throw {A} (e : error) (P : A -> Prop) : yields (throw e) P.
Proof. intros r r' a [=]. Qed.

Lemma yields_bind {A B} (m : M BufferReader.t A)
    (k : A -> M BufferReader.t B) (P : A -> Prop) (Q : B -> Prop) :
  yields m P -> (forall a, P a -> yields (k a) Q) -> yields (bind m k) Q.
Proof.
  intros Hm Hk r r' b. unfold bind.
  destruct (m r) as [[a r1]|e] eqn:E; [|discriminate].
  intros Hb. exact (Hk a (Hm _ _ _ E) _ _ _ Hb).
Qed.

Lemma yields_readSlice (n : nat) :
  yields (BufferReader.readSlice n) (fun s => length s = n).
Proof.
  intros r r' s. unfold BufferReader.readSlice.
  destruct (Nat.ltb_spec (length (BufferReader.buffer r))
              (BufferReader.offset r + n)); [discriminate|].
  intros [= <- _]. unfold slice. rewrite length_take, length_drop. lia.
Qed.

Lemma yields_readUInt (n : nat) :
  yields (BufferReader.readUInt n) (fun z => 0 <= z < 256 ^ Z.of_nat n).
Proof.
  eapply yields_bind; [apply yields_readSlice|].
  intros s Hs. cbv beta in Hs. apply yields_ret. rewrite <- Hs. apply le_value_range.
Qed.

Lemma yields_readUInt32 :
  yields BufferReader.readUInt32 (fun z => WellFormed.uint32 z = true).
Proof.
  intros r r' z H. apply yields_readUInt in H.
  change (256 ^ Z.of_nat 4) with (2 ^ 32) in H.
  unfold WellFormed.uint32. rewrite andb_true_iff, Z.leb_le, Z.ltb_lt. lia.
Qed.

Lemma yields_readUInt64 :
  yields BufferReader.readUInt64 (fun z => WellFormed.uint64 z = true).
Proof.
  intros r r' z H. apply yields_readUInt in H.
  change (256 ^ Z.of_nat 8) with (2 ^ 64) in H.
  unfold WellFormed.uint64. rewrite andb_true_iff, Z.leb_le, Z.ltb_lt. lia.
Qed.

Lemma yields_readInt32 :
  yields BufferReader.readInt32 (fun z => WellFormed.int32 z = true).
Proof.
  eapply yields_bind; [apply yields_readUInt|].
  intros u Hu. cbv beta in Hu. apply yields_ret.
  change (256 ^ Z.of_nat 4) with (2 ^ 32) in Hu.
  unfold WellFormed.int32. rewrite andb_true_iff, Z.leb_le, Z.ltb_lt.
  destruct (Z.ltb_spec u (2 ^ 31)); lia.
Qed.

Lemma yields_readVarInt :
  yields BufferReader.readVarInt (fun z => 0 <= z <= MAX_SAFE_INTEGER).
Proof.
  eapply yields_bind; [apply yields_readUInt|].
  intros first Hf. cbv beta in Hf |- *.
  destruct (Z.ltb_spec first 253) as [Hlt|Hge].
  { apply yields_ret. unfold MAX_SAFE_INTEGER. lia. }
  destruct (first =? 253).
  { intros r r' z H. apply yields_readUInt in H.
    change (256 ^ Z.of_nat 2) with 65536 in H. unfold MAX_SAFE_INTEGER. lia. }
  destruct (first =? 254).
  { intros r r' z H. apply yields_readUInt in H.
    change (256 ^ Z.of_nat 4) with (2 ^ 32) in H. unfold MAX_SAFE_INTEGER. lia. }
  eapply yields_bind; [apply yields_readUInt|].
  intros number Hn. cbv beta in Hn |- *.
  destruct (Z.leb_spec number MAX_SAFE_INTEGER) as [Hle|Hgt].
  - apply yields_ret. lia.
  - apply yields_throw.
Qed.

Lemma yields_readVarSlice :
  yields BufferReader.readVarSlice
    (fun s => WellFormed.count (length s) = true).
Proof.
  eapply yields_bind; [apply yields_readVarInt|].
  intros n Hn r r' s H. cbv beta in Hn. apply yields_readSlice in H.
  unfold WellFormed.count. apply Z.leb_le. rewrite H. lia.
Qed.

Lemma yields_repeatM {A} (n : nat) (body : M BufferReader.t A)
    (P : A -> Prop) :
  yields body P ->
  yields (repeatM n body) (fun l => length l = n /\ Forall P l).
Proof.
  intros Hb. induction n as [|n IH]; simpl.
  - apply yields_ret. auto.
  - eapply yields_bind; [exact Hb|]. intros x Hx.
    eapply yields_bind; [exact IH|]. intros xs [Hl Hxs].
    apply yields_ret. simpl. auto.
Qed.

Lemma yields_readInput :
  yields Transaction.readInput (fun txIn => WellFormed.input txIn = true).
Proof.
  unfold Transaction.readInput.
  eapply yields_bind; [apply (yields_readSlice 32)|]. intros hash Hh.
  eapply yields_bind; [apply yields_readUInt32|]. intros index Hi.
  eapply yields_bind; [apply yields_readVarSlice|]. intros script Hs.
  eapply yields_bind; [apply yields_readUInt32|]. intros sequence Hq.
  apply yields_ret.
  unfold WellFormed.input, WellFormed.writableInput.
  cbn [Transaction.hash Transaction.index Transaction.script
       Transaction.sequence].
  rewrite Hh, Hi, Hs, Hq. reflexivity.
Qed.

Lemma yields_readOutput :
  yields Transaction.readOutput (fun txOut => WellFormed.output txOut = true).
Proof.
  unfold Transaction.readOutput.
  eapply yields_bind; [apply yields_readUInt64|]. intros value Hv.
  eapply yields_bind; [apply yields_readVarSlice|]. intros script Hs.
  apply yields_ret.
  unfold WellFormed.output.
  cbn [Transaction.value Transaction.valueBuffer Transaction.out_script].
  rewrite Hv, Hs. reflexivity.
Qed.

Lemma Forall_forallb {A} (f : A -> bool) (l : list A) :
  Forall (fun x => f x = true) l -> forallb f l = true.
Proof.
  induction 1 as [|x l Hx _ IH]; simpl; [reflexivity|].
  rewrite Hx, IH. reflexivity.
Qed.

Lemma yields_readTransaction :
  yields Transaction.readTransaction
    (fun tx => WellFormed.transaction tx = true).
Proof.
  unfold Transaction.readTransaction.
  eapply yields_bind; [apply yields_readInt32|]. intros version Hv.
  eapply yields_bind with
    (P := fun z => (if 2 <=? version then WellFormed.uint64 z
                    else WellFormed.uint32 z) = true).
  { destruct (2 <=? version);
      [apply yields_readUInt64|apply yields_readUInt32]. }
  intros time Ht.
  eapply yields_bind; [apply yields_readVarInt|]. intros vinLen Hi. cbv beta in Hi.
  eapply yields_bind; [apply yields_repeatM, yields_readInput|].
  intros ins [Hli Hins].
  eapply yields_bind; [apply yields_readVarInt|]. intros voutLen Ho. cbv beta in Ho.
  eapply yields_bind; [apply yields_repeatM, yields_readOutput|].
  intros outs [Hlo Houts].
  eapply yields_bind; [apply yields_readUInt32|]. intros locktime Hl.
  apply yields_ret.
  unfold WellFormed.transaction.
  cbn [Transaction.version Transaction.time Transaction.locktime
       Transaction.ins Transaction.outs].
  rewrite Hv, Ht, Hl, (Forall_forallb _ _ Hins), (Forall_forallb _ _ Houts).
  unfold WellFormed.count. rewrite Hli, Hlo.
  rewrite !Z2Nat.id by lia.
  destruct (Z.leb_spec vinLen MAX_SAFE_INTEGER); [|lia].
  destruct (Z.leb_spec voutLen MAX_SAFE_INTEGER); [|lia].
  reflexivity.
Qed.

End ReaderAnswers.

Lemma fromBuffer_wellFormed (data : bytes) (NO_STRICT : bool)
    (tx : Transaction.t) :
  Transaction.fromBuffer data NO_STRICT = Ok tx ->
  WellFormed.transaction tx = true.
Proof.
  unfold Transaction.fromBuffer.
  destruct (Transaction.readTransaction (BufferReader.new data))
    as [[tx' r']|e] eqn:E; [|discriminate].
  intros H. assert (tx' = tx) as <-.
  { destruct NO_STRICT; [congruence|].
    destruct (BufferReader.offset r' =? length data)%nat; congruence. }
  exact (yields_readTransaction _ _ _ E).
Qed.

(** Whatever [Transaction.fromBuffer] returns, in either mode and also from
    an encoding that is not minimal, has every field within its width; so
    [toBuffer()] serializes it, to the canonical encoding, and a strict
    parse of that serialization returns the same transaction. *)
Theorem parsed_transaction_reserializes (junk : nat -> byte) (data : bytes)
    (NO_STRICT : bool) (tx : Transaction.t) :
  Transaction.fromBuffer data NO_STRICT = Ok tx ->
  WellFormed.transaction tx = true /\
  Transaction.toBuffer junk tx = Ok (Wire.transaction tx) /\
  Transaction.fromBuffer (Wire.transaction tx) false = Ok tx.
Proof.
  intros H. apply fromBuffer_wellFormed in H.
  split; [exact H|]. split.
  - apply toBuffer_wire, writable_of_wellFormed, H.
  - rewrite <- (app_nil_r (Wire.transaction tx)).
    apply fromBuffer_wire; [exact H|reflexivity].
Qed.

Lemma parsed_transaction_reserializes_witness :
  exists tx,
    Transaction.fromBuffer Example.nonMinimal false = Ok tx /\
    Transaction.toBuffer Example.junk tx = Ok (Wire.transaction tx) /\
    Transaction.fromBuffer (Wire.transaction tx) false = Ok tx /\
    Wire.transaction tx <> Example.nonMinimal.
Proof.
  exists Example.empty.
  assert (H : Transaction.fromBuffer Example.nonMinimal false
              = Ok Example.empty) by (vm_compute; reflexivity).
  destruct (parsed_transaction_reserializes Example.junk _ _ _ H)
    as (_ & H1 & H2).
  split; [exact H|]. split; [exact H1|]. split; [exact H2|].
  vm_compute. discriminate.
Defined.
(** ** Parsing a buffer cut short *)

Section Truncation.

Import Cursor.

Lemma truncates_ret {A} (a : A) : truncates (ret a).
Proof.
  intros r r' extra a' Hr [= <- <-]. cbn [extend BufferReader.buffer
    BufferReader.offset].
  split; [reflexivity|]. split; [lia|]. intros Hin.
  destruct (Nat.ltb_spec (length (BufferReader.buffer r))
              (BufferReader.offset r)); [lia|].
  destruct r; reflexivity.
Qed.

Lemma truncates_throw {A} (e : error) : truncates (@throw _ A e).
Proof. intros r r' extra a _ [=]. Qed.

Lemma truncates_bind {A B} (m : M BufferReader.t A)
    (k : A -> M BufferReader.t B) :
  truncates m -> (forall a, truncates (k a)) -> truncates (bind m k).
Proof.
  intros Hm Hk r r' extra b Hr. unfold bind.
  destruct (m (extend r extra)) as [[a r1]|e] eqn:E; [|discriminate].
  intros Hb.
  destruct (Hm r r1 extra a Hr E) as (Hbuf & Hoff & Hcut).
  assert (Hr1 : r1 = extend (BufferReader.mk (BufferReader.buffer r)
                               (BufferReader.offset r1)) extra).
  { destruct r1 as [b1 o1]. unfold extend. simpl in *. congruence. }
  rewrite Hr1 in Hb.
  assert (Hin1 : (BufferReader.offset r1 <= length (BufferReader.buffer r ++ extra))%nat) by lia.
  destruct (Hk a (BufferReader.mk (BufferReader.buffer r) (BufferReader.offset r1)) r' extra b Hin1 Hb) as (Hbuf' & Hoff' & Hcut').
  cbn [BufferReader.buffer BufferReader.offset] in *.
  split; [exact Hbuf'|]. split; [lia|]. intros Hin.
  rewrite (Hcut Hin).
  destruct (Nat.ltb_spec (length (BufferReader.buffer r))
              (BufferReader.offset r1)) as [Hlt|Hge].
  - destruct (Nat.ltb_spec (length (BufferReader.buffer r))
                (BufferReader.offset r')); [reflexivity|lia].
  - exact (Hcut' Hge).
Qed.

Lemma truncates_readSlice (n : nat) : truncates (BufferReader.readSlice n).
Proof.
  intros r r' extra s Hr. unfold BufferReader.readSlice.
  cbn [extend BufferReader.buffer BufferReader.offset].
  destruct (Nat.ltb_spec (length (BufferReader.buffer r ++ extra))
              (BufferReader.offset r + n)) as [|Hfit]; [discriminate|].
  intros [= <- <-]. cbn [BufferReader.buffer BufferReader.offset].
  split; [reflexivity|]. split; [lia|]. intros Hin.
  destruct (Nat.ltb_spec (length (BufferReader.buffer r))
              (BufferReader.offset r + n)) as [|Hfit']; [reflexivity|].
  do 2 f_equal. unfold slice.
  rewrite drop_app_le by lia.
  rewrite take_app_le by (rewrite length_drop; lia). reflexivity.
Qed.

Lemma truncates_readUInt (n : nat) : truncates (BufferReader.readUInt n).
Proof.
  apply truncates_bind; [apply truncates_readSlice|intros s].
  apply truncates_ret.
Qed.

Lemma truncates_readInt32 : truncates BufferReader.readInt32.
Proof.
  apply truncates_bind; [apply truncates_readUInt|intros u].
  apply truncates_ret.
Qed.

Lemma truncates_readVarInt : truncates BufferReader.readVarInt.
Proof.
  apply truncates_bind; [apply truncates_readUInt|intros first].
  repeat match goal with |- context [if ?c then _ else _] => destruct c end;
    auto using truncates_ret, truncates_readUInt.
  apply truncates_bind; [apply truncates_readUInt|intros number].
  destruct (number <=? MAX_SAFE_INTEGER);
    auto using truncates_ret, truncates_throw.
Qed.

Lemma truncates_readVarSlice : truncates BufferReader.readVarSlice.
Proof.
  apply truncates_bind; [apply truncates_readVarInt|intros n].
  apply truncates_readSlice.
Qed.

Lemma truncates_repeatM {A} (n : nat) (body : M BufferReader.t A) :
  truncates body -> truncates (repeatM n body).
Proof.
  intros Hb. induction n as [|n IH]; simpl.
  - apply truncates_ret.
  - apply truncates_bind; [exact Hb|intros x].
    apply truncates_bind; [exact IH|intros xs]. apply truncates_ret.
Qed.

Lemma truncates_readInput : truncates Transaction.readInput.
Proof.
  unfold Transaction.readInput.
  apply truncates_bind; [apply truncates_readSlice|intros hash].
  apply truncates_bind; [apply truncates_readUInt|intros index].
  apply truncates_bind; [apply truncates_readVarSlice|intros script].
  apply truncates_bind; [apply truncates_readUInt|intros sequence].
  apply truncates_ret.
Qed.

Lemma truncates_readOutput : truncates Transaction.readOutput.
Proof.
  unfold Transaction.readOutput.
  apply truncates_bind; [apply truncates_readUInt|intros value].
  apply truncates_bind; [apply truncates_readVarSlice|intros script].
  apply truncates_ret.
Qed.

Lemma truncates_readTransaction : truncates Transaction.readTransaction.
Proof.
  unfold Transaction.readTransaction.
  apply truncates_bind; [apply truncates_readInt32|intros version].
  apply truncates_bind;
    [destruct (2 <=? version); apply truncates_readUInt|intros time].
  apply truncates_bind; [apply truncates_readVarInt|intros vinLen].
  apply truncates_bind;
    [apply truncates_repeatM, truncates_readInput|intros ins].
  apply truncates_bind; [apply truncates_readVarInt|intros voutLen].
  apply truncates_bind;
    [apply truncates_repeatM, truncates_readOutput|intros outs].
  apply truncates_bind; [apply truncates_readUInt|intros locktime].
  apply truncates_ret.
Qed.

End Truncation.

(** A transaction encoding cut short never parses: when the strict parse of
    [data] succeeds, the parse of every proper prefix of [data] fails with
    an out-of-bounds read, in strict and in lenient mode alike. *)
Theorem truncated_transaction_is_out_of_bounds (data : bytes)
    (tx : Transaction.t) (n : nat) (NO_STRICT : bool) :
  Transaction.fromBuffer data false = Ok tx ->
  (n < length data)%nat ->
  Transaction.fromBuffer (take n data) NO_STRICT = Err OutOfBounds.
Proof.
  unfold Transaction.fromBuffer. intros H Hn.
  destruct (Transaction.readTransaction (BufferReader.new data))
    as [[tx' r']|e] eqn:E; [|discriminate].
  destruct (Nat.eqb_spec (BufferReader.offset r') (length data))
    as [Hend|]; [|discriminate].
  rewrite <- (take_drop n data) in E at 1.
  rewrite <- extend_new in E.
  destruct (truncates_readTransaction (BufferReader.new (take n data)) r'
              (drop n data) tx' (Nat.le_0_l _) E) as (_ & _ & Hcut).
  rewrite (Hcut (Nat.le_0_l _)).
  cbn [BufferReader.new BufferReader.buffer]. rewrite length_take.
  destruct (Nat.ltb_spec (n `min` length data) (BufferReader.offset r'));
    [reflexivity|lia].
Qed.

Lemma truncated_transaction_is_out_of_bounds_witness :
  Transaction.fromBuffer (take 20 (Wire.transaction Example.tx)) true
  = Err OutOfBounds.
Proof.
  apply (truncated_transaction_is_out_of_bounds _ Example.tx).
  - vm_compute. reflexivity.
  - vm_compute. lia.
Defined.
(** ** The size of what was parsed *)

Section ReaderSizes.

Import Cursor.

Lemma measures_ret {A} (a : A) (size : A -> nat) :
  size a = 0%nat -> measures (ret a) size.
Proof. intros H r r' a' [= <- <-]. lia. Qed.

Lemma measures_throw {A} (e : error) (size : A -> nat) :
  measures (throw e) size.
Proof. intros r r' a [=]. Qed.

Lemma measures_bind {A B} (m : M BufferReader.t A)
    (k : A -> M BufferReader.t B) (P : A -> Prop) (s1 : A -> nat)
    (s : B -> nat) :
  yields m P -> measures m s1 ->
  (forall a, P a -> measures (k a) (fun b => s b - s1 a)%nat) ->
  measures (bind m k) s.
Proof.
  intros Hy Hm Hk r r' b. unfold bind.
  destruct (m r) as [[a r1]|e] eqn:E; [|discriminate].
  intros Hb. pose proof (Hm _ _ _ E) as H1.
  pose proof (Hk a (Hy _ _ _ E) _ _ _ Hb) as H2. cbv beta in H2. lia.
Qed.

Lemma measures_weaken {A} (m : M BufferReader.t A) (P : A -> Prop)
    (s s' : A -> nat) :
  yields m P -> measures m s -> (forall a, P a -> (s' a <= s a)%nat) ->
  measures m s'.
Proof.
  intros Hy Hm Hs r r' a E.
  pose proof (Hm _ _ _ E). pose proof (Hs a (Hy _ _ _ E)). lia.
Qed.

Lemma measures_readSlice (n : nat) :
  measures (BufferReader.readSlice n) (fun _ => n).
Proof.
  intros r r' s. unfold BufferReader.readSlice.
  destruct (Nat.ltb_spec (length (BufferReader.buffer r))
              (BufferReader.offset r + n)); [discriminate|].
  intros [= _ <-]. simpl. lia.
Qed.

Lemma measures_readUInt (n : nat) :
  measures (BufferReader.readUInt n) (fun _ => n).
Proof.
  eapply measures_bind with (P := fun _ => True) (s1 := fun _ => n).
  - intros r r' a _. exact I.
  - apply measures_readSlice.
  - intros s _. apply measures_ret. lia.
Qed.

Lemma measures_readInt32 : measures BufferReader.readInt32 (fun _ => 4%nat).
Proof.
  eapply measures_bind with (P := fun _ => True) (s1 := fun _ => 4%nat).
  - intros r r' a _. exact I.
  - apply measures_readUInt.
  - intros s _. apply measures_ret. lia.
Qed.

Lemma encodingLength_cases (n : nat) :
  (Z.of_nat n < 253 -> varuint.encodingLength n = 1%nat) /\
  (Z.of_nat n < 65536 -> (varuint.encodingLength n <= 3)%nat) /\
  (Z.of_nat n < 2 ^ 32 -> (varuint.encodingLength n <= 5)%nat) /\
  (varuint.encodingLength n <= 9)%nat.
Proof.
  unfold varuint.encodingLength.
  destruct (Z.ltb_spec (Z.of_nat n) 253);
    destruct (Z.leb_spec (Z.of_nat n) 65535);
    destruct (Z.leb_spec (Z.of_nat n) 4294967295); repeat split; lia.
Qed.

(** A CompactSize read consumes at least the minimal encoding of its
    answer. *)
Lemma measures_readVarInt :
  measures BufferReader.readVarInt
    (fun v => varuint.encodingLength (Z.to_nat v)).
Proof.
  eapply measures_bind with (s1 := fun _ => 1%nat);
    [apply yields_readUInt|apply measures_readUInt|].
  intros first Hf. cbv beta in Hf |- *.
  change (256 ^ Z.of_nat 1) with 256 in Hf.
  destruct (Z.ltb_spec first 253) as [Hlt|Hge].
  { apply measures_ret.
    destruct (encodingLength_cases (Z.to_nat first)) as (H1 & _).
    rewrite H1; [reflexivity|lia]. }
  destruct (first =? 253).
  { eapply measures_weaken;
      [apply yields_readUInt|apply measures_readUInt|].
    intros v Hv. cbv beta in Hv. change (256 ^ Z.of_nat 2) with 65536 in Hv.
    destruct (encodingLength_cases (Z.to_nat v)) as (_ & H2 & _).
    specialize (H2 ltac:(lia)). lia. }
  destruct (first =? 254).
  { eapply measures_weaken;
      [apply yields_readUInt|apply measures_readUInt|].
    intros v Hv. cbv beta in Hv. change (256 ^ Z.of_nat 4) with (2 ^ 32) in Hv.
    destruct (encodingLength_cases (Z.to_nat v)) as (_ & _ & H3 & _).
    specialize (H3 ltac:(lia)). lia. }
  eapply measures_bind with (P := fun _ => True) (s1 := fun _ => 8%nat).
  - intros r r' a _. exact I.
  - apply measures_readUInt.
  - intros number _.
    destruct (number <=? MAX_SAFE_INTEGER); [|apply measures_throw].
    apply measures_ret.
    destruct (encodingLength_cases (Z.to_nat number)) as (_ & _ & _ & H4).
    lia.
Qed.

Lemma measures_readVarSlice :
  measures BufferReader.readVarSlice Transaction.varSliceSize.
Proof.
  eapply measures_bind; [apply yields_readVarInt|apply measures_readVarInt|].
  intros n Hn. cbv beta.
  eapply measures_weaken; [apply yields_readSlice|apply measures_readSlice|].
  intros s Hs. cbv beta in Hs. unfold Transaction.varSliceSize.
  rewrite Hs. lia.
Qed.

Lemma measures_repeatM {A} (n : nat) (body : M BufferReader.t A)
    (size : A -> nat) :
  measures body size ->
  measures (repeatM n body) (fun l => sum_list (map size l)).
Proof.
  intros Hb. induction n as [|n IH]; simpl.
  - apply measures_ret. reflexivity.
  - eapply measures_bind with (P := fun _ => True);
      [intros r r' a _; exact I|exact Hb|].
    intros x _. cbv beta.
    eapply measures_bind with (P := fun _ => True);
      [intros r r' a _; exact I|exact IH|].
    intros xs _. apply measures_ret. simpl. lia.
Qed.

Lemma measures_readInput :
  measures Transaction.readInput
    (fun txIn => 40 + Transaction.varSliceSize (Transaction.script txIn))%nat.
Proof.
  unfold Transaction.readInput.
  eapply measures_bind with (P := fun _ => True) (s1 := fun _ => 32%nat);
    [intros r r' a _; exact I|apply measures_readSlice|].
  intros hash _.
  eapply measures_bind with (P := fun _ => True) (s1 := fun _ => 4%nat);
    [intros r r' a _; exact I|apply measures_readUInt|].
  intros index _.
  eapply measures_bind with (P := fun _ => True);
    [intros r r' a _; exact I|apply measures_readVarSlice|].
  intros script _.
  eapply measures_bind with (P := fun _ => True) (s1 := fun _ => 4%nat);
    [intros r r' a _; exact I|apply measures_readUInt|].
  intros sequence _. apply measures_ret.
  cbn [Transaction.script]. lia.
Qed.

Lemma measures_readOutput :
  measures Transaction.readOutput
    (fun txOut =>
       8 + Transaction.varSliceSize (Transaction.out_script txOut))%nat.
Proof.
  unfold Transaction.readOutput.
  eapply measures_bind with (P := fun _ => True) (s1 := fun _ => 8%nat);
    [intros r r' a _; exact I|apply measures_readUInt|].
  intros value _.
  eapply measures_bind with (P := fun _ => True);
    [intros r r' a _; exact I|apply measures_readVarSlice|].
  intros script _. apply measures_ret.
  cbn [Transaction.out_script]. lia.
Qed.

Lemma measures_readTransaction :
  measures Transaction.readTransaction Transaction.byteLength.
Proof.
  unfold Transaction.readTransaction.
  eapply measures_bind with (P := fun _ => True) (s1 := fun _ => 4%nat);
    [intros r r' a _; exact I|apply measures_readInt32|].
  intros version _.
  eapply measures_bind with (P := fun _ => True)
    (s1 := fun _ => if 2 <=? version then 8%nat else 4%nat).
  { intros r r' a _; exact I. }
  { destruct (2 <=? version); apply measures_readUInt. }
  intros time _.
  eapply measures_bind with (P := fun _ => True);
    [intros r r' a _; exact I|apply measures_readVarInt|].
  intros vinLen _.
  eapply measures_bind;
    [apply (yields_repeatM _ _ (fun _ => True)); intros r r' a _; exact I
    |apply measures_repeatM, measures_readInput|].
  intros ins [Hli _].
  eapply measures_bind with (P := fun _ => True);
    [intros r r' a _; exact I|apply measures_readVarInt|].
  intros voutLen _.
  eapply measures_bind;
    [apply (yields_repeatM _ _ (fun _ => True)); intros r r' a _; exact I
    |apply measures_repeatM, measures_readOutput|].
  intros outs [Hlo _].
  eapply measures_bind with (P := fun _ => True) (s1 := fun _ => 4%nat);
    [intros r r' a _; exact I|apply measures_readUInt|].
  intros locktime _. apply measures_ret.
  rewrite byteLength_sum.
  cbn [Transaction.version Transaction.ins Transaction.outs].
  rewrite Hli, Hlo. destruct (2 <=? version); lia.
Qed.

End ReaderSizes.

(** The canonical size of a parsed transaction never exceeds the bytes it
    was parsed from: a CompactSize that is not minimal only makes the input
    longer. So [byteLength()] of what [Transaction.fromBuffer] returns, and
    with it the length of its serialization, is at most the length of the
    input. *)
Theorem parsed_transaction_fits_its_input (junk : nat -> byte) (data : bytes)
    (NO_STRICT : bool) (tx : Transaction.t) :
  Transaction.fromBuffer data NO_STRICT = Ok tx ->
  (Transaction.byteLength tx <= length data)%nat /\
  exists out, Transaction.toBuffer junk tx = Ok out /\
              (length out <= length data)%nat.
Proof.
  intros H.
  assert (Hfit : (Transaction.byteLength tx <= length data)%nat).
  { unfold Transaction.fromBuffer in H.
    destruct (Transaction.readTransaction (BufferReader.new data))
      as [[tx' r']|e] eqn:E; [|discriminate].
    assert (tx' = tx) as ->.
    { destruct NO_STRICT; [congruence|].
      destruct (BufferReader.offset r' =? length data)%nat; congruence. }
    pose proof (measures_readTransaction _ _ _ E) as Hm.
    destruct (local_readTransaction (BufferReader.new data) r' tx
                (Nat.le_0_l _) E) as (_ & _ & Hin & _).
    cbn [BufferReader.new BufferReader.buffer BufferReader.offset] in *. lia. }
  split; [exact Hfit|].
  apply fromBuffer_wellFormed, writable_of_wellFormed in H.
  exists (Wire.transaction tx). split; [apply toBuffer_wire, H|].
  rewrite length_wire_transaction by exact H. exact Hfit.
Qed.

Lemma parsed_transaction_fits_its_input_witness :
  (Transaction.byteLength Example.empty <= length Example.nonMinimal)%nat /\
  exists out, Transaction.toBuffer Example.junk Example.empty = Ok out /\
              (length out <= length Example.nonMinimal)%nat.
Proof.
  apply (parsed_transaction_fits_its_input Example.junk Example.nonMinimal
           false Example.empty).
  vm_compute. reflexivity.
Defined.
(** ** Block: what [fromBuffer] reads *)

Section BlockParsing.

Import Cursor.

Lemma readHeader_take (data : bytes) :
  (80 <= length data)%nat ->
  exists b0 : Block.t,
    WellFormed.block b0 = true /\ Block.transactions b0 = None /\
    Wire.header b0 = take 80 data /\
    Block.readHeader (BufferReader.new data)
    = Ok (b0, advance (BufferReader.new data) 80).
Proof.
  intros Hl.
  destruct (header_of_bytes (take 80 data)) as (b0 & Hwf & Htx & HW).
  { rewrite length_take. lia. }
  exists b0. split; [exact Hwf|]. split; [exact Htx|].
  assert (HW' : Wire.header b0 = take 80 data).
  { unfold Wire.block in HW. rewrite Htx, app_nil_r in HW. exact HW. }
  split; [exact HW'|].
  pose proof Hwf as Hwf'.
  unfold WellFormed.block in Hwf'. rewrite !andb_true_iff in Hwf'.
  destruct Hwf' as [[Hh Hw] _].
  assert (Hwc : Block.witnessCommit b0 = None)
    by (destruct (Block.witnessCommit b0); [discriminate|reflexivity]).
  pose proof (before_new data) as Hbefore.
  rewrite <- (take_drop 80 data) in Hbefore at 2. rewrite <- HW' in Hbefore.
  rewrite (reads_readHeader b0 Hh Hwc _ _ Hbefore).
  rewrite (length_wire_header b0 Hh). do 2 f_equal.
  destruct b0. cbn in *. subst. reflexivity.
Qed.

Lemma readTransactions_inv (block blk : Block.t) (r r' : BufferReader.t) :
  Block.readTransactions block r = Ok (blk, r') ->
  exists txs,
    blk = Block.mk (Block.version block) (Block.prevHash block)
            (Block.merkleRoot block) (Block.timestamp block)
            (Block.witnessCommit block) (Block.bits block)
            (Block.nonce block) (Some txs).
Proof.
  unfold Block.readTransactions, bind.
  destruct (BufferReader.readVarInt r) as [[n r1]|e]; [|discriminate].
  destruct (repeatM (Z.to_nat n) Block.readTransaction r1) as [[txs r2]|e];
    [|discriminate].
  unfold ret. intros [= <- _]. eauto.
Qed.

End BlockParsing.

(** [Block.fromBuffer] refuses fewer than 80 bytes with 'Buffer too small'.
    Whatever block it returns has its six header fields decoded from the
    first 80 bytes alone: its header serialization is those 80 bytes again,
    its hash is their double hash, and it carries no transaction list
    exactly when the input has 80 bytes and nothing more. *)
Theorem block_fromBuffer_reads_header (junk : nat -> byte)
    (sha256 : bytes -> bytes) (data : bytes) :
  ((length data < 80)%nat -> Block.fromBuffer data = Err BufferTooSmall) /\
  (forall b, Block.fromBuffer data = Ok b ->
     (80 <= length data)%nat /\
     Block.toBuffer junk b true = Ok (take 80 data) /\
     Block.getHash junk sha256 b
     = Ok (bcrypto.hash256 sha256 (take 80 data)) /\
     (Block.transactions b = None <-> length data = 80%nat)).
Proof.
  split.
  - intros Hl. unfold Block.fromBuffer.
    destruct (Nat.ltb_spec (length data) 80); [reflexivity|lia].
  - intros b. unfold Block.fromBuffer.
    destruct (Nat.ltb_spec (length data) 80) as [|Hl]; [discriminate|].
    destruct (readHeader_take data Hl) as (b0 & Hwf & Htx & HW & Hread).
    rewrite Hread.
    assert (Hh : WellFormed.header b0 = true).
    { unfold WellFormed.block in Hwf. rewrite !andb_true_iff in Hwf. tauto. }
    assert (Hsame : Spec.sameHeader b b0 /\
                    (Block.transactions b = None <-> length data = 80%nat) ->
            (80 <= length data)%nat /\
            Block.toBuffer junk b true = Ok (take 80 data) /\
            Block.getHash junk sha256 b
            = Ok (bcrypto.hash256 sha256 (take 80 data)) /\
            (Block.transactions b = None <-> length data = 80%nat)).
    { intros [Hs Hiff].
      assert (Hb : Block.toBuffer junk b true = Ok (take 80 data)).
      { rewrite (toBuffer_headersOnly_same junk b b0 Hs), <- HW.
        apply toBuffer_header, Hh. }
      split; [exact Hl|]. split; [exact Hb|]. split; [|exact Hiff].
      unfold Block.getHash. rewrite Hb. reflexivity. }
    destruct (Nat.eqb_spec (length data) 80) as [Heq|Hne].
    + intros [= <-]. apply Hsame. split.
      * repeat split.
      * tauto.
    + destruct (Block.readTransactions b0
                  (Cursor.advance (BufferReader.new data) 80))
        as [[blk r2]|e] eqn:E; [|discriminate].
      intros [= <-]. apply readTransactions_inv in E as [txs ->].
      apply Hsame. split.
      * repeat split.
      * cbn [Block.transactions]. split; [discriminate|lia].
Qed.

Lemma block_fromBuffer_reads_header_witness :
  Block.fromBuffer (replicate 79 x07) = Err BufferTooSmall /\
  exists b,
    Block.fromBuffer (Wire.block Example.block) = Ok b /\
    Block.getHash Example.junk Example.digest b
    = Ok (bcrypto.hash256 Example.digest
            (take 80 (Wire.block Example.block))).
Proof.
  split.
  - apply (block_fromBuffer_reads_header Example.junk Example.digest).
    vm_compute. lia.
  - exists Example.block.
    assert (H : Block.fromBuffer (Wire.block Example.block)
                = Ok Example.block) by (vm_compute; reflexivity).
    split; [exact H|].
    apply (block_fromBuffer_reads_header Example.junk Example.digest _), H.
Defined.

(** [Block.fromBuffer] never looks at what follows the last transaction:
    the serialization of a block with a transaction list parses back to the
    block whatever bytes are appended to it. *)
Theorem block_fromBuffer_ignores_trailing_bytes (b : Block.t)
    (txs : list Transaction.t) (extra : bytes) :
  WellFormed.block b = true ->
  Block.transactions b = Some txs ->
  Block.fromBuffer (Wire.block b ++ extra) = Ok b.
Proof.
  intros Hwf Etx.
  unfold WellFormed.block in Hwf. rewrite !andb_true_iff in Hwf.
  destruct Hwf as [[Hh Hw] Htx].
  assert (Hwc : Block.witnessCommit b = None)
    by (destruct (Block.witnessCommit b); [discriminate|reflexivity]).
  pose proof (length_wire_header b Hh) as Hhl.
  assert (Heta :
    Block.mk (Block.version b) (Block.prevHash b) (Block.merkleRoot b)
      (Block.timestamp b) None (Block.bits b) (Block.nonce b) (Some txs) = b).
  { destruct b. cbn in Hwc, Etx. subst. reflexivity. }
  rewrite Etx in Htx. cbn [from_option] in Htx.
  apply andb_true_iff in Htx as [Htx Hc]. rewrite forallb_forall in Htx.
  assert (HW : Wire.block b ++ extra =
            Wire.header b ++ (varuint.encode (length txs) ++
            concat (map Wire.transaction txs)) ++ extra).
  { unfold Wire.block. rewrite Etx, <- !app_assoc. reflexivity. }
  assert (Hl : (80 < length (Wire.block b ++ extra))%nat).
  { rewrite HW, !length_app, Hhl, length_encode.
    unfold varuint.encodingLength.
    repeat match goal with |- context [if ?c then _ else _] => destruct c end;
      lia. }
  unfold Block.fromBuffer.
  destruct (Nat.ltb_spec (length (Wire.block b ++ extra)) 80); [lia|].
  destruct (Nat.eqb_spec (length (Wire.block b ++ extra)) 80); [lia|].
  pose proof (before_new (Wire.block b ++ extra)) as Hbefore.
  rewrite HW in Hbefore at 2.
  rewrite (reads_readHeader b Hh Hwc _ _ Hbefore).
  apply before_advance in Hbefore.
  unfold Block.readTransactions.
  cbn [Block.version Block.prevHash Block.merkleRoot Block.timestamp
       Block.witnessCommit Block.bits Block.nonce].
  assert (Hr : Cursor.reads
    (let* nTransactions := BufferReader.readVarInt in
     let* txs0 := repeatM (Z.to_nat nTransactions) Block.readTransaction in
     ret (Block.mk (Block.version b) (Block.prevHash b) (Block.merkleRoot b)
            (Block.timestamp b) None (Block.bits b) (Block.nonce b)
            (Some txs0)))
    (varuint.encode (length txs) ++ concat (map Wire.transaction txs))
    (Block.mk (Block.version b) (Block.prevHash b) (Block.merkleRoot b)
            (Block.timestamp b) None (Block.bits b) (Block.nonce b)
            (Some txs))).
  { eapply reads_bind; [apply reads_readVarInt, Hc|].
    rewrite Nat2Z.id. rewrite <- (app_nil_r (concat _)).
    eapply reads_bind; [|apply reads_ret].
    apply reads_repeatM, List.Forall_forall. intros x Hx.
    apply reads_block_readTransaction, Htx, Hx. }
  rewrite (Hr _ _ Hbefore). f_equal. exact Heta.
Qed.

Lemma block_fromBuffer_ignores_trailing_bytes_witness :
  Block.fromBuffer (Wire.block Example.block ++ [x01; x02; x03])
  = Ok Example.block.
Proof.
  apply (block_fromBuffer_ignores_trailing_bytes Example.block
           [Example.coinbase; Example.tx]); vm_compute; reflexivity.
Defined.
(** ** Block: the merkle root check *)

Lemma Z_of_byte_inj (x y : byte) : Z_of_byte x = Z_of_byte y -> x = y.
Proof.
  intros H. rewrite <- (byte_of_Z_of_byte x), <- (byte_of_Z_of_byte y), H.
  reflexivity.
Qed.

Lemma compare_eq (a b : bytes) : compare a b = 0 <-> a = b.
Proof.
  revert b. induction a as [|x a IH]; intros [|y b]; simpl;
    try (split; [lia|discriminate]); [tauto|].
  destruct (Z.ltb_spec (Z_of_byte x) (Z_of_byte y)) as [Hlt|Hge].
  { split; [lia|]. intros [= -> _]. lia. }
  destruct (Z.ltb_spec (Z_of_byte y) (Z_of_byte x)) as [Hlt|Hge'].
  { split; [lia|]. intros [= -> _]. lia. }
  rewrite IH. split.
  - intros ->. f_equal. apply Z_of_byte_inj. lia.
  - intros [= _ ->]. reflexivity.
Qed.

Section MerkleCheck.

Context (junk : nat -> byte).
Context (sha256 : bytes -> bytes).

(** [checkTxRoots()] fails with the merkle error on a block without a
    transaction list and on one with an empty list; on a block with
    transactions it answers whether the stored [merkleRoot] is, byte for
    byte, the root that [calculateMerkleRoot] computes from them. *)
Theorem checkTxRoots_compares_merkleRoot (b : Block.t) :
  (Block.transactions b = None ->
   Block.checkTxRoots junk sha256 b = Err MerkleNoTxes) /\
  (Block.transactions b = Some [] ->
   Block.checkTxRoots junk sha256 b = Err MerkleNoTxes) /\
  (forall txs root actual,
     Block.transactions b = Some txs ->
     Block.merkleRoot b = Some root ->
     Block.calculateMerkleRoot junk sha256 txs = Ok actual ->
     exists answer,
       Block.checkTxRoots junk sha256 b = Ok answer /\
       (answer = true <-> root = actual)).
Proof.
  unfold Block.checkTxRoots, Block.checkMerkleRoot.
  split; [|split].
  - intros ->. reflexivity.
  - intros ->. reflexivity.
  - intros txs root actual -> -> ->.
    exists (compare root actual =? 0). split; [reflexivity|].
    rewrite Z.eqb_eq. apply compare_eq.
Qed.

(** The leaf of a coinbase is 32 zero bytes, so a block whose only
    transaction is a coinbase passes [checkTxRoots()] exactly when its
    [merkleRoot] is 32 zero bytes. *)
Theorem checkTxRoots_of_lone_coinbase (b : Block.t) (cb : Transaction.t)
    (root : bytes) :
  Block.transactions b = Some [cb] ->
  Transaction.isCoinbase cb = Ok true ->
  Block.merkleRoot b = Some root ->
  (Block.checkTxRoots junk sha256 b = Ok true <-> root = replicate 32 x00).
Proof.
  intros Htx Hcb Hroot.
  unfold Block.checkTxRoots, Block.checkMerkleRoot.
  rewrite Htx, Hroot.
  assert (Hc : Block.calculateMerkleRoot junk sha256 [cb]
               = Ok (replicate 32 x00)).
  { unfold Block.calculateMerkleRoot. cbn [length Nat.eqb Block.getHashes].
    unfold Transaction.getHash. rewrite Hcb. reflexivity. }
  rewrite Hc. split.
  - intros H. injection H as H. apply Z.eqb_eq in H.
    apply compare_eq. exact H.
  - intros ->. reflexivity.
Qed.

End MerkleCheck.

Lemma checkTxRoots_compares_merkleRoot_witness :
  exists answer,
    Block.checkTxRoots Example.junk Example.digest Example.block = Ok answer /\
    (answer = true <->
     replicate 32 x33 =
     bcrypto.hash256 Example.digest
       (replicate 32 x00 ++
        bcrypto.hash256 Example.digest (Wire.transaction Example.tx))).
Proof.
  destruct (checkTxRoots_compares_merkleRoot Example.junk Example.digest
              Example.block) as (_ & _ & H).
  apply (H [Example.coinbase; Example.tx]); vm_compute; reflexivity.
Defined.

Lemma checkTxRoots_of_lone_coinbase_witness :
  Block.checkTxRoots Example.junk Example.digest
    (Block.mk 1 (Some (replicate 32 x00)) (Some (replicate 32 x00))
       0 None 0 0 (Some [Example.coinbase])) = Ok true.
Proof.
  apply (checkTxRoots_of_lone_coinbase Example.junk Example.digest _
           Example.coinbase (replicate 32 x00));
    vm_compute; reflexivity.
Defined.

(** ** The merkle root: repeated last leaf, and size *)

Section MerkleShape.

Context (digestFn : bytes -> bytes).

Lemma pairs_app_even (l1 l2 : list bytes) :
  Nat.Even (length l1) ->
  Spec.pairs digestFn (l1 ++ l2)
  = Spec.pairs digestFn l1 ++ Spec.pairs digestFn l2.
Proof.
  intros [k Hk]. revert l1 Hk. induction k as [|k IH]; intros l1 Hk.
  - destruct l1; [reflexivity|simpl in Hk; lia].
  - destruct l1 as [|x [|y l1]]; simpl in Hk; try lia.
    cbn [app Spec.pairs]. rewrite (IH l1) by lia. reflexivity.
Qed.

Lemma root_more_fuel (fuel : nat) (level : list bytes) (r : bytes) :
  Spec.root digestFn fuel level = Some r ->
  Spec.root digestFn (S fuel) level = Some r.
Proof.
  revert level. induction fuel as [|fuel IH]; intros level.
  - destruct level as [|x [|y l]]; simpl; try discriminate. auto.
  - destruct level as [|x [|y l]]; try discriminate; [auto|].
    intros H. apply IH in H. exact H.
Qed.

Lemma merkleRoot_repeated_last (pre : list bytes) (h : bytes) :
  pre <> [] -> Nat.Even (length pre) ->
  Spec.merkleRoot digestFn (pre ++ [h; h])
  = Spec.merkleRoot digestFn (pre ++ [h]).
Proof.
  intros Hne Hev. unfold Spec.merkleRoot.
  destruct pre as [|x [|y pre]]; [congruence| |].
  { destruct Hev as [k Hk]. simpl in Hk. lia. }
  assert (Hp : Spec.pairs digestFn ((x :: y :: pre) ++ [h; h])
               = Spec.pairs digestFn ((x :: y :: pre) ++ [h])).
  { rewrite !pairs_app_even by exact Hev. reflexivity. }
  rewrite !length_app.
  replace (length (x :: y :: pre) + length [h; h])%nat
    with (S (S (S (S (length pre))))) by (simpl; lia).
  replace (length (x :: y :: pre) + length [h])%nat
    with (S (S (S (length pre)))) by (simpl; lia).
  change (Spec.root digestFn (S (S (S (S (length pre)))))
            ((x :: y :: pre) ++ [h; h]))
    with (Spec.root digestFn (S (S (S (length pre))))
            (Spec.pairs digestFn ((x :: y :: pre) ++ [h; h]))).
  change (Spec.root digestFn (S (S (S (length pre))))
            ((x :: y :: pre) ++ [h]))
    with (Spec.root digestFn (S (S (length pre)))
            (Spec.pairs digestFn ((x :: y :: pre) ++ [h]))).
  rewrite Hp.
  set (P := Spec.pairs digestFn ((x :: y :: pre) ++ [h])).
  destruct (levels_root digestFn (S (S (length pre))) P [])
    as (r & rest & _ & Hr).
  { subst P. simpl. discriminate. }
  { subst P. rewrite length_pairs, length_app. simpl length.
    pose proof (Nat.div_mod_eq (S (S (length pre)) + 1 + 1) 2) as Hd.
    pose proof (Nat.mod_upper_bound (S (S (length pre)) + 1 + 1) 2) as Hm.
    lia. }
  rewrite Hr. apply root_more_fuel, Hr.
Qed.

Lemma pairs_all (P : bytes -> Prop) (l : list bytes) :
  (forall x, P (digestFn x)) -> Forall P (Spec.pairs digestFn l).
Proof.
  intros HP.
  assert (H : forall n l, (length l <= n)%nat ->
            Forall P (Spec.pairs digestFn l)).
  { clear l. induction n as [|n IH]; intros l Hl.
    - destruct l; [constructor|simpl in Hl; lia].
    - destruct l as [|x [|y l]]; simpl.
      + constructor.
      + constructor; [apply HP|constructor].
      + constructor; [apply HP|]. apply IH. simpl in Hl. lia. }
  apply (H (length l)). lia.
Qed.

Lemma root_all (P : bytes -> Prop) (fuel : nat) (l : list bytes) (r : bytes) :
  (forall x, P (digestFn x)) -> Forall P l ->
  Spec.root digestFn fuel l = Some r -> P r.
Proof.
  intros HP. revert l. induction fuel as [|fuel IH]; intros l Hl.
  - destruct l as [|x [|y l]]; simpl; try discriminate.
    intros [= <-]. inversion Hl; assumption.
  - destruct l as [|x [|y l]]; try discriminate.
    + intros [= <-]. inversion Hl; assumption.
    + intros H. apply (IH _ (pairs_all P _ HP) H).
Qed.

End MerkleShape.

Section MerkleRootShape.

Context (junk : nat -> byte).
Context (sha256 : bytes -> bytes).

Lemma getHashes_app (a b : list Transaction.t) :
  Block.getHashes junk sha256 (a ++ b) =
  match Block.getHashes junk sha256 a with
  | Err e => Err e
  | Ok ha => result_map (app ha) (Block.getHashes junk sha256 b)
  end.
Proof.
  induction a as [|t a IH]; simpl.
  - destruct (Block.getHashes junk sha256 b); reflexivity.
  - destruct (Transaction.getHash junk sha256 t); [|reflexivity].
    rewrite IH. destruct (Block.getHashes junk sha256 a); [|reflexivity].
    simpl. destruct (Block.getHashes junk sha256 b); reflexivity.
Qed.

Lemma getHashes_length (txs : list Transaction.t) (hs : list bytes) :
  Block.getHashes junk sha256 txs = Ok hs -> length hs = length txs.
Proof.
  revert hs. induction txs as [|t txs IH]; intros hs; simpl.
  - intros [= <-]. reflexivity.
  - destruct (Transaction.getHash junk sha256 t); [|discriminate].
    destruct (Block.getHashes junk sha256 txs) as [hs'|]; [|discriminate].
    intros [= <-]. simpl. f_equal. apply IH. reflexivity.
Qed.

(** Repeating the last transaction of a list of odd length, three or more,
    does not change what [calculateMerkleRoot] answers: the last node of an
    odd level is paired with itself anyway. *)
Theorem calculateMerkleRoot_repeated_last (pre : list Transaction.t)
    (last : Transaction.t) :
  pre <> [] -> Nat.Even (length pre) ->
  Block.calculateMerkleRoot junk sha256 (pre ++ [last; last])
  = Block.calculateMerkleRoot junk sha256 (pre ++ [last]).
Proof.
  intros Hne Hev. unfold Block.calculateMerkleRoot.
  rewrite !length_app. cbn [length].
  destruct (Nat.eqb_spec (length pre + 2) 0); [lia|].
  destruct (Nat.eqb_spec (length pre + 1) 0); [lia|].
  rewrite !getHashes_app.
  destruct (Block.getHashes junk sha256 pre) as [hs|e] eqn:Ehs; [|reflexivity].
  cbn [Block.getHashes].
  destruct (Transaction.getHash junk sha256 last) as [h|e]; [|reflexivity].
  cbn [result_map]. rewrite !fastRoot_merkleRoot.
  rewrite merkleRoot_repeated_last; [reflexivity| |].
  - intros ->. apply getHashes_length in Ehs. destruct pre; [congruence|].
    discriminate.
  - rewrite (getHashes_length _ _ Ehs). exact Hev.
Qed.

Lemma getHashes_all32 (txs : list Transaction.t) (hs : list bytes) :
  (forall m, length (sha256 m) = 32%nat) ->
  Block.getHashes junk sha256 txs = Ok hs ->
  Forall (fun h => length h = 32%nat) hs.
Proof.
  intros H32. revert hs. induction txs as [|t txs IH]; intros hs; simpl.
  - intros [= <-]. constructor.
  - destruct (Transaction.getHash junk sha256 t) as [h|] eqn:Eh; [|discriminate].
    destruct (Block.getHashes junk sha256 txs) as [hs'|]; [|discriminate].
    intros [= <-]. constructor; [|apply IH; reflexivity].
    unfold Transaction.getHash in Eh.
    destruct (Transaction.isCoinbase t) as [[|]|]; try discriminate.
    + injection Eh as <-. unfold alloc. apply length_replicate.
    + destruct (Transaction.toBuffer junk t); [|discriminate].
      injection Eh as <-. apply H32.
Qed.

(** With a digest of 32 bytes, whatever [calculateMerkleRoot] answers has 32
    bytes, for a single transaction as for a tree. *)
Theorem calculateMerkleRoot_is_32_bytes (txs : list Transaction.t)
    (root : bytes) :
  (forall m, length (sha256 m) = 32%nat) ->
  Block.calculateMerkleRoot junk sha256 txs = Ok root ->
  length root = 32%nat.
Proof.
  intros H32. unfold Block.calculateMerkleRoot.
  destruct (length txs =? 0)%nat; [discriminate|].
  destruct (Block.getHashes junk sha256 txs) as [hs|] eqn:Ehs; [|discriminate].
  rewrite fastRoot_merkleRoot.
  destruct (Spec.merkleRoot (bcrypto.hash256 sha256) hs) as [r|] eqn:Er;
    [|discriminate].
  intros [= <-].
  apply (root_all (bcrypto.hash256 sha256) (fun h => length h = 32%nat)
           _ _ _ (fun x => H32 _) (getHashes_all32 _ _ H32 Ehs) Er).
Qed.

End MerkleRootShape.

Lemma calculateMerkleRoot_repeated_last_witness :
  Block.calculateMerkleRoot Example.junk Example.digest
    [Example.coinbase; Example.tx; Example.empty; Example.empty]
  = Block.calculateMerkleRoot Example.junk Example.digest
      [Example.coinbase; Example.tx; Example.empty].
Proof.
  apply (calculateMerkleRoot_repeated_last Example.junk Example.digest
           [Example.coinbase; Example.tx] Example.empty).
  - discriminate.
  - exists 1%nat. reflexivity.
Defined.

Lemma calculateMerkleRoot_is_32_bytes_witness :
  exists root,
    Block.calculateMerkleRoot Example.junk Example.digest
      [Example.coinbase; Example.tx] = Ok root /\ length root = 32%nat.
Proof.
  destruct (Block.calculateMerkleRoot Example.junk Example.digest
              [Example.coinbase; Example.tx]) as [root|e] eqn:E.
  - exists root. split; [reflexivity|].
    exact (calculateMerkleRoot_is_32_bytes Example.junk Example.digest
             _ root length_sha256 E).
  - vm_compute in E. discriminate.
Defined.
(** ** What the signature hash commits to *)

Section SignatureCommitment.

Context (junk : nat -> byte).
Context (sha256 : bytes -> bytes).
Context (decompile : bytes -> option (list chunk)).
Context (compile : list chunk -> bytes).

(** With a hash type NONE the signature hash does not depend on the outputs
    of the transaction at all: two transactions with the same version, time,
    locktime and inputs have the same hash, failures included. *)
Theorem hashForSignature_none_ignores_outputs (version time locktime : Z)
    (ins : list Transaction.Input) (outs outs' : list Transaction.Output)
    (inIndex : Z) (prevOutScript : bytes) (hashType : Z) :
  Z.land hashType 31 = Transaction.SIGHASH_NONE ->
  Transaction.hashForSignature junk sha256 decompile compile
    (Transaction.mk version time locktime ins outs)
    inIndex prevOutScript hashType
  = Transaction.hashForSignature junk sha256 decompile compile
      (Transaction.mk version time locktime ins outs')
      inIndex prevOutScript hashType.
Proof.
  intros Hn. unfold Transaction.hashForSignature.
  cbn [Transaction.ins].
  destruct (negb (types.UInt32 inIndex)); [reflexivity|].
  destruct (Z.of_nat (length ins) <=? inIndex); [reflexivity|].
  destruct (decompile prevOutScript) as [chunks|]; [|reflexivity].
  unfold Transaction.signedOutputs. rewrite land_toInt32_31, Hn.
  reflexivity.
Qed.

(** With a hash type SINGLE the signature hash depends on the outputs only
    through the one at [inIndex]: two transactions with the same version,
    time, locktime and inputs and the same output at [inIndex] (or none there
    in either) have the same hash. *)
Theorem hashForSignature_single_reads_one_output (version time locktime : Z)
    (ins : list Transaction.Input) (outs outs' : list Transaction.Output)
    (inIndex : Z) (prevOutScript : bytes) (hashType : Z) :
  Z.land hashType 31 = Transaction.SIGHASH_SINGLE ->
  outs !! Z.to_nat inIndex = outs' !! Z.to_nat inIndex ->
  Transaction.hashForSignature junk sha256 decompile compile
    (Transaction.mk version time locktime ins outs)
    inIndex prevOutScript hashType
  = Transaction.hashForSignature junk sha256 decompile compile
      (Transaction.mk version time locktime ins outs')
      inIndex prevOutScript hashType.
Proof.
  intros Hs Ho. unfold Transaction.hashForSignature.
  cbn [Transaction.ins].
  destruct (types.UInt32 inIndex) eqn:Hu; [|reflexivity]. cbn [negb].
  unfold types.UInt32 in Hu. rewrite andb_true_iff, Z.leb_le in Hu.
  destruct Hu as [H0 _].
  destruct (Z.of_nat (length ins) <=? inIndex); [reflexivity|].
  destruct (decompile prevOutScript) as [chunks|]; [|reflexivity].
  unfold Transaction.signedOutputs. rewrite land_toInt32_31, Hs.
  cbn [Z.eqb Transaction.SIGHASH_SINGLE Transaction.SIGHASH_NONE Pos.eqb].
  unfold Transaction.clone.
  cbn [Transaction.outs Transaction.ins Transaction.version Transaction.time
       Transaction.locktime].
  replace (Z.to_nat (inIndex + 1)) with (S (Z.to_nat inIndex)) by lia.
  destruct (outs !! Z.to_nat inIndex) as [o|] eqn:E.
  - symmetry in Ho.
    pose proof (lookup_lt_Some _ _ _ E) as Hl.
    pose proof (lookup_lt_Some _ _ _ Ho) as Hl'.
    destruct (Z.leb_spec (Z.of_nat (length outs)) inIndex); [lia|].
    destruct (Z.leb_spec (Z.of_nat (length outs')) inIndex); [lia|].
    set (c := fun txOut : Transaction.Output =>
                Transaction.mkOutput (Transaction.out_script txOut)
                  (Transaction.value txOut) None).
    rewrite (blankOutputs_take _ (map c outs) (c o))
      by (rewrite list_lookup_fmap, E; reflexivity).
    rewrite (blankOutputs_take _ (map c outs') (c o))
      by (rewrite list_lookup_fmap, Ho; reflexivity).
    reflexivity.
  - symmetry in Ho.
    apply lookup_ge_None in E, Ho.
    destruct (Z.leb_spec (Z.of_nat (length outs)) inIndex); [|lia].
    destruct (Z.leb_spec (Z.of_nat (length outs')) inIndex); [|lia].
    reflexivity.
Qed.

(** With the "any one can pay" bit the signature hash depends on the inputs
    only through the one at [inIndex]: two transactions with the same
    version, time, locktime and outputs and the same input at [inIndex] have
    the same hash, whatever their other inputs and however many. *)
Theorem hashForSignature_anyonecanpay_reads_one_input
    (version time locktime : Z) (ins ins' : list Transaction.Input)
    (outs : list Transaction.Output) (input : Transaction.Input)
    (inIndex : Z) (prevOutScript : bytes) (hashType : Z) :
  Z.land hashType Transaction.SIGHASH_ANYONECANPAY <> 0 ->
  ins !! Z.to_nat inIndex = Some input ->
  ins' !! Z.to_nat inIndex = Some input ->
  Transaction.hashForSignature junk sha256 decompile compile
    (Transaction.mk version time locktime ins outs)
    inIndex prevOutScript hashType
  = Transaction.hashForSignature junk sha256 decompile compile
      (Transaction.mk version time locktime ins' outs)
      inIndex prevOutScript hashType.
Proof.
  intros Ha Hi Hi'. unfold Transaction.hashForSignature.
  cbn [Transaction.ins].
  destruct (types.UInt32 inIndex) eqn:Hu; [|reflexivity]. cbn [negb].
  unfold types.UInt32 in Hu. rewrite andb_true_iff, Z.leb_le in Hu.
  destruct Hu as [H0 _].
  pose proof (lookup_lt_Some _ _ _ Hi) as Hl.
  pose proof (lookup_lt_Some _ _ _ Hi') as Hl'.
  destruct (Z.leb_spec (Z.of_nat (length ins)) inIndex); [lia|].
  destruct (Z.leb_spec (Z.of_nat (length ins')) inIndex); [lia|].
  destruct (decompile prevOutScript) as [chunks|]; [|reflexivity].
  unfold Transaction.clone.
  cbn [Transaction.outs Transaction.ins Transaction.version Transaction.time
       Transaction.locktime].
  rewrite !clone_inputs.
  assert (Hacp : negb (Z.land (toInt32 hashType)
                         Transaction.SIGHASH_ANYONECANPAY =? 0) = true).
  { unfold Transaction.SIGHASH_ANYONECANPAY in *. rewrite land_toInt32_128.
    destruct (Z.eqb_spec (Z.land hashType 128) 0); [contradiction|reflexivity]. }
  unfold Transaction.signedOutputs.
  cbn [Transaction.outs Transaction.ins Transaction.version Transaction.time
       Transaction.locktime].
  destruct (Z.land (toInt32 hashType) 31 =? Transaction.SIGHASH_NONE).
  { unfold Transaction.signedInputs. rewrite Hacp.
    cbn [Transaction.outs Transaction.ins Transaction.version Transaction.time
         Transaction.locktime].
    rewrite !ignoreSequences_lookup_self, Hi, Hi'. reflexivity. }
  destruct (Z.land (toInt32 hashType) 31 =? Transaction.SIGHASH_SINGLE).
  { destruct (Z.of_nat (length outs) <=? inIndex); [reflexivity|].
    unfold Transaction.signedInputs. rewrite Hacp.
    cbn [Transaction.outs Transaction.ins Transaction.version Transaction.time
         Transaction.locktime].
    rewrite !ignoreSequences_lookup_self, Hi, Hi'. reflexivity. }
  unfold Transaction.signedInputs. rewrite Hacp.
  cbn [Transaction.outs Transaction.ins Transaction.version Transaction.time
       Transaction.locktime].
  rewrite Hi, Hi'. reflexivity.
Qed.

End SignatureCommitment.

Lemma hashForSignature_none_ignores_outputs_witness :
  Transaction.hashForSignature Example.junk Example.digest Example.decompile
    Example.compile
    (Transaction.mk 1 7 0 [Example.input0; Example.input1]
       [Example.output0; Example.output1]) 1 [x51] 130
  = Transaction.hashForSignature Example.junk Example.digest Example.decompile
      Example.compile
      (Transaction.mk 1 7 0 [Example.input0; Example.input1] []) 1 [x51] 130.
Proof.
  apply (hashForSignature_none_ignores_outputs Example.junk Example.digest
           Example.decompile Example.compile).
  reflexivity.
Defined.

Lemma hashForSignature_single_reads_one_output_witness :
  Transaction.hashForSignature Example.junk Example.digest Example.decompile
    Example.compile
    (Transaction.mk 1 7 0 [Example.input0; Example.input1]
       [Example.output0; Example.output1]) 1 [x51] 3
  = Transaction.hashForSignature Example.junk Example.digest Example.decompile
      Example.compile
      (Transaction.mk 1 7 0 [Example.input0; Example.input1]
         [Example.output1; Example.output1; Example.output0]) 1 [x51] 3.
Proof.
  apply (hashForSignature_single_reads_one_output Example.junk Example.digest
           Example.decompile Example.compile); reflexivity.
Defined.

Lemma hashForSignature_anyonecanpay_reads_one_input_witness :
  Transaction.hashForSignature Example.junk Example.digest Example.decompile
    Example.compile
    (Transaction.mk 1 7 0 [Example.input0; Example.input1]
       [Example.output0]) 1 [x51] 129
  = Transaction.hashForSignature Example.junk Example.digest Example.decompile
      Example.compile
      (Transaction.mk 1 7 0 [Example.input1; Example.input1; Example.input0]
         [Example.output0]) 1 [x51] 129.
Proof.
  apply (hashForSignature_anyonecanpay_reads_one_input Example.junk
           Example.digest Example.decompile Example.compile
           _ _ _ _ _ _ Example.input1).
  - vm_compute. discriminate.
  - reflexivity.
  - reflexivity.
Defined.
(** ** The signature hash and the unlock scripts *)

Lemma blankScripts_ignoreSequences (n : nat) (ins : list Transaction.Input) :
  map (Transaction.setScript []) (Transaction.ignoreSequences n ins)
  = Transaction.ignoreSequences n (map (Transaction.setScript []) ins).
Proof.
  apply list_eq. intros i. unfold Transaction.ignoreSequences.
  rewrite list_lookup_fmap, !list_lookup_imap, list_lookup_fmap.
  destruct (ins !! i) as [x|]; [|reflexivity]. simpl.
  destruct (i =? n)%nat; reflexivity.
Qed.

Lemma blankScripts_ignoreSequences_eq (n : nat)
    (ins ins' : list Transaction.Input) :
  map (Transaction.setScript []) ins = map (Transaction.setScript []) ins' ->
  map (Transaction.setScript []) (Transaction.ignoreSequences n ins)
  = map (Transaction.setScript []) (Transaction.ignoreSequences n ins').
Proof. intros H. rewrite !blankScripts_ignoreSequences, H. reflexivity. Qed.

Lemma signedInputs_scripts (version time locktime : Z)
    (ins ins' : list Transaction.Input) (outs : list Transaction.Output)
    (inIndex hashType : Z) (ourScript : bytes) :
  map (Transaction.setScript []) ins = map (Transaction.setScript []) ins' ->
  Transaction.signedInputs (Transaction.mk version time locktime ins outs)
    inIndex hashType ourScript
  = Transaction.signedInputs (Transaction.mk version time locktime ins' outs)
      inIndex hashType ourScript.
Proof.
  intros HE. unfold Transaction.signedInputs.
  cbn [Transaction.outs Transaction.ins Transaction.version Transaction.time
       Transaction.locktime].
  assert (Hl : Transaction.setScript [] <$> ins !! Z.to_nat inIndex
             = Transaction.setScript [] <$> ins' !! Z.to_nat inIndex).
  { assert (HE' : Transaction.setScript [] <$> ins
                  = Transaction.setScript [] <$> ins') by exact HE.
    rewrite <- !list_lookup_fmap, HE'. reflexivity. }
  unfold Transaction.EMPTY_SCRIPT. rewrite HE.
  destruct (ins !! Z.to_nat inIndex) as [x|],
           (ins' !! Z.to_nat inIndex) as [x'|]; try discriminate;
    [|reflexivity].
  cbn [fmap option_fmap option_map] in Hl. apply (inj Some) in Hl.
  assert (Hx : Transaction.setScript ourScript x
               = Transaction.setScript ourScript x').
  { change (Transaction.setScript ourScript (Transaction.setScript [] x)
            = Transaction.setScript ourScript (Transaction.setScript [] x')).
    rewrite Hl. reflexivity. }
  rewrite Hx. reflexivity.
Qed.

Section ScriptsAndSignatureHash.

Context (junk : nat -> byte).
Context (sha256 : bytes -> bytes).
Context (decompile : bytes -> option (list chunk)).
Context (compile : list chunk -> bytes).

Lemma hashForSignature_scripts (version time locktime : Z)
    (ins ins' : list Transaction.Input) (outs : list Transaction.Output)
    (inIndex : Z) (prevOutScript : bytes) (hashType : Z) :
  map (Transaction.setScript []) ins = map (Transaction.setScript []) ins' ->
  Transaction.hashForSignature junk sha256 decompile compile
    (Transaction.mk version time locktime ins outs)
    inIndex prevOutScript hashType
  = Transaction.hashForSignature junk sha256 decompile compile
      (Transaction.mk version time locktime ins' outs)
      inIndex prevOutScript hashType.
Proof.
  intros HE. unfold Transaction.hashForSignature.
  cbn [Transaction.ins].
  assert (Hlen : length ins = length ins').
  { apply (f_equal length) in HE. rewrite !length_map in HE. exact HE. }
  rewrite Hlen.
  destruct (negb (types.UInt32 inIndex)); [reflexivity|].
  destruct (Z.of_nat (length ins') <=? inIndex); [reflexivity|].
  destruct (decompile prevOutScript) as [chunks|]; [|reflexivity].
  unfold Transaction.clone.
  cbn [Transaction.outs Transaction.ins Transaction.version Transaction.time
       Transaction.locktime].
  rewrite !clone_inputs.
  unfold Transaction.signedOutputs.
  cbn [Transaction.outs Transaction.ins Transaction.version Transaction.time
       Transaction.locktime].
  destruct (Z.land (toInt32 hashType) 31 =? Transaction.SIGHASH_NONE).
  { rewrite (signedInputs_scripts _ _ _ _ _ _ _ _ _
               (blankScripts_ignoreSequences_eq _ _ _ HE)). reflexivity. }
  destruct (Z.land (toInt32 hashType) 31 =? Transaction.SIGHASH_SINGLE).
  { destruct (Z.of_nat (length outs) <=? inIndex); [reflexivity|].
    rewrite (signedInputs_scripts _ _ _ _ _ _ _ _ _
               (blankScripts_ignoreSequences_eq _ _ _ HE)). reflexivity. }
  rewrite (signedInputs_scripts _ _ _ _ _ _ _ _ _ HE). reflexivity.
Qed.

(** The signature hash never depends on the unlock scripts the inputs
    carry: two transactions that differ in the scripts of their inputs only
    have the same hash, for every input index, previous-output script and
    hash type. *)
Theorem hashForSignature_ignores_input_scripts (tx tx' : Transaction.t)
    (inIndex : Z) (prevOutScript : bytes) (hashType : Z) :
  Transaction.version tx = Transaction.version tx' ->
  Transaction.time tx = Transaction.time tx' ->
  Transaction.locktime tx = Transaction.locktime tx' ->
  Transaction.outs tx = Transaction.outs tx' ->
  map (Transaction.setScript []) (Transaction.ins tx)
  = map (Transaction.setScript []) (Transaction.ins tx') ->
  Transaction.hashForSignature junk sha256 decompile compile
    tx inIndex prevOutScript hashType
  = Transaction.hashForSignature junk sha256 decompile compile
      tx' inIndex prevOutScript hashType.
Proof.
  destruct tx, tx'. cbn. intros -> -> -> ->. apply hashForSignature_scripts.
Qed.

(** [setInputScript(index, scriptSig)] needs an input at [index], and fails
    with a type error otherwise. It replaces the script of that input and
    nothing else: the other fields of the input, the other inputs and the
    outputs stay, and so does every signature hash of the transaction. *)
Theorem setInputScript_replaces_one_script (tx : Transaction.t) (index : Z)
    (scriptSig : bytes) :
  (~ (0 <= index < Z.of_nat (length (Transaction.ins tx))) ->
   Transaction.setInputScript tx index scriptSig = Err TypeError) /\
  (forall input,
     0 <= index ->
     Transaction.ins tx !! Z.to_nat index = Some input ->
     exists tx',
       Transaction.setInputScript tx index scriptSig = Ok tx' /\
       Transaction.version tx' = Transaction.version tx /\
       Transaction.time tx' = Transaction.time tx /\
       Transaction.locktime tx' = Transaction.locktime tx /\
       Transaction.outs tx' = Transaction.outs tx /\
       length (Transaction.ins tx') = length (Transaction.ins tx) /\
       Transaction.ins tx' !! Z.to_nat index
       = Some (Transaction.mkInput (Transaction.hash input)
                 (Transaction.index input) scriptSig
                 (Transaction.sequence input)) /\
       (forall j, j <> Z.to_nat index ->
          Transaction.ins tx' !! j = Transaction.ins tx !! j) /\
       (forall inIndex prevOutScript hashType,
          Transaction.hashForSignature junk sha256 decompile compile
            tx' inIndex prevOutScript hashType
          = Transaction.hashForSignature junk sha256 decompile compile
              tx inIndex prevOutScript hashType)).
Proof.
  unfold Transaction.setInputScript. split.
  - intros Hout. destruct (Z.leb_spec 0 index) as [H0|]; [|reflexivity].
    destruct (Transaction.ins tx !! Z.to_nat index) as [x|] eqn:E;
      [|reflexivity].
    apply lookup_lt_Some in E. lia.
  - intros input H0 Hin.
    destruct (Z.leb_spec 0 index); [|lia]. rewrite Hin.
    eexists. split; [reflexivity|].
    cbn [Transaction.outs Transaction.ins Transaction.version Transaction.time
         Transaction.locktime].
    repeat split.
    + apply length_alter.
    + rewrite list_lookup_alter_eq, Hin. reflexivity.
    + intros j Hj. apply list_lookup_alter_ne. congruence.
    + intros inIndex prevOutScript hashType. destruct tx as [v t l ins outs].
      cbn [Transaction.outs Transaction.ins Transaction.version
           Transaction.time Transaction.locktime].
      apply hashForSignature_scripts.
      apply list_eq. intros j. rewrite !list_lookup_fmap.
      destruct (Nat.eq_dec j (Z.to_nat index)) as [->|Hj].
      * rewrite list_lookup_alter_eq. destruct (ins !! Z.to_nat index); reflexivity.
      * rewrite list_lookup_alter_ne by congruence. reflexivity.
Qed.

End ScriptsAndSignatureHash.

Lemma hashForSignature_ignores_input_scripts_witness :
  Transaction.hashForSignature Example.junk Example.digest Example.decompile
    Example.compile
    (Transaction.mk 1 7 0
       [Transaction.setScript [x01; x02] Example.input0; Example.input1]
       [Example.output0]) 1 [x51] 1
  = Transaction.hashForSignature Example.junk Example.digest Example.decompile
      Example.compile
      (Transaction.mk 1 7 0 [Example.input0; Example.input1]
         [Example.output0]) 1 [x51] 1.
Proof.
  apply (hashForSignature_ignores_input_scripts Example.junk Example.digest
           Example.decompile Example.compile); reflexivity.
Defined.

Lemma setInputScript_replaces_one_script_witness :
  Transaction.setInputScript Example.tx 5 [x51] = Err TypeError /\
  exists tx',
    Transaction.setInputScript Example.tx 1 [x51] = Ok tx' /\
    Transaction.hashForSignature Example.junk Example.digest
      Example.decompile Example.compile tx' 0 [x51] 1
    = Transaction.hashForSignature Example.junk Example.digest
        Example.decompile Example.compile Example.tx 0 [x51] 1.
Proof.
  destruct (setInputScript_replaces_one_script Example.junk Example.digest
              Example.decompile Example.compile Example.tx 5 [x51])
    as [Herr _].
  split; [apply Herr; vm_compute; intros [_ H]; discriminate H|].
  destruct (setInputScript_replaces_one_script Example.junk Example.digest
              Example.decompile Example.compile Example.tx 1 [x51])
    as [_ Hok].
  destruct (Hok Example.input1 ltac:(lia) eq_refl)
    as (tx' & H1 & _ & _ & _ & _ & _ & _ & _ & H2).
  exists tx'. split; [exact H1|apply H2].
Defined.
(** ** Appending inputs and outputs *)

Lemma sum_list_map_snoc {A} (f : A -> nat) (l : list A) (x : A) :
  sum_list (map f (l ++ [x])) = (sum_list (map f l) + f x)%nat.
Proof.
  induction l as [|y l IH]; simpl; [lia|]. rewrite IH. lia.
Qed.

Lemma forallb_snoc {A} (f : A -> bool) (l : list A) (x : A) :
  forallb f (l ++ [x]) = forallb f l && f x.
Proof.
  rewrite forallb_app. simpl. rewrite andb_true_r. reflexivity.
Qed.

Lemma wellFormed_transaction_iff (tx : Transaction.t) :
  WellFormed.transaction tx = true <->
  WellFormed.int32 (Transaction.version tx) = true /\
  (if 2 <=? Transaction.version tx then WellFormed.uint64 (Transaction.time tx)
   else WellFormed.uint32 (Transaction.time tx)) = true /\
  WellFormed.uint32 (Transaction.locktime tx) = true /\
  forallb WellFormed.input (Transaction.ins tx) = true /\
  forallb WellFormed.output (Transaction.outs tx) = true /\
  WellFormed.count (length (Transaction.ins tx)) = true /\
  WellFormed.count (length (Transaction.outs tx)) = true.
Proof. unfold WellFormed.transaction. rewrite !andb_true_iff. tauto. Qed.

(** [addInput] refuses, with a type error, a hash that is not 32 bytes and
    an index or sequence that is not an unsigned 32-bit integer. Otherwise
    it appends one input, with sequence [0xffffffff] and an empty script
    unless given, and returns its position. A well-formed transaction stays
    well-formed, so it still serializes and parses back; its size grows by
    the 40 fixed bytes, the script with its length prefix, and what the
    input count needs more. *)
Theorem addInput_appends_one_input (junk : nat -> byte) (tx : Transaction.t)
    (hash : bytes) (index : Z) (sequence : option Z)
    (scriptSig : option bytes) :
  let input := Transaction.mkInput hash index (default [] scriptSig)
                 (default 4294967295 sequence) in
  let n := length (Transaction.ins tx) in
  (~ (length hash = 32%nat /\ 0 <= index < 2 ^ 32 /\
      forall s, sequence = Some s -> 0 <= s < 2 ^ 32) ->
   Transaction.addInput tx hash index sequence scriptSig = Err TypeError) /\
  (length hash = 32%nat -> 0 <= index < 2 ^ 32 ->
   (forall s, sequence = Some s -> 0 <= s < 2 ^ 32) ->
   exists tx',
     Transaction.addInput tx hash index sequence scriptSig
     = Ok (Z.of_nat n, tx') /\
     Transaction.ins tx' = Transaction.ins tx ++ [input] /\
     Transaction.ins tx' !! n = Some input /\
     Transaction.outs tx' = Transaction.outs tx /\
     (Transaction.byteLength tx' + varuint.encodingLength n
      = Transaction.byteLength tx + varuint.encodingLength (S n) + 40
        + Transaction.varSliceSize (default [] scriptSig))%nat /\
     (WellFormed.transaction tx = true ->
      WellFormed.count (length (default [] scriptSig)) = true ->
      WellFormed.count (S n) = true ->
      WellFormed.transaction tx' = true /\
      result_bind (Transaction.toBuffer junk tx')
        (fun data => Transaction.fromBuffer data false) = Ok tx')).
Proof.
  intros input n. unfold Transaction.addInput.
  unfold types.Hash256bit, types.UInt32. split.
  - intros Hbad.
    destruct (Nat.eqb_spec (length hash) 32) as [Hh|]; [|reflexivity].
    destruct (Z.leb_spec 0 index); [|reflexivity].
    destruct (Z.ltb_spec index (2 ^ 32)); [|rewrite andb_false_r; reflexivity].
    destruct sequence as [s|]; cbn [from_option andb].
    + destruct (Z.leb_spec 0 s); [|reflexivity].
      destruct (Z.ltb_spec s (2 ^ 32)); [|reflexivity].
      exfalso. apply Hbad. split; [exact Hh|]. split; [lia|].
      intros s' [= <-]. lia.
    + exfalso. apply Hbad. split; [exact Hh|]. split; [lia|].
      intros s' [=].
  - intros Hh Hi Hs.
    destruct (Nat.eqb_spec (length hash) 32); [|lia].
    destruct (Z.leb_spec 0 index); [|lia].
    destruct (Z.ltb_spec index (2 ^ 32)); [|lia]. cbn [andb].
    assert (Hseq : from_option
                     (fun n0 => (0 <=? n0) && (n0 <? 2 ^ 32)) true sequence
                   = true).
    { destruct sequence as [s|]; [|reflexivity]. simpl.
      specialize (Hs s eq_refl).
      apply andb_true_iff. rewrite Z.leb_le, Z.ltb_lt. lia. }
    rewrite Hseq.
    exists (Transaction.mk (Transaction.version tx) (Transaction.time tx)
              (Transaction.locktime tx) (Transaction.ins tx ++ [input])
              (Transaction.outs tx)).
    split.
    { cbn [Transaction.ins]. rewrite length_app. cbn [length].
      subst n input. unfold Transaction.EMPTY_SCRIPT,
        Transaction.DEFAULT_SEQUENCE. do 2 f_equal. lia. }
    cbn [Transaction.ins Transaction.outs].
    split; [reflexivity|].
    split; [apply list_lookup_middle; reflexivity|].
    split; [reflexivity|].
    split.
    { subst input n. rewrite !byteLength_sum.
      cbn [Transaction.ins Transaction.outs Transaction.version].
      rewrite sum_list_map_snoc, length_app. cbn [length Transaction.script].
      replace (length (Transaction.ins tx) + 1)%nat
        with (S (length (Transaction.ins tx))) by lia.
      lia. }
    intros Hwf Hsc Hcount.
    assert (Hwf' : WellFormed.transaction
              (Transaction.mk (Transaction.version tx) (Transaction.time tx)
                 (Transaction.locktime tx) (Transaction.ins tx ++ [input])
                 (Transaction.outs tx)) = true).
    { apply wellFormed_transaction_iff in Hwf.
      destruct Hwf as (Hv & Ht & Hl & Hins & Houts & _ & Hco).
      apply wellFormed_transaction_iff.
      cbn [Transaction.ins Transaction.outs Transaction.version
           Transaction.time Transaction.locktime].
      repeat split; try assumption.
      - rewrite forallb_snoc, Hins.
        unfold WellFormed.input, WellFormed.writableInput, WellFormed.uint32.
        subst input.
        cbn [Transaction.hash Transaction.index Transaction.script
             Transaction.sequence andb].
        rewrite Hsc, andb_true_r. rewrite !andb_true_iff.
        rewrite Nat.eqb_eq, !Z.leb_le, !Z.ltb_lt.
        destruct sequence as [s|]; cbn [default]; unfold id.
        + specialize (Hs s eq_refl). lia.
        + lia.
      - rewrite length_app. cbn [length]. fold n.
        replace (n + 1)%nat with (S n) by lia. exact Hcount. }
    split; [exact Hwf'|].
    unfold Transaction.DEFAULT_SEQUENCE, Transaction.EMPTY_SCRIPT.
    fold input.
    rewrite (toBuffer_wire junk _ (writable_of_wellFormed _ Hwf')).
    cbn [result_bind].
    rewrite <- (app_nil_r (Wire.transaction _)).
    apply fromBuffer_wire; [exact Hwf'|reflexivity].
Qed.

Lemma addInput_appends_one_input_witness :
  exists tx',
    Transaction.addInput Example.tx (replicate 32 x09) 4 None None
    = Ok (2, tx') /\
    Transaction.ins tx' !! 2%nat
    = Some (Transaction.mkInput (replicate 32 x09) 4 [] 4294967295) /\
    result_bind (Transaction.toBuffer Example.junk tx')
      (fun data => Transaction.fromBuffer data false) = Ok tx'.
Proof.
  destruct (addInput_appends_one_input Example.junk Example.tx
              (replicate 32 x09) 4 None None) as [_ H].
  destruct (H eq_refl ltac:(lia) ltac:(intros s [=]))
    as (tx' & H1 & _ & H2 & _ & _ & H3).
  exists tx'. split; [exact H1|]. split; [exact H2|].
  apply H3; reflexivity.
Defined.

(** [addOutput] fails with a type error exactly when the amount check,
    [types.Satoshi], rejects the value; the check is not among the sources
    and is a parameter here. Otherwise it appends one output and returns its
    position, and the size grows by the 8 value bytes, the script with its
    length prefix, and what the output count needs more. When the value also
    fits 64 bits, a well-formed transaction stays well-formed, so it still
    serializes and parses back. *)
Theorem addOutput_appends_one_output (junk : nat -> byte)
    (Satoshi : Z -> bool) (tx : Transaction.t) (scriptPubKey : bytes)
    (value : Z) :
  let output := Transaction.mkOutput scriptPubKey (Some value) None in
  let n := length (Transaction.outs tx) in
  (Satoshi value = false ->
   Transaction.addOutput Satoshi tx scriptPubKey value = Err TypeError) /\
  (Satoshi value = true ->
   exists tx',
     Transaction.addOutput Satoshi tx scriptPubKey value
     = Ok (Z.of_nat n, tx') /\
     Transaction.outs tx' = Transaction.outs tx ++ [output] /\
     Transaction.outs tx' !! n = Some output /\
     Transaction.ins tx' = Transaction.ins tx /\
     (Transaction.byteLength tx' + varuint.encodingLength n
      = Transaction.byteLength tx + varuint.encodingLength (S n) + 8
        + Transaction.varSliceSize scriptPubKey)%nat /\
     (WellFormed.transaction tx = true ->
      0 <= value < 2 ^ 64 ->
      WellFormed.count (length scriptPubKey) = true ->
      WellFormed.count (S n) = true ->
      WellFormed.transaction tx' = true /\
      result_bind (Transaction.toBuffer junk tx')
        (fun data => Transaction.fromBuffer data false) = Ok tx')).
Proof.
  intros output n. unfold Transaction.addOutput. split.
  - intros ->. reflexivity.
  - intros ->.
    exists (Transaction.mk (Transaction.version tx) (Transaction.time tx)
              (Transaction.locktime tx) (Transaction.ins tx)
              (Transaction.outs tx ++ [output])).
    split.
    { cbn [Transaction.outs]. rewrite length_app. cbn [length].
      subst n output. do 2 f_equal. lia. }
    cbn [Transaction.ins Transaction.outs].
    split; [reflexivity|].
    split; [apply list_lookup_middle; reflexivity|].
    split; [reflexivity|].
    split.
    { subst output n. rewrite !byteLength_sum.
      cbn [Transaction.ins Transaction.outs Transaction.version].
      rewrite sum_list_map_snoc, length_app.
      cbn [length Transaction.out_script].
      replace (length (Transaction.outs tx) + 1)%nat
        with (S (length (Transaction.outs tx))) by lia.
      lia. }
    intros Hwf Hv Hsc Hcount.
    assert (Hwf' : WellFormed.transaction
              (Transaction.mk (Transaction.version tx) (Transaction.time tx)
                 (Transaction.locktime tx) (Transaction.ins tx)
                 (Transaction.outs tx ++ [output])) = true).
    { apply wellFormed_transaction_iff in Hwf.
      destruct Hwf as (Hver & Ht & Hl & Hins & Houts & Hci & _).
      apply wellFormed_transaction_iff.
      cbn [Transaction.ins Transaction.outs Transaction.version
           Transaction.time Transaction.locktime].
      repeat split; try assumption.
      - rewrite forallb_snoc, Houts.
        unfold WellFormed.output, WellFormed.uint64. subst output.
        cbn [Transaction.value Transaction.valueBuffer Transaction.out_script
             andb].
        rewrite Hsc, andb_true_r. rewrite !andb_true_iff.
        rewrite !Z.leb_le, !Z.ltb_lt. lia.
      - rewrite length_app. cbn [length]. fold n.
        replace (n + 1)%nat with (S n) by lia. exact Hcount. }
    split; [exact Hwf'|]. fold output.
    rewrite (toBuffer_wire junk _ (writable_of_wellFormed _ Hwf')).
    cbn [result_bind].
    rewrite <- (app_nil_r (Wire.transaction _)).
    apply fromBuffer_wire; [exact Hwf'|reflexivity].
Qed.

Lemma addOutput_appends_one_output_witness :
  Transaction.addOutput Example.Satoshi Example.tx [x51] 2100000000000001
  = Err TypeError /\
  exists tx',
    Transaction.addOutput Example.Satoshi Example.tx [x51] 5000
    = Ok (2, tx') /\
    result_bind (Transaction.toBuffer Example.junk tx')
      (fun data => Transaction.fromBuffer data false) = Ok tx'.
Proof.
  destruct (addOutput_appends_one_output Example.junk Example.Satoshi
              Example.tx [x51] 2100000000000001) as [Herr _].
  split; [apply Herr; reflexivity|].
  destruct (addOutput_appends_one_output Example.junk Example.Satoshi
              Example.tx [x51] 5000) as [_ H].
  destruct (H eq_refl) as (tx' & H1 & _ & _ & _ & _ & H3).
  exists tx'. split; [exact H1|]. apply H3; try reflexivity. lia.
Defined.
(** ** Hex strings *)

Lemma fromHexString_toHexString (b : bytes) :
  fromHexString (toHexString b) = b.
Proof.
  induction b as [|x b IH]; [reflexivity|].
  change (fromHexString (toHexString (x :: b)))
    with (match hex_value (hex_digit (Z_of_byte x / 16)),
                hex_value (hex_digit (Z_of_byte x mod 16)) with
          | Some h, Some l => byte_of_Z (16 * h + l)
                              :: fromHexString (toHexString b)
          | _, _ => []
          end).
  rewrite IH. destruct x; vm_compute; reflexivity.
Qed.

Lemma length_toHexString (b : bytes) :
  String.length (toHexString b) = (2 * length b)%nat.
Proof.
  induction b as [|x b IH]; [reflexivity|].
  cbn [toHexString String.length length]. rewrite IH. lia.
Qed.

(** [toHex()] and [fromHex()] are inverse on the data model: the hex string
    of a well-formed transaction parses back to it, and so does the hex
    string of a well-formed block. *)
Theorem hex_roundtrip (junk : nat -> byte) :
  (forall tx, WellFormed.transaction tx = true ->
     result_bind (Transaction.toHex junk tx) Transaction.fromHex = Ok tx) /\
  (forall b, WellFormed.block b = true ->
     result_bind (Block.toHex junk b false) Block.fromHex = Ok b).
Proof.
  split.
  - intros tx Hwf. unfold Transaction.toHex, Transaction.fromHex.
    rewrite (toBuffer_wire junk tx (writable_of_wellFormed tx Hwf)).
    cbn [result_map result_bind]. rewrite fromHexString_toHexString.
    rewrite <- (app_nil_r (Wire.transaction tx)).
    apply fromBuffer_wire; [exact Hwf|reflexivity].
  - intros b Hwf. unfold Block.toHex, Block.fromHex.
    rewrite (toBuffer_block junk b Hwf).
    cbn [result_map result_bind]. rewrite fromHexString_toHexString.
    apply fromBuffer_wire_block, Hwf.
Qed.

Lemma hex_roundtrip_witness :
  result_bind (Transaction.toHex Example.junk Example.tx) Transaction.fromHex
  = Ok Example.tx /\
  result_bind (Block.toHex Example.junk Example.block false) Block.fromHex
  = Ok Example.block.
Proof.
  destruct (hex_roundtrip Example.junk) as [Htx Hb].
  split; [apply Htx|apply Hb]; reflexivity.
Defined.

(** [getId()] of a transaction and of a block is the hash in reverse byte
    order, two hex digits a byte: decoding the string and reversing it gives
    [getHash()] back. The id of a coinbase transaction is 64 zeros. *)
Theorem getId_is_the_reversed_hash (junk : nat -> byte)
    (sha256 : bytes -> bytes) :
  (forall tx id, Transaction.getId junk sha256 tx = Ok id ->
     Transaction.getHash junk sha256 tx
     = Ok (reverseBuffer (fromHexString id)) /\
     exists h, Transaction.getHash junk sha256 tx = Ok h /\
               String.length id = (2 * length h)%nat) /\
  (forall b id, Block.getId junk sha256 b = Ok id ->
     Block.getHash junk sha256 b = Ok (reverseBuffer (fromHexString id)) /\
     exists h, Block.getHash junk sha256 b = Ok h /\
               String.length id = (2 * length h)%nat) /\
  (forall tx, Transaction.isCoinbase tx = Ok true ->
     Transaction.getId junk sha256 tx
     = Ok (toHexString (replicate 32 x00))).
Proof.
  split; [|split].
  - intros tx id. unfold Transaction.getId.
    destruct (Transaction.getHash junk sha256 tx) as [h|]; [|discriminate].
    intros [= <-]. rewrite fromHexString_toHexString.
    unfold reverseBuffer. rewrite rev_involutive. split; [reflexivity|].
    exists h. split; [reflexivity|].
    rewrite length_toHexString, length_rev. reflexivity.
  - intros b id. unfold Block.getId.
    destruct (Block.getHash junk sha256 b) as [h|]; [|discriminate].
    intros [= <-]. rewrite fromHexString_toHexString.
    unfold reverseBuffer. rewrite rev_involutive. split; [reflexivity|].
    exists h. split; [reflexivity|].
    rewrite length_toHexString, length_rev. reflexivity.
  - intros tx Hcb. unfold Transaction.getId, Transaction.getHash.
    rewrite Hcb. reflexivity.
Qed.

Lemma getId_is_the_reversed_hash_witness :
  Transaction.getId Example.junk Example.digest Example.coinbase
  = Ok "0000000000000000000000000000000000000000000000000000000000000000"%string
  /\
  exists id,
    Block.getId Example.junk Example.digest Example.block = Ok id /\
    Block.getHash Example.junk Example.digest Example.block
    = Ok (reverseBuffer (fromHexString id)).
Proof.
  destruct (getId_is_the_reversed_hash Example.junk Example.digest)
    as (_ & Hb & Hcb).
  split; [apply Hcb; reflexivity|].
  destruct (Block.getId Example.junk Example.digest Example.block)
    as [id|e] eqn:E.
  - exists id. split; [reflexivity|]. apply (Hb _ _ E).
  - vm_compute in E. discriminate.
Defined.
(** ** The target as a number *)

Lemma le_value_app (u v : bytes) :
  le_value (u ++ v) = le_value u + 256 ^ Z.of_nat (length u) * le_value v.
Proof.
  induction u as [|y u IH]; cbn [app le_value length].
  - simpl. lia.
  - rewrite IH, Nat2Z.inj_succ, Z.pow_succ_r by lia. ring.
Qed.

Lemma le_value_zeros (n : nat) : le_value (replicate n x00) = 0.
Proof.
  induction n as [|n IH]; [reflexivity|].
  cbn [replicate le_value]. rewrite IH. reflexivity.
Qed.

Lemma rev_replicate_byte (n : nat) (x : byte) :
  rev (replicate n x) = replicate n x.
Proof.
  induction n as [|n IH]; [reflexivity|].
  cbn [replicate rev]. rewrite IH. symmetry. apply replicate_cons_app.
Qed.

Lemma be_value_target (bits : Z) :
  0 <= bits -> 3 <= Spec.exponent bits ->
  be_value (Spec.target bits)
  = Spec.mantissa bits * 256 ^ (Spec.exponent bits - 3).
Proof.
  intros Hb He. unfold Spec.target, be_value, be_bytes.
  rewrite !rev_app_distr, rev_involutive, !rev_replicate_byte.
  rewrite <- app_assoc, !le_value_app, !le_value_zeros, !length_replicate.
  rewrite length_le_bytes, le_value_le_bytes.
  rewrite Z2Nat.id by lia.
  assert (Hm : 0 <= Spec.mantissa bits < 2 ^ 23).
  { unfold Spec.mantissa. apply Z.mod_pos_bound. lia. }
  rewrite Z.mod_small by (change (256 ^ Z.of_nat 3) with (2 ^ 24); lia).
  ring.
Qed.

(** For [bits] with an exponent byte between 3 and 32, [calculateTarget]
    answers 32 bytes that read, as a big-endian number, the mantissa times
    [256 ^ (exponent - 3)], and [checkProofOfWork()] tells whether the
    block hash, reversed and read the same way, is at most that number. *)
Theorem target_is_the_compact_number (junk : nat -> byte)
    (sha256 : bytes -> bytes) (b : Block.t) :
  (forall m, length (sha256 m) = 32%nat) ->
  WellFormed.header b = true ->
  3 <= Spec.exponent (Block.bits b) <= 32 ->
  exists target h,
    Block.calculateTarget (Block.bits b) = Ok target /\
    length target = 32%nat /\
    be_value target
    = Spec.mantissa (Block.bits b) * 256 ^ (Spec.exponent (Block.bits b) - 3)
    /\
    Block.getHash junk sha256 b = Ok h /\
    Block.checkProofOfWork junk sha256 b
    = Ok (be_value (reverseBuffer h)
          <=? Spec.mantissa (Block.bits b)
              * 256 ^ (Spec.exponent (Block.bits b) - 3)).
Proof.
  intros Hlen Hwf He.
  assert (Hbits : WellFormed.uint32 (Block.bits b) = true).
  { unfold WellFormed.header in Hwf. rewrite !andb_true_iff in Hwf. tauto. }
  pose proof (calculateTarget_spec (Block.bits b) Hbits) as Hct.
  destruct He as [H3 H32].
  apply Z.leb_le in H3 as H3'. apply Z.leb_le in H32 as H32'.
  rewrite H3', H32' in Hct. cbn [andb] in Hct.
  unfold WellFormed.uint32 in Hbits.
  rewrite andb_true_iff, Z.leb_le in Hbits.
  pose proof (be_value_target (Block.bits b) (proj1 Hbits) H3) as Hnum.
  exists (Spec.target (Block.bits b)),
         (bcrypto.hash256 sha256 (Wire.header b)).
  split; [exact Hct|]. split; [apply length_target; lia|].
  split; [exact Hnum|].
  unfold Block.checkProofOfWork, Block.getHash.
  rewrite (toBuffer_header junk b Hwf). cbn [result_map].
  split; [reflexivity|]. rewrite Hct. f_equal. rewrite <- Hnum.
  apply compare_be_value.
  unfold reverseBuffer, bcrypto.hash256.
  rewrite length_rev, Hlen, length_target by lia. reflexivity.
Qed.

Lemma target_is_the_compact_number_witness :
  exists target,
    Block.calculateTarget (Block.bits Example.easy) = Ok target /\
    be_value target = 8388607 * 256 ^ 29.
Proof.
  destruct (target_is_the_compact_number Example.junk Example.digest
              Example.easy length_sha256 eq_refl)
    as (target & h & H1 & _ & H2 & _).
  - vm_compute. split; discriminate.
  - exists target. split; [exact H1|exact H2].
Defined.
(** ** The coinbase test and its argument check *)

(** [isCoinbase()] looks at the hash of the input only when there is exactly
    one input. It then fails with a type error when that hash is not 32
    bytes, and [getHash()] and [getId()] fail with it; with no input or with
    two or more it answers false whatever the hashes are. *)
Theorem isCoinbase_checks_a_lone_hash (junk : nat -> byte)
    (sha256 : bytes -> bytes) (tx : Transaction.t) :
  (forall e, Transaction.isCoinbase tx = Err e <->
     e = TypeError /\
     exists input, Transaction.ins tx = [input] /\
                   length (Transaction.hash input) <> 32%nat) /\
  (forall e, Transaction.isCoinbase tx = Err e ->
     Transaction.getHash junk sha256 tx = Err TypeError /\
     Transaction.getId junk sha256 tx = Err TypeError) /\
  (length (Transaction.ins tx) <> 1%nat ->
   Transaction.isCoinbase tx = Ok false).
Proof.
  assert (Hiff : forall e, Transaction.isCoinbase tx = Err e <->
     e = TypeError /\
     exists input, Transaction.ins tx = [input] /\
                   length (Transaction.hash input) <> 32%nat).
  { intros e. unfold Transaction.isCoinbase, Transaction.isCoinbaseHash,
      types.Hash256bit.
    destruct (Transaction.ins tx) as [|input [|input' rest]].
    - split; [discriminate|]. intros (_ & i & [=] & _).
    - destruct (Nat.eqb_spec (length (Transaction.hash input)) 32) as [Hl|Hl].
      + split; [discriminate|]. intros (_ & i & [= <-] & Hne). contradiction.
      + split.
        * intros [= <-]. split; [reflexivity|]. exists input. auto.
        * intros [-> _]. reflexivity.
    - split; [discriminate|]. intros (_ & i & [=] & _). }
  split; [exact Hiff|]. split.
  - intros e He. apply Hiff in He as He'. destruct He' as [-> _].
    unfold Transaction.getId, Transaction.getHash. rewrite He.
    split; reflexivity.
  - intros Hn. unfold Transaction.isCoinbase.
    destruct (Transaction.ins tx) as [|input [|input' rest]];
      [reflexivity|simpl in Hn; lia|reflexivity].
Qed.

Lemma isCoinbase_checks_a_lone_hash_witness :
  Transaction.getHash Example.junk Example.digest
    (Transaction.mk 1 0 0 [Transaction.mkInput [x00] 0 [] 0] [])
  = Err TypeError /\
  Transaction.isCoinbase
    (Transaction.mk 1 0 0
       [Transaction.mkInput [x00] 0 [] 0; Transaction.mkInput [x00] 0 [] 0] [])
  = Ok false.
Proof.
  split.
  - destruct (isCoinbase_checks_a_lone_hash Example.junk Example.digest
                (Transaction.mk 1 0 0 [Transaction.mkInput [x00] 0 [] 0] []))
      as (_ & H & _).
    apply (H TypeError). reflexivity.
  - destruct (isCoinbase_checks_a_lone_hash Example.junk Example.digest
                (Transaction.mk 1 0 0
                   [Transaction.mkInput [x00] 0 [] 0;
                    Transaction.mkInput [x00] 0 [] 0] []))
      as (_ & _ & H).
    apply H. simpl. lia.
Defined.

(** ** Cloning *)

Section Clone.

Context (junk : nat -> byte).
Context (sha256 : bytes -> bytes).

Lemma writeOutput_clone (txOut : Transaction.Output) :
  Transaction.isOutput txOut = true ->
  Transaction.writeOutput
    (Transaction.mkOutput (Transaction.out_script txOut)
       (Transaction.value txOut) None)
  = Transaction.writeOutput txOut.
Proof.
  unfold Transaction.writeOutput, Transaction.isOutput.
  cbn [Transaction.value Transaction.out_script Transaction.valueBuffer].
  destruct (Transaction.value txOut); [reflexivity|discriminate].
Qed.

Lemma forEach_ext {S A} (f g : A -> M S unit) (l : list A) :
  Forall (fun x => f x = g x) l -> forEach f l = forEach g l.
Proof.
  induction 1 as [|x l Hx _ IH]; simpl; [reflexivity|].
  rewrite Hx, IH. reflexivity.
Qed.

Lemma forEach_map {S A B} (f : B -> M S unit) (g : A -> B) (l : list A) :
  forEach f (map g l) = forEach (fun x => f (g x)) l.
Proof.
  induction l as [|x l IH]; simpl; [reflexivity|]. rewrite IH. reflexivity.
Qed.

Lemma fold_left_map {A B} (f : nat -> B -> nat) (g : A -> B) (l : list A)
    (a : nat) :
  fold_left f (map g l) a = fold_left (fun s x => f s (g x)) l a.
Proof.
  revert a. induction l as [|x l IH]; intros a; simpl; [reflexivity|].
  apply IH.
Qed.

(** [clone()] copies the script and the value of every output and nothing
    else of it, and every field of every input. So the clone of a
    transaction whose outputs all carry a value has the same size, the same
    serialization and the same hash, and cloning twice is cloning once. *)
Theorem clone_serializes_alike (tx : Transaction.t) :
  Forall (fun txOut => Transaction.isOutput txOut = true)
    (Transaction.outs tx) ->
  Transaction.byteLength (Transaction.clone tx) = Transaction.byteLength tx /\
  Transaction.toBuffer junk (Transaction.clone tx)
  = Transaction.toBuffer junk tx /\
  Transaction.getHash junk sha256 (Transaction.clone tx)
  = Transaction.getHash junk sha256 tx /\
  Transaction.clone (Transaction.clone tx) = Transaction.clone tx.
Proof.
  intros Houts.
  assert (Hlen : Transaction.byteLength (Transaction.clone tx)
                 = Transaction.byteLength tx).
  { unfold Transaction.byteLength, Transaction.clone.
    cbn [Transaction.ins Transaction.outs Transaction.version].
    rewrite clone_inputs, length_map, fold_left_map. reflexivity. }
  assert (Hw : Transaction.writeTransaction (Transaction.clone tx)
               = Transaction.writeTransaction tx).
  { unfold Transaction.writeTransaction, Transaction.clone.
    cbn [Transaction.ins Transaction.outs Transaction.version
         Transaction.time Transaction.locktime].
    rewrite clone_inputs, length_map, forEach_map.
    rewrite (forEach_ext _ Transaction.writeOutput (Transaction.outs tx));
      [reflexivity|].
    eapply Forall_impl; [exact Houts|]. intros o Ho.
    apply writeOutput_clone, Ho. }
  assert (Hb : Transaction.toBuffer junk (Transaction.clone tx)
               = Transaction.toBuffer junk tx).
  { unfold Transaction.toBuffer, Transaction.toBufferAt.
    rewrite Hlen, Hw. reflexivity. }
  split; [exact Hlen|]. split; [exact Hb|]. split.
  - unfold Transaction.getHash. rewrite Hb.
    replace (Transaction.isCoinbase (Transaction.clone tx))
      with (Transaction.isCoinbase tx); [reflexivity|].
    unfold Transaction.isCoinbase, Transaction.clone.
    cbn [Transaction.ins]. rewrite clone_inputs. reflexivity.
  - unfold Transaction.clone.
    cbn [Transaction.ins Transaction.outs Transaction.version
         Transaction.time Transaction.locktime].
    rewrite !clone_inputs. f_equal. rewrite map_map. reflexivity.
Qed.

End Clone.

Lemma clone_serializes_alike_witness :
  Transaction.toBuffer Example.junk (Transaction.clone Example.tx)
  = Transaction.toBuffer Example.junk Example.tx.
Proof.
  apply (clone_serializes_alike Example.junk Example.digest Example.tx).
  repeat (apply List.Forall_cons; [reflexivity|]). apply List.Forall_nil.
Defined.
(** ** What a successful block parse answers *)

Section BlockAnswers.

Import Cursor.

Lemma yields_block_readTransaction :
  yields Block.readTransaction (fun tx => WellFormed.transaction tx = true).
Proof.
  intros r r' tx. unfold Block.readTransaction.
  destruct (Transaction.fromBuffer
              (drop (BufferReader.offset r) (BufferReader.buffer r)) true)
    as [tx'|e] eqn:E; [|discriminate].
  intros [= <- _]. exact (fromBuffer_wellFormed _ _ _ E).
Qed.

Lemma yields_readHeader :
  yields Block.readHeader
    (fun b => WellFormed.header b = true /\ Block.witnessCommit b = None /\
              Block.transactions b = None).
Proof.
  unfold Block.readHeader.
  eapply yields_bind; [apply yields_readInt32|]. intros version Hv.
  eapply yields_bind; [apply (yields_readSlice 32)|]. intros prevHash Hp.
  eapply yields_bind; [apply (yields_readSlice 32)|]. intros merkleRoot Hm.
  eapply yields_bind; [apply yields_readUInt32|]. intros timestamp Ht.
  eapply yields_bind; [apply yields_readUInt32|]. intros bits Hb.
  eapply yields_bind; [apply yields_readUInt32|]. intros nonce Hn.
  apply yields_ret. cbv beta in *.
  unfold WellFormed.header.
  cbn [Block.version Block.prevHash Block.merkleRoot Block.timestamp
       Block.bits Block.nonce Block.witnessCommit Block.transactions
       from_option].
  rewrite Hv, Hp, Hm, Ht, Hb, Hn. auto.
Qed.

Lemma yields_readTransactions (block : Block.t) :
  WellFormed.header block = true -> Block.witnessCommit block = None ->
  yields (Block.readTransactions block)
    (fun b => WellFormed.block b = true).
Proof.
  intros Hh Hw. unfold Block.readTransactions.
  eapply yields_bind; [apply yields_readVarInt|]. intros n Hn.
  eapply yields_bind;
    [apply yields_repeatM, yields_block_readTransaction|].
  intros txs [Hl Htxs]. apply yields_ret. cbv beta in *.
  unfold WellFormed.block, WellFormed.header in *.
  cbn [Block.version Block.prevHash Block.merkleRoot Block.timestamp
       Block.bits Block.nonce Block.witnessCommit Block.transactions
       from_option].
  rewrite Hh, Hw, (Forall_forallb _ _ Htxs). cbn [from_option andb].
  unfold WellFormed.count. rewrite Hl, Z2Nat.id by lia.
  apply Z.leb_le. lia.
Qed.

End BlockAnswers.

(** Whatever [Block.fromBuffer] returns has every field within its width,
    32-byte hashes and well-formed transactions; so [toBuffer()] serializes
    it, to the canonical encoding, and parsing that serialization returns
    the same block. *)
Theorem parsed_block_reserializes (junk : nat -> byte) (data : bytes)
    (b : Block.t) :
  Block.fromBuffer data = Ok b ->
  WellFormed.block b = true /\
  Block.toBuffer junk b false = Ok (Wire.block b) /\
  Block.fromBuffer (Wire.block b) = Ok b.
Proof.
  intros H.
  assert (Hwf : WellFormed.block b = true).
  { unfold Block.fromBuffer in H.
    destruct (length data <? 80)%nat; [discriminate|].
    destruct (Block.readHeader (BufferReader.new data))
      as [[block r1]|e] eqn:E; [|discriminate].
    destruct (yields_readHeader _ _ _ E) as (Hh & Hw & Ht).
    destruct (length data =? 80)%nat.
    - injection H as <-. unfold WellFormed.block.
      rewrite Hh, Hw, Ht. reflexivity.
    - destruct (Block.readTransactions block r1) as [[blk r2]|e] eqn:E2;
        [|discriminate].
      injection H as <-. exact (yields_readTransactions block Hh Hw _ _ _ E2). }
  split; [exact Hwf|]. split.
  - apply toBuffer_block, Hwf.
  - apply fromBuffer_wire_block, Hwf.
Qed.

Lemma parsed_block_reserializes_witness :
  exists b,
    Block.fromBuffer (Wire.block Example.block ++ [x01; x02]) = Ok b /\
    Block.toBuffer Example.junk b false = Ok (Wire.block Example.block).
Proof.
  exists Example.block.
  assert (H : Block.fromBuffer (Wire.block Example.block ++ [x01; x02])
              = Ok Example.block) by (vm_compute; reflexivity).
  split; [exact H|].
  apply (parsed_block_reserializes Example.junk _ _ H).
Defined.
(** ** One serialization, one transaction *)

(** A byte string begins with the serialization of at most one well-formed
    transaction: when two serializations, each followed by whatever bytes,
    make up the same string, the transactions are the same and so is what
    follows. In particular two well-formed transactions with the same
    serialization are equal. *)
Theorem serialization_decodes_uniquely (tx1 tx2 : Transaction.t)
    (rest1 rest2 : bytes) :
  WellFormed.transaction tx1 = true ->
  WellFormed.transaction tx2 = true ->
  Wire.transaction tx1 ++ rest1 = Wire.transaction tx2 ++ rest2 ->
  tx1 = tx2 /\ rest1 = rest2.
Proof.
  intros H1 H2 Heq.
  pose proof (fromBuffer_wire tx1 rest1 true H1 ltac:(discriminate)) as P1.
  pose proof (fromBuffer_wire tx2 rest2 true H2 ltac:(discriminate)) as P2.
  rewrite Heq, P2 in P1. injection P1 as <-.
  split; [reflexivity|]. apply (app_inv_head _ _ _ Heq).
Qed.

Lemma serialization_decodes_uniquely_witness :
  Example.coinbase = Example.coinbase /\ [x01; x02] = [x01; x02].
Proof.
  apply (serialization_decodes_uniquely Example.coinbase Example.coinbase
           [x01; x02] [x01; x02]); reflexivity.
Defined.

(** ** The size of a signature hash *)

(** With a digest of 32 bytes, whatever [hashForSignature] returns has 32
    bytes: it is the sentinel or a double hash. *)
Theorem hashForSignature_is_32_bytes (junk : nat -> byte)
    (sha256 : bytes -> bytes) (decompile : bytes -> option (list chunk))
    (compile : list chunk -> bytes) (tx : Transaction.t) (inIndex : Z)
    (prevOutScript : bytes) (hashType : Z) (h : bytes) :
  (forall m, length (sha256 m) = 32%nat) ->
  Transaction.hashForSignature junk sha256 decompile compile
    tx inIndex prevOutScript hashType = Ok h ->
  length h = 32%nat.
Proof.
  intros H32. unfold Transaction.hashForSignature.
  destruct (negb (types.UInt32 inIndex)); [discriminate|].
  destruct (Z.of_nat (length (Transaction.ins tx)) <=? inIndex).
  { intros [= <-]. reflexivity. }
  destruct (decompile prevOutScript) as [chunks|]; [|discriminate].
  destruct (Transaction.signedOutputs tx (Transaction.clone tx) inIndex
              hashType) as [t1|].
  - destruct (Transaction.signedInputs t1 inIndex hashType _) as [t2|];
      [|discriminate].
    unfold Transaction.serializeAndHash.
    destruct (BufferWriter.writeInt32 hashType _) as [[u w]|]; [|discriminate].
    destruct (Transaction.toBufferAt t2 _ 0) as [w'|]; [|discriminate].
    intros [= <-]. apply H32.
  - intros [= <-]. reflexivity.
Qed.

Lemma hashForSignature_is_32_bytes_witness :
  exists h,
    Transaction.hashForSignature Example.junk Example.digest
      Example.decompile Example.compile Example.tx 1 [x51] 1 = Ok h /\
    length h = 32%nat.
Proof.
  destruct (Transaction.hashForSignature Example.junk Example.digest
              Example.decompile Example.compile Example.tx 1 [x51] 1)
    as [h|e] eqn:E.
  - exists h. split; [reflexivity|].
    exact (hashForSignature_is_32_bytes _ _ _ _ _ _ _ _ h length_sha256 E).
  - vm_compute in E. discriminate.
Defined.

(** ** The witness script-hash template *)

(** [check] accepts a script exactly when it compiles to 34 bytes that are
    [OP_0], the push of 32 bytes, and 32 bytes of hash. *)
Theorem witnessScriptHash_check_shape {script : Type}
    (compile : script -> bytes) (s : script) :
  witnessScriptHash.check compile s = true <->
  exists scriptHash,
    length scriptHash = 32%nat /\ compile s = x00 :: x20 :: scriptHash.
Proof.
  unfold witnessScriptHash.check, witnessScriptHash.OP_0.
  destruct (compile s) as [|b0 [|b1 h]]; cbn [lookup list_lookup length].
  - split; [discriminate|]. intros (h & _ & [=]).
  - rewrite andb_false_r. split; [discriminate|]. intros (h & _ & [=]).
  - rewrite !andb_true_iff, Nat.eqb_eq, !Z.eqb_eq. split.
    + intros [[Hl H0] H1]. exists h. split; [lia|].
      f_equal; [|f_equal].
      * apply Z_of_byte_inj. exact H0.
      * apply Z_of_byte_inj. exact H1.
    + intros (h' & Hl & [= -> -> ->]). repeat split. simpl. lia.
Qed.

Lemma witnessScriptHash_check_shape_witness :
  witnessScriptHash.check (fun s : bytes => s)
    (x00 :: x20 :: replicate 32 xab) = true.
Proof.
  apply (witnessScriptHash_check_shape (fun s : bytes => s)).
  exists (replicate 32 xab). split; reflexivity.
Defined.
(** ** A lenient parse is a strict parse of a prefix *)

(** In lenient mode [Transaction.fromBuffer] reads a prefix of its input and
    nothing behind it: whatever it returns is what the strict parse of that
    prefix returns. *)
Theorem lenient_parse_reads_a_prefix (data : bytes) (tx : Transaction.t) :
  Transaction.fromBuffer data true = Ok tx ->
  exists n, (n <= length data)%nat /\
            Transaction.fromBuffer (take n data) false = Ok tx.
Proof.
  unfold Transaction.fromBuffer.
  destruct (Transaction.readTransaction (BufferReader.new data))
    as [[tx' r']|e] eqn:E; [|discriminate].
  intros [= ->].
  destruct (local_readTransaction (BufferReader.new data) r' tx
              (Nat.le_0_l _) E) as (_ & _ & Hin & _).
  cbn [BufferReader.new BufferReader.buffer] in Hin.
  exists (BufferReader.offset r'). split; [exact Hin|].
  rewrite <- (take_drop (BufferReader.offset r') data) in E at 1.
  rewrite <- extend_new in E.
  destruct (truncates_readTransaction
              (BufferReader.new (take (BufferReader.offset r') data)) r'
              (drop (BufferReader.offset r') data) tx (Nat.le_0_l _) E)
    as (_ & _ & Hcut).
  rewrite (Hcut (Nat.le_0_l _)).
  cbn [BufferReader.new BufferReader.buffer BufferReader.offset].
  rewrite length_take.
  destruct (Nat.ltb_spec (BufferReader.offset r' `min` length data)
              (BufferReader.offset r')); [lia|].
  cbn [BufferReader.offset].
  destruct (Nat.eqb_spec (BufferReader.offset r')
              (BufferReader.offset r' `min` length data)); [reflexivity|lia].
Qed.

Lemma lenient_parse_reads_a_prefix_witness :
  exists n, (n <= length (Wire.transaction Example.tx ++ [x01; x02]))%nat /\
            Transaction.fromBuffer
              (take n (Wire.transaction Example.tx ++ [x01; x02])) false
            = Ok Example.tx.
Proof.
  apply (lenient_parse_reads_a_prefix _ Example.tx).
  vm_compute. reflexivity.
Defined.
